(** * dbgbtree: decoding and querying rbyd B-trees

    A shallow embedding of [scripts/dbgbtree.py]: the codec
    ([crc32c], [fromle32], [fromleb128], [fromtag], [frombtree]), the
    node fetcher ([Rbyd.fetch]), the node searcher ([Rbyd.lookup],
    [Rbyd.__iter__]) and the tree descender ([btree_lookup]).

    Python integers are unbounded, so they are [Z]; a [bytes] object is a
    [list byte]; Python exceptions and loops that may not end are the
    constructors [Exn] and [Timeout] of [result]. *)

From Stdlib Require Import ZArith List Lia Bool Sorted.
From Stdlib.Strings Require Import Byte.
Import ListNotations.
Local Open Scope Z_scope.

(* ===================================================================== *)
(** * Results of Python code                                              *)
(* ===================================================================== *)

Inductive pyexn : Type :=
| IndexError     (* data[i] past the end of a bytes object *)
| OSError        (* seek to a negative offset *)
| ValueError     (* seek to an offset that is no 64-bit integer, or
                    read of a length below -1 *)
| OverflowError. (* read of a length that is no 64-bit integer *)

Inductive result (A : Type) : Type :=
| Ok (a : A)
| Exn (e : pyexn)
| Timeout.     (* the loop was still running when the fuel ran out *)

Arguments Ok {A} a.
Arguments Exn {A} e.
Arguments Timeout {A}.

Definition bind {A B : Type} (m : result A) (k : A -> result B) : result B :=
  match m with
  | Ok a => k a
  | Exn e => Exn e
  | Timeout => Timeout
  end.

Notation "x <- m ;; k" := (bind m (fun x => k))
  (at level 100, m at next level, right associativity).
Notation "' p <- m ;; k" := (bind m (fun x => match x with p => k end))
  (at level 100, p pattern, m at next level, right associativity).

Definition returns {A : Type} (m : result A) : bool :=
  match m with Ok _ => true | _ => false end.

(* ===================================================================== *)
(** * Bytes and slices                                                    *)
(* ===================================================================== *)

Definition b2z (b : byte) : Z := Z.of_N (Byte.to_N b).

Definition z2b (z : Z) : byte :=
  match Byte.of_N (Z.to_N (z mod 256)) with
  | Some b => b
  | None => x00
  end.

Definition len (data : list byte) : Z := Z.of_nat (length data).

(** Python clamps slice bounds: a negative bound counts from the end. *)
Definition clamp (n i : Z) : Z :=
  if i <? 0 then Z.max (n + i) 0 else Z.min i n.

(** [data[a:]] *)
Definition slice_from (data : list byte) (a : Z) : list byte :=
  skipn (Z.to_nat (clamp (len data) a)) data.

(** [data[a:b]] *)
Definition slice (data : list byte) (a b : Z) : list byte :=
  let lo := clamp (len data) a in
  let hi := clamp (len data) b in
  firstn (Z.to_nat (hi - lo)) (skipn (Z.to_nat lo) data).

(** [data[i]] for [i >= 0] *)
Definition index (data : list byte) (i : nat) : result Z :=
  match nth_error data i with
  | Some b => Ok (b2z b)
  | None => Exn IndexError
  end.

(* ===================================================================== *)
(** * Codec                                                               *)
(* ===================================================================== *)

Definition TAG_UNR    : Z := 0x1000.
Definition TAG_BTREE  : Z := 0x0303.
Definition TAG_ALT    : Z := 0x4000.
Definition TAG_CRC    : Z := 0x2000.

Definition crc32c_bit (crc : Z) : Z :=
  Z.lxor (Z.shiftr crc 1) (Z.land crc 1 * 0x82f63b78).

Definition crc32c_byte (crc : Z) (b : byte) : Z :=
  let crc := Z.lxor crc (b2z b) in
  crc32c_bit (crc32c_bit (crc32c_bit (crc32c_bit
  (crc32c_bit (crc32c_bit (crc32c_bit (crc32c_bit crc))))))).

Definition crc32c (data : list byte) (crc : Z) : Z :=
  Z.lxor 0xffffffff (fold_left crc32c_byte data (Z.lxor crc 0xffffffff)).

(** Comparisons of terms unfold the checksum last. *)
Strategy 1000 [crc32c crc32c_byte crc32c_bit].

(** [struct.unpack('<I', data[0:4].ljust(4, b'\0'))] *)
Definition fromle32 (data : list byte) : Z :=
  match slice data 0 4 with
  | [] => 0
  | [b0] => b2z b0
  | [b0; b1] => b2z b0 + 256 * b2z b1
  | [b0; b1; b2] => b2z b0 + 256 * b2z b1 + 65536 * b2z b2
  | b0 :: b1 :: b2 :: b3 :: _ =>
      b2z b0 + 256 * b2z b1 + 65536 * b2z b2 + 16777216 * b2z b3
  end.

(** The loop of [fromleb128]: [i] is the index of the next byte, [n] the
    length of the whole buffer, returned when the buffer runs out. *)
Fixpoint fromleb128_loop (data : list byte) (i : Z) (word : Z) : Z * Z :=
  match data with
  | [] => (word, i)
  | b :: data' =>
      let word := Z.lor word (Z.shiftl (Z.land (b2z b) 0x7f) (7 * i)) in
      let word := Z.land word 0xffffffff in
      if Z.land (b2z b) 0x80 =? 0 then (word, i + 1)
      else fromleb128_loop data' (i + 1) word
  end.

Definition fromleb128 (data : list byte) : Z * Z :=
  fromleb128_loop data 0 0.

(** [(v, tag, weight, size, d)] *)
Definition taghdr : Type := Z * Z * Z * Z * Z.

Definition fromtag (data : list byte) : result taghdr :=
  b0 <- index data 0 ;;
  b1 <- index data 1 ;;
  let tag := Z.lor (Z.shiftl b0 8) b1 in
  let '(weight, d) := fromleb128 (slice_from data 2) in
  let '(size, d_) := fromleb128 (slice_from data (2 + d)) in
  Ok (Z.shiftr tag 15, Z.land tag 0x7fff, weight, size, 2 + d + d_).

(** [(w, trunk, block, crc)] *)
Definition frombtree (data : list byte) : Z * Z * Z * Z :=
  let '(w, d1) := fromleb128 data in
  let '(trunk, d2) := fromleb128 (slice_from data d1) in
  let '(block, d3) := fromleb128 (slice_from data (d1 + d2)) in
  let crc := fromle32 (slice_from data (d1 + d2 + d3)) in
  (w, trunk, block, crc).

Fixpoint popc_pos (p : positive) : Z :=
  match p with
  | xH => 1
  | xO p => popc_pos p
  | xI p => 1 + popc_pos p
  end.

(** [bin(x).count('1')] *)
Definition popc (x : Z) : Z :=
  match x with
  | Z0 => 0
  | Zpos p => popc_pos p
  | Zneg p => popc_pos p
  end.

(* ===================================================================== *)
(** * The rbyd type                                                       *)
(* ===================================================================== *)

(** An address as [rbydaddr] produces it: [0xa] or [(0xa, trunk)]. *)
Inductive addr : Type :=
| Int (b : Z)
| Tuple (b : Z) (t : Z).

(** [not trunk]: [None] and [0] are both falsy. *)
Definition truthy (x : option Z) : bool :=
  match x with
  | Some t => negb (t =? 0)
  | None => false
  end.

Definition value (x : option Z) : Z :=
  match x with
  | Some t => t
  | None => 0
  end.

(** The local variables of the scan in [Rbyd.fetch]. *)
Record scan : Type := mkscan {
  s_crc : Z;
  s_crc_ : Z;
  s_off : Z;
  s_j_ : Z;
  s_trunk_ : Z;
  s_trunk__ : Z;
  s_weight : Z;
  s_lower_ : Z;
  s_upper_ : Z;
  s_weight_ : Z;
  s_wastrunk : bool;
  s_trunkoff : option Z
}.

Inductive ctl : Type :=
| Continue (s : scan)
| Break (s : scan).

Inductive color : Type := Y | R | B.

Module Rbyd.

Record t : Type := mk {
  block : Z;
  data : list byte;
  rev : Z;
  off : Z;
  trunk : Z;
  weight : Z;
  other_blocks : list Z
}.

(** [__bool__] *)
Definition bool (self : t) : Datatypes.bool := negb (trunk self =? 0).

(** [f.seek(block * block_size); f.read(block_size)] on a file opened
    with ['rb']. The seek raises ValueError for an offset that does not
    fit 64 bits and OSError for a negative one; the read raises
    OverflowError for a length below [-2^63] and ValueError for another
    length below -1, and a length of -1 reads up to the end. From 0 up,
    offsets and lengths are taken to be such as the platform can seek to
    and hold in memory. *)
Definition read (f : list byte) (block_size block : Z)
  : result (list byte) :=
  let pos := block * block_size in
  if (pos <? - 2 ^ 63) || (2 ^ 63 <=? pos) then Exn ValueError
  else if pos <? 0 then Exn OSError
  else if block_size <? - 2 ^ 63 then Exn OverflowError
  else if block_size <? -1 then Exn ValueError
  else
    let rest := skipn (Z.to_nat pos) f in
    Ok (if block_size <? 0 then rest else firstn (Z.to_nat block_size) rest).

(** "take care of crcs": [None] is the [break] on a CRC mismatch. *)
Definition scan_crcs (data : list byte) (tag size : Z) (s : scan)
  : option scan :=
  let j_ := s_j_ s in
  if Z.land tag 0x4000 =? 0 then
    if negb (Z.land tag 0x7f00 =? TAG_CRC) then
      Some (mkscan (s_crc s) (crc32c (slice data j_ (j_ + size)) (s_crc_ s))
              (s_off s) j_ (s_trunk_ s) (s_trunk__ s) (s_weight s)
              (s_lower_ s) (s_upper_ s) (s_weight_ s) (s_wastrunk s)
              (s_trunkoff s))
    else
      let crc__ := fromle32 (slice data j_ (j_ + 4)) in
      if negb (s_crc_ s =? crc__) then None
      else
        (* commit what we have *)
        Some (mkscan (s_crc_ s) (s_crc_ s)
                (if truthy (s_trunkoff s) then value (s_trunkoff s)
                 else j_ + size)
                j_ (s_trunk__ s) (s_trunk__ s) (s_weight_ s)
                (s_lower_ s) (s_upper_ s) (s_weight_ s) (s_wastrunk s)
                (s_trunkoff s))
  else Some s.

(** "evaluate trunks" *)
Definition scan_trunks (trunk : option Z) (tag w size d : Z) (s : scan)
  : scan :=
  let j_ := s_j_ s in
  if negb (Z.land tag 0x6000 =? 0x2000)
     && (negb (truthy trunk) || (value trunk >=? j_ - d) || s_wastrunk s)
  then
    (* new trunk? *)
    let '(trunk__, lower_, upper_) :=
      if negb (s_wastrunk s) then (j_ - d, 0, 0)
      else (s_trunk__ s, s_lower_ s, s_upper_ s) in
    (* keep track of weight *)
    if negb (Z.land tag 0x4000 =? 0) then
      if negb (Z.land tag 0x2000 =? 0) then
        mkscan (s_crc s) (s_crc_ s) (s_off s) j_ (s_trunk_ s) trunk__
          (s_weight s) lower_ (upper_ + w) (s_weight_ s) true (s_trunkoff s)
      else
        mkscan (s_crc s) (s_crc_ s) (s_off s) j_ (s_trunk_ s) trunk__
          (s_weight s) (lower_ + w) upper_ (s_weight_ s) true (s_trunkoff s)
    else
      mkscan (s_crc s) (s_crc_ s) (s_off s) j_ (s_trunk_ s) trunk__
        (s_weight s) lower_ upper_ (lower_ + upper_ + w) false
        (* keep track of off for best matching trunk *)
        (if truthy trunk && (j_ + size >? value trunk)
         then Some (j_ + size) else s_trunkoff s)
  else s.

Definition advance (j_ : Z) (s : scan) : scan :=
  mkscan (s_crc s) (s_crc_ s) (s_off s) j_ (s_trunk_ s) (s_trunk__ s)
    (s_weight s) (s_lower_ s) (s_upper_ s) (s_weight_ s) (s_wastrunk s)
    (s_trunkoff s).

Definition fold_header (crc_ j_ : Z) (s : scan) : scan :=
  mkscan (s_crc s) crc_ (s_off s) j_ (s_trunk_ s) (s_trunk__ s)
    (s_weight s) (s_lower_ s) (s_upper_ s) (s_weight_ s) (s_wastrunk s)
    (s_trunkoff s).

(** One pass through the body of the [while] loop of [fetch]. *)
Definition scan_step (data : list byte) (trunk : option Z) (s : scan)
  : result ctl :=
  ' (v, tag, w, size, d) <- fromtag (slice_from data (s_j_ s)) ;;
  if negb (v =? Z.land (popc (s_crc_ s)) 1) then Ok (Break s)
  else
    let crc_ := crc32c (slice data (s_j_ s) (s_j_ s + d)) (s_crc_ s) in
    let s := fold_header crc_ (s_j_ s + d) s in
    if (Z.land tag 0x4000 =? 0) && (s_j_ s + size >? len data)
    then Ok (Break s)
    else
      match scan_crcs data tag size s with
      | None => Ok (Break s)
      | Some s =>
          let s := scan_trunks trunk tag w size d s in
          Ok (Continue (if Z.land tag 0x4000 =? 0
                        then advance (s_j_ s + size) s else s))
      end.

(** [while j_ < len(data) and (not trunk or off <= trunk)] *)
Definition scan_cond (data : list byte) (trunk : option Z) (s : scan)
  : Datatypes.bool :=
  (s_j_ s <? len data)
  && (negb (truthy trunk) || (s_off s <=? value trunk)).

Fixpoint scan_loop (fuel : nat) (data : list byte) (trunk : option Z)
  (s : scan) : result scan :=
  if scan_cond data trunk s then
    match fuel with
    | O => Timeout
    | S fuel =>
        c <- scan_step data trunk s ;;
        match c with
        | Continue s => scan_loop fuel data trunk s
        | Break s => Ok s
        end
    end
  else Ok s.

Definition scan_init (data : list byte) : scan :=
  mkscan 0 (crc32c (slice data 0 4) 0) 0 4 0 0 0 0 0 0 false None.

(** [fetch] of one block, given as an int. *)
Definition fetch_int (f : list byte) (block_size block : Z)
  (trunk : option Z) : result t :=
  data <- read f block_size block ;;
  let rev := fromle32 (slice data 0 4) in
  s <- scan_loop (length data) data trunk (scan_init data) ;;
  Ok (mk block data rev (s_off s) (s_trunk_ s) (s_weight s) []).

(** "determine most recent revision": the index [i] after the loop. *)
Fixpoint most_recent (rbyds : list t) (rest : list t) (i_ i : nat) : nat :=
  match rest with
  | [] => i
  | rbyd :: rest =>
      let cur := nth i rbyds rbyd in
      if bool rbyd
         && ((Z.land (rev rbyd - rev cur) 0x80000000 =? 0)
             || ((rev rbyd =? rev cur) && (trunk rbyd >? trunk cur)))
      then most_recent rbyds rest (S i_) i_
      else most_recent rbyds rest (S i_) i
  end.

(** "keep track of the other blocks" *)
Definition others (rbyds : list t) (i : nat) : list Z :=
  map (fun j => match nth_error rbyds ((i + 1 + j) mod length rbyds) with
                | Some r => block r
                | None => 0
                end)
      (seq 0 (length rbyds - 1)).

Definition select (rbyds : list t) : result t :=
  let i := most_recent rbyds rbyds 0 0 in
  match nth_error rbyds i with
  | Some rbyd =>
      Ok (mk (block rbyd) (data rbyd) (rev rbyd) (off rbyd) (trunk rbyd)
            (weight rbyd) (others rbyds i))
  | None => Exn IndexError
  end.

Fixpoint fetch_all {A : Type} (fetch1 : A -> result t) (blocks : list A)
  : result (list t) :=
  match blocks with
  | [] => Ok []
  | block :: blocks =>
      rbyd <- fetch1 block ;;
      rbyds <- fetch_all fetch1 blocks ;;
      Ok (rbyd :: rbyds)
  end.

(** [fetch] of a tuple [(b, b')] passed as [blocks]: it has length 2, so
    both components are taken as block addresses. *)
Definition fetch_pair (f : list byte) (block_size b b' : Z)
  (trunk : option Z) : result t :=
  rbyds <- fetch_all (fun block => fetch_int f block_size block trunk)
                     [b; b'] ;;
  select rbyds.

(** The recursive call [cls.fetch(f, block_size, block, trunk)]. *)
Definition fetch_elem (f : list byte) (block_size : Z) (trunk : option Z)
  (block : addr) : result t :=
  match block with
  | Int b => fetch_int f block_size b trunk
  | Tuple b b' => fetch_pair f block_size b b' trunk
  end.

(** [fetch] of a list of addresses. *)
Definition fetch (f : list byte) (block_size : Z) (blocks : list addr)
  (trunk : option Z) : result t :=
  match blocks with
  | [] => Exn IndexError
  | [Int b] => fetch_int f block_size b trunk
  | [Tuple b trunk'] =>
      (* block may encode a trunk *)
      fetch_int f block_size b
        (match trunk with None => Some trunk' | Some _ => trunk end)
  | _ =>
      rbyds <- fetch_all (fetch_elem f block_size trunk) blocks ;;
      select rbyds
  end.

(** Python's order on pairs of ints. *)
Definition pair_ltb (a b : Z * Z) : Datatypes.bool :=
  (fst a <? fst b) || ((fst a =? fst b) && (snd a <? snd b)).

Definition pair_leb (a b : Z * Z) : Datatypes.bool :=
  (fst a <? fst b) || ((fst a =? fst b) && (snd a <=? snd b)).

(** One step of a decision path: [(from, to, followed, color)]. *)
Definition edge : Type := Z * Z * Datatypes.bool * color.

(** [(done, id, tag, w, j, d, data, path)] *)
Definition found : Type :=
  Datatypes.bool * Z * Z * Z * Z * Z * list byte * list edge.

(** "figure out which color": [next] is the offset of the tag after the
    alt. *)
Definition alt_color (self : t) (alt next : Z) : result color :=
  if negb (Z.land alt 0x1000 =? 0) then
    ' (_, nalt, _, _, _) <- fromtag (slice_from (data self) next) ;;
    Ok (if negb (Z.land nalt 0x1000 =? 0) then Y else R)
  else Ok B.

(** "follow?" *)
Definition follows (id tag lower upper alt weight_ : Z) : Datatypes.bool :=
  if negb (Z.land alt 0x2000 =? 0)
  then pair_ltb (upper - weight_ - 1, Z.land alt 0xfff)
                (id, Z.land tag 0xfff)
  else pair_leb (id, Z.land tag 0xfff)
                (lower + weight_, Z.land alt 0xfff).

(** The [while True] loop of [lookup]. *)
Fixpoint lookup_loop (fuel : nat) (self : t) (id tag lower upper j : Z)
  (path : list edge) : result found :=
  match fuel with
  | O => Timeout
  | S fuel =>
      ' (_, alt, weight_, jump, d) <- fromtag (slice_from (data self) j) ;;
      (* found an alt? *)
      if negb (Z.land alt 0x4000 =? 0) then
        let gt := negb (Z.land alt 0x2000 =? 0) in
        if follows id tag lower upper alt weight_ then
          let lower' := lower + (if gt then upper - lower - 1 - weight_
                                 else 0) in
          let upper' := upper - (if negb gt then upper - lower' - 1 - weight_
                                 else 0) in
          let j' := j - jump in
          c <- alt_color self alt (j' + jump + d) ;;
          lookup_loop fuel self id tag lower' upper' j'
            (path ++ [(j' + jump, j', true, c)])
        (* stay on path *)
        else
          let lower' := lower + (if negb gt then weight_ else 0) in
          let upper' := upper - (if gt then weight_ else 0) in
          let j' := j + d in
          c <- alt_color self alt j' ;;
          lookup_loop fuel self id tag lower' upper' j'
            (path ++ [(j' - d, j', false, c)])
      (* found tag *)
      else
        let id_ := upper - 1 in
        let tag_ := alt in
        let w_ := id_ - lower in
        let done := pair_ltb (id_, tag_) (id, tag)
                    || negb (Z.land tag_ 0x1000 =? 0) in
        Ok (done, id_, tag_, w_, j, d,
            slice (data self) (j + d) (j + d + jump), path)
  end.

Definition lookup (fuel : nat) (self : t) (id tag : Z) : result found :=
  if negb (bool self) then Ok (true, 0, -1, 0, 0, 0, [], [])
  else lookup_loop fuel self id tag (-1) (weight self) (trunk self) [].

(** What [__iter__] yields: [(id, tag, w, j, d, data)]. *)
Definition entry : Type := Z * Z * Z * Z * Z * list byte.

(** [__iter__] as the entries yielded in at most [n] rounds, and how the
    generator stood after them: [Ok tt] when it was exhausted. *)
Fixpoint iter_loop (fuel n : nat) (self : t) (id tag : Z)
  : list entry * result unit :=
  match n with
  | O => ([], Timeout)
  | S n =>
      match lookup fuel self id (tag + 1) with
      | Ok (done, id, tag, w, j, d, data, _) =>
          if done then ([], Ok tt)
          else
            let '(l, r) := iter_loop fuel n self id tag in
            ((id, tag, w, j, d, data) :: l, r)
      | Exn e => ([], Exn e)
      | Timeout => ([], Timeout)
      end
  end.

Definition iter (fuel n : nat) (self : t) : list entry * result unit :=
  iter_loop fuel n self (-1) 0.

End Rbyd.

(* ===================================================================== *)
(** * The tree descender                                                  *)
(* ===================================================================== *)

(** [(tag, j, d, data)] *)
Definition tagent : Type := Z * Z * Z * list byte.

(** An element of the search path: [(bid, w, rbyd, rid, tags)]. *)
Definition level : Type := Z * Z * Rbyd.t * Z * list tagent.

(** [(done, bid, w, rbyd, rid, tags, path)] *)
Definition resolved : Type :=
  bool * Z * Z * Rbyd.t * Z * list tagent * list level.

(** "collect all tags": the [for i in it.count()] loop, from round [i]
    on; it gives [(rid_, w, tags, branch)]. *)
Fixpoint collect (fuel : nat) (rbyd : Rbyd.t) (i : nat)
  (rid_ tag w : Z) (tags : list tagent) (branch : option tagent)
  {struct fuel} : result (Z * Z * list tagent * option tagent) :=
  match fuel with
  | O => Timeout
  | S fuel' =>
      ' (done, rid__, tag, w_, j, d, data, _) <-
        Rbyd.lookup fuel rbyd rid_ (tag + 1) ;;
      if done || (negb (Nat.eqb i 0) && negb (rid__ =? rid_))
      then Ok (rid_, w, tags, branch)
      else
        (* first tag indicates the branch's weight *)
        let '(rid_, w) := if Nat.eqb i 0 then (rid__, w_) else (rid_, w) in
        (* catch any branches *)
        let branch := if tag =? TAG_BTREE then Some (tag, j, d, data)
                      else branch in
        collect fuel' rbyd (S i) rid_ tag w (tags ++ [(tag, j, d, data)])
          branch
  end.

Section BTree.

(** The variables [btree_lookup] closes over. *)
Variable f : list byte.
Variable block_size : Z.
Variable btree : Rbyd.t.

(** The [while True] loop of [btree_lookup]. *)
Fixpoint descend (fuel levels : nat) (bid : Z) (depth : option Z)
  (rbyd : Rbyd.t) (rid depth_ : Z) (path : list level)
  : result resolved :=
  match levels with
  | O => Timeout
  | S levels =>
      ' (rid_, w, tags, branch) <- collect fuel rbyd 0 rid 0 0 [] None ;;
      (* keep track of path *)
      let path := path ++ [(bid + (rid_ - rid), w, rbyd, rid_, tags)] in
      (* descend down branch? *)
      match branch with
      | Some (tag, j, d, data) =>
          if negb (truthy depth) || (depth_ <? value depth) then
            let '(w_, trunk, block, crc) := frombtree data in
            rbyd' <- Rbyd.fetch_int f block_size block (Some trunk) ;;
            (* corrupted? bail here so we can keep traversing the tree *)
            if negb (Rbyd.bool rbyd')
            then Ok (false, bid + (rid_ - rid), w, rbyd', -1, [], path)
            else descend fuel levels bid depth rbyd' (rid - (rid_ - (w - 1)))
                   (depth_ + 1) path
          else Ok (match tags with [] => true | _ => false end,
                   bid + (rid_ - rid), w, rbyd, rid_, tags, path)
      | None => Ok (match tags with [] => true | _ => false end,
                    bid + (rid_ - rid), w, rbyd, rid_, tags, path)
      end
  end.

Definition btree_lookup (fuel : nat) (bid : Z) (depth : option Z)
  : result resolved :=
  (* corrupted? return a corrupted block once *)
  if negb (Rbyd.bool btree)
  then Ok (bid >? 0, bid, 0, btree, -1, [], [])
  else descend fuel fuel bid depth btree bid 1 [].

End BTree.

(* ===================================================================== *)
(** * Reference encoders                                                  *)
(* ===================================================================== *)

(** The writer's side of the format, used to state round trips and to
    build blocks: LEB128, tag headers, and commits closed by a CRC tag. *)

Fixpoint toleb128_loop (fuel : nat) (v : Z) : list byte :=
  match fuel with
  | O => [z2b v]
  | S fuel =>
      if v <? 0x80 then [z2b v]
      else z2b (Z.lor (Z.land v 0x7f) 0x80)
           :: toleb128_loop fuel (Z.shiftr v 7)
  end.

Definition toleb128 (v : Z) : list byte :=
  toleb128_loop (Z.to_nat (Z.log2 v)) v.

Definition tole32 (v : Z) : list byte :=
  [z2b v; z2b (Z.shiftr v 8); z2b (Z.shiftr v 16); z2b (Z.shiftr v 24)].

Definition totag (v tag w size : Z) : list byte :=
  let word := Z.lor (Z.shiftl v 15) tag in
  z2b (Z.shiftr word 8) :: z2b word :: toleb128 w ++ toleb128 size.

(** A tag to be written: for an alt [a_size] is the jump and [a_data] is
    empty. *)
Record attr : Type := mkattr {
  a_tag : Z;
  a_w : Z;
  a_size : Z;
  a_data : list byte
}.

Definition parity (crc : Z) : Z := Z.land (popc crc) 1.

(** The bytes of one tag after running CRC [crc], and the CRC after it. *)
Definition put_attr (crc : Z) (a : attr) : list byte * Z :=
  let hdr := totag (parity crc) (a_tag a) (a_w a) (a_size a) in
  let crc := crc32c hdr crc in
  if Z.land (a_tag a) 0x4000 =? 0
  then (hdr ++ a_data a, crc32c (a_data a) crc)
  else (hdr, crc).

Fixpoint put_attrs (crc : Z) (l : list attr) : list byte * Z :=
  match l with
  | [] => ([], crc)
  | a :: l =>
      let '(bs, crc) := put_attr crc a in
      let '(bs', crc) := put_attrs crc l in
      (bs ++ bs', crc)
  end.

(** The closing CRC tag, with the checksum [sum] as its payload. *)
Definition put_crc (crc sum : Z) : list byte :=
  totag (parity crc) TAG_CRC 0 4 ++ tole32 sum.

(** A commit: its tags, then a CRC tag that holds the running CRC. *)
Definition put_commit (crc : Z) (l : list attr) : list byte * Z :=
  let '(bs, crc) := put_attrs crc l in
  let crc' := crc32c (totag (parity crc) TAG_CRC 0 4) crc in
  (bs ++ put_crc crc crc', crc').

(* ===================================================================== *)
(** * States the search can be in                                         *)
(* ===================================================================== *)

(** [reaches self id tag lower upper j path]: the loop of
    [self.lookup(id, tag)] arrives at the top of an iteration with these
    values of its variables. *)
Inductive reaches (self : Rbyd.t) (id tag : Z)
  : Z -> Z -> Z -> list Rbyd.edge -> Prop :=
| reaches_trunk :
    reaches self id tag (-1) (Rbyd.weight self) (Rbyd.trunk self) []
| reaches_follow lower upper j path v alt weight_ jump d c :
    reaches self id tag lower upper j path ->
    fromtag (slice_from (Rbyd.data self) j) = Ok (v, alt, weight_, jump, d) ->
    Z.land alt 0x4000 <> 0 ->
    Rbyd.follows id tag lower upper alt weight_ = true ->
    Rbyd.alt_color self alt (j - jump + jump + d) = Ok c ->
    let gt := negb (Z.land alt 0x2000 =? 0) in
    let lower' := lower + (if gt then upper - lower - 1 - weight_ else 0) in
    let upper' :=
      upper - (if negb gt then upper - lower' - 1 - weight_ else 0) in
    reaches self id tag lower' upper' (j - jump)
      (path ++ [(j - jump + jump, j - jump, true, c)])
| reaches_stay lower upper j path v alt weight_ jump d c :
    reaches self id tag lower upper j path ->
    fromtag (slice_from (Rbyd.data self) j) = Ok (v, alt, weight_, jump, d) ->
    Z.land alt 0x4000 <> 0 ->
    Rbyd.follows id tag lower upper alt weight_ = false ->
    Rbyd.alt_color self alt (j + d) = Ok c ->
    let gt := negb (Z.land alt 0x2000 =? 0) in
    reaches self id tag
      (lower + (if negb gt then weight_ else 0))
      (upper - (if gt then weight_ else 0))
      (j + d)
      (path ++ [(j + d - d, j + d, false, c)]).

(* ===================================================================== *)
(** * Blocks used as examples                                             *)
(* ===================================================================== *)

Definition bytes (l : list Z) : list byte := map z2b l.

(** A 16-byte block: revision 0, then one black alt whose weight varint
    is stretched over eight bytes, so that its header ends at offset 15
    and one byte is left in the block. *)
Definition torn16 : list byte :=
  bytes [0; 0; 0; 0;
         0x40; 0x00; 0x80; 0x80; 0x80; 0x80; 0x80; 0x80; 0x80; 0x00; 0x00;
         0xff].

(** The same in a 512-byte block: the alt's jump varint takes 504 bytes
    and its header ends at offset 511. *)
Definition torn512 : list byte :=
  bytes ([0; 0; 0; 0; 0x40; 0x00; 0x00] ++ repeat 0x80 503 ++ [0x00; 0xff]).

(* ===================================================================== *)
(** * Invariants of the scan                                              *)
(* ===================================================================== *)

(** The committed offset stays 0 until the first commit, and with it the
    committed trunk and weight. *)
Definition uncommitted (s : scan) : Prop :=
  4 <= s_j_ s /\ (s_off s = 0 -> s_trunk_ s = 0 /\ s_weight s = 0).

Definition ctl_scan (c : ctl) : scan :=
  match c with Continue s => s | Break s => s end.

(** A block that starts with revision [rev] and one commit of the tags
    [l]; also the running CRC after the commit. *)
Definition put_block (rev : Z) (l : list attr) : list byte * Z :=
  let '(bs, crc) := put_commit (crc32c (tole32 rev) 0) l in
  (tole32 rev ++ bs, crc).

(** Filling up to [n] bytes with bytes whose valid bit is not the parity
    of [crc], where a scan stops. *)
Definition fill (n : Z) (blk : list byte * Z) : list byte :=
  let '(bs, crc) := blk in
  bs ++ repeat (z2b (if parity crc =? 0 then 0xff else 0x00))
          (Z.to_nat (n - len bs)).

(** Tags of the example nodes: a name with weight 1, an inlined struct
    of the same id, and the black less-or-equal alt that separates
    them. *)
Definition name_a : attr := mkattr 0x101 1 1 (bytes [97]).
Definition alt_a : attr := mkattr 0x4101 1 5 [].
Definition struct_x : attr := mkattr 0x300 0 1 (bytes [120]).

(** A 32-byte block with revision 7: the tree of [name_a] at offset 4, a
    later tree ([alt_a], [struct_x]) at offset 9, and the CRC tag. *)
Definition block_a7 : list byte :=
  bytes [7; 0; 0; 0; 129; 1; 1; 1; 97; 193; 1; 1; 5; 3; 0; 0; 1; 120;
         160; 0; 0; 4; 207; 212; 214; 206;
         255; 255; 255; 255; 255; 255].

(** A 32-byte block with revision 7 and only the tree at offset 4. *)
Definition block_b7 : list byte :=
  bytes [7; 0; 0; 0; 129; 1; 1; 1; 97; 160; 0; 0; 4; 116; 31; 203; 228;
         255; 255; 255; 255; 255; 255; 255; 255; 255; 255; 255; 255; 255;
         255; 255].

(** Two mirrored blocks with the same revision. *)
Definition mirror_eq : list byte := block_a7 ++ block_b7.

(** The node that [fetch] finds in [block_a7]. *)
Definition node_a7 : Rbyd.t := Rbyd.mk 0 block_a7 7 26 9 1 [].

(** Block 0 has revision 1 and one commit; block 1 has revision 2 and a
    commit whose CRC tag holds 0 instead of the checksum. *)
Definition mirror_torn : list byte :=
  bytes [1; 0; 0; 0; 129; 1; 1; 1; 97; 160; 0; 0; 4; 42; 142; 39; 70;
         255; 255; 255; 255; 255; 255; 255; 255; 255; 255; 255; 255; 255;
         255; 255]
  ++
  bytes [2; 0; 0; 0; 129; 1; 1; 1; 97; 193; 1; 1; 5; 3; 0; 0; 1; 120;
         160; 0; 0; 4; 0; 0; 0; 0;
         0; 0; 0; 0; 0; 0].

(** A block with revision 2^32 - 1 and one with revision 0, each with a
    commit, and the nodes [fetch] finds in them. *)
Definition block_bmax : list byte :=
  bytes [255; 255; 255; 255; 1; 1; 1; 1; 97; 160; 0; 0; 4; 191; 233; 57;
         147;
         255; 255; 255; 255; 255; 255; 255; 255; 255; 255; 255; 255; 255;
         255; 255].

Definition block_a0 : list byte :=
  bytes [0; 0; 0; 0; 1; 1; 1; 1; 97; 193; 1; 1; 5; 3; 0; 0; 1; 120;
         160; 0; 0; 4; 101; 126; 87; 242;
         255; 255; 255; 255; 255; 255].

Definition mirror_wrap : list byte := block_bmax ++ block_a0.

Definition node_bmax : Rbyd.t := Rbyd.mk 0 block_bmax 0xffffffff 17 4 1 [].
Definition node_a0 : Rbyd.t := Rbyd.mk 1 block_a0 0 26 9 1 [].

(** The node [select] returns: [rbyd] with its siblings recorded. *)
Definition with_others (rbyd : Rbyd.t) (blocks : list Z) : Rbyd.t :=
  Rbyd.mk (Rbyd.block rbyd) (Rbyd.data rbyd) (Rbyd.rev rbyd) (Rbyd.off rbyd)
    (Rbyd.trunk rbyd) (Rbyd.weight rbyd) blocks.

(** What is read of a fetched node: block, revision, committed offset,
    trunk, weight and siblings. *)
Definition summary (r : result Rbyd.t)
  : option (Z * Z * Z * Z * Z * list Z) :=
  match r with
  | Ok r => Some (Rbyd.block r, Rbyd.rev r, Rbyd.off r, Rbyd.trunk r,
                  Rbyd.weight r, Rbyd.other_blocks r)
  | _ => None
  end.

(* ===================================================================== *)
(** * Commits as the writer lays them out                                 *)
(* ===================================================================== *)







(** Bytes a tag takes in the log. *)
Definition attr_len (a : attr) : Z :=
  2 + len (toleb128 (a_w a)) + len (toleb128 (a_size a)) + len (a_data a).

Definition attrs_len (l : list attr) : Z :=
  fold_right (fun a n => attr_len a + n) 0 l.













(* ===================================================================== *)
(** * Well-formed alt trees                                               *)
(* ===================================================================== *)

(** The (id, tag) of an entry, its id and its weight. *)
Definition key (e : Rbyd.entry) : Z * Z :=
  let '(id, tag, _, _, _, _) := e in (id, tag).

Definition eid (e : Rbyd.entry) : Z := fst (key e).

Definition eweight (e : Rbyd.entry) : Z :=
  let '(_, _, w, _, _, _) := e in w.

(** The lexicographic order of Python on pairs of ints. *)
Definition klt (a b : Z * Z) : Prop :=
  fst a < fst b \/ (fst a = fst b /\ snd a < snd b).

Definition kle (a b : Z * Z) : Prop :=
  fst a < fst b \/ (fst a = fst b /\ snd a <= snd b).

(** [shape self j lower upper es]: the tags reachable from offset [j]
    form a search tree for the candidate range [[lower, upper)] whose
    entries, from left to right, are [es]. Every terminal tag is below
    0xfff (so it is not removed and survives the 12-bit mask of the
    search), the decision path can be coloured at every alt, and the key
    of every alt is the largest key on the side it bounds. *)
Inductive shape (self : Rbyd.t) : Z -> Z -> Z -> list Rbyd.entry -> Prop :=
| shape_leaf j lower upper v tag w size d :
    fromtag (slice_from (Rbyd.data self) j) = Ok (v, tag, w, size, d) ->
    tag < 0xfff ->
    shape self j lower upper
      [(upper - 1, tag, upper - 1 - lower, j, d,
        slice (Rbyd.data self) (j + d) (j + d + size))]
| shape_le j lower upper v alt w jump d c es1 es2 :
    fromtag (slice_from (Rbyd.data self) j) = Ok (v, alt, w, jump, d) ->
    Z.land alt 0x4000 <> 0 -> Z.land alt 0x2000 = 0 ->
    Rbyd.alt_color self alt (j + d) = Ok c ->
    shape self (j - jump) lower (lower + w + 1) es1 ->
    shape self (j + d) (lower + w) upper es2 ->
    Forall (fun e => kle (key e) (lower + w, Z.land alt 0xfff)) es1 ->
    Exists (fun e => key e = (lower + w, Z.land alt 0xfff)) es1 ->
    Forall (fun e => klt (lower + w, Z.land alt 0xfff) (key e)) es2 ->
    shape self j lower upper (es1 ++ es2)
| shape_gt j lower upper v alt w jump d c es1 es2 :
    fromtag (slice_from (Rbyd.data self) j) = Ok (v, alt, w, jump, d) ->
    Z.land alt 0x4000 <> 0 -> Z.land alt 0x2000 <> 0 ->
    Rbyd.alt_color self alt (j + d) = Ok c ->
    shape self (j + d) lower (upper - w) es1 ->
    shape self (j - jump) (upper - 1 - w) upper es2 ->
    Forall (fun e => kle (key e) (upper - w - 1, Z.land alt 0xfff)) es1 ->
    Exists (fun e => key e = (upper - w - 1, Z.land alt 0xfff)) es1 ->
    Forall (fun e => klt (upper - w - 1, Z.land alt 0xfff) (key e)) es2 ->
    shape self j lower upper (es1 ++ es2).

(** A non-empty node with a well-formed tree at its trunk, no entry below
    the key (-1, 1) at which iteration starts. *)
Definition wf_node (self : Rbyd.t) (es : list Rbyd.entry) : Prop :=
  Rbyd.bool self = true
  /\ shape self (Rbyd.trunk self) (-1) (Rbyd.weight self) es
  /\ Forall (fun e => kle (-1, 1) (key e)) es.

(** The first entry of [es] at or above the key [k]. *)
Fixpoint first_ge (k : Z * Z) (es : list Rbyd.entry) : option Rbyd.entry :=
  match es with
  | [] => None
  | e :: es => if Rbyd.pair_leb k (key e) then Some e else first_ge k es
  end.

Fixpoint last_entry (es : list Rbyd.entry) : option Rbyd.entry :=
  match es with
  | [] => None
  | [e] => Some e
  | _ :: es => last_entry es
  end.

(** The entry a search for [k] ends at: the first one at or above [k],
    the last one when there is none. *)
Definition pick (k : Z * Z) (es : list Rbyd.entry) : option Rbyd.entry :=
  match first_ge k es with
  | Some e => Some e
  | None => last_entry es
  end.

(** What [lookup] returns when it ends at the entry [e]. *)
Definition answer (done : bool) (e : Rbyd.entry) (path : list Rbyd.edge)
  : Rbyd.found :=
  let '(id, tag, w, j, d, data) := e in (done, id, tag, w, j, d, data, path).

(** The id ranges [(id - w, id]] of [es] follow one another from [lo] to
    [hi]. *)
Fixpoint chained (lo : Z) (es : list Rbyd.entry) (hi : Z) : Prop :=
  match es with
  | [] => lo = hi
  | e :: es => eid e - eweight e = lo /\ chained (eid e) es hi
  end.

(** Strictly increasing keys. *)
Definition increasing (es : list Rbyd.entry) : Prop :=
  StronglySorted (fun a b => klt (key a) (key b)) es.

(** A 64-byte block, revision 3, whose log holds four trees, the last one
    at offset 27: a black less-or-equal alt to the name "a" at offset 4, a
    red greater-than alt to the name "b" at offset 22, and the struct "y"
    at offset 35. Its node has weight 2 and three entries. *)
Definition block_demo : list byte :=
  bytes [3; 0; 0; 0;
         1; 1; 1; 1; 97;
         193; 1; 1; 5;   3; 0; 0; 1; 120;
         195; 0; 1; 9;   1; 1; 1; 1; 98;
         193; 1; 1; 23;  115; 0; 1; 9;   3; 0; 0; 1; 121;
         32; 0; 0; 4; 73; 140; 204; 0;
         255; 255; 255; 255; 255; 255; 255; 255;
         255; 255; 255; 255; 255; 255; 255; 255].

Definition node_demo : Rbyd.t := Rbyd.mk 0 block_demo 3 48 27 2 [].

Definition entries_demo : list Rbyd.entry :=
  [(0, 0x101, 1, 4, 4, bytes [97]);
   (0, 0x300, 0, 35, 4, bytes [121]);
   (1, 0x101, 1, 22, 4, bytes [98])].

(* ===================================================================== *)
(** * More of the writer's side                                           *)
(* ===================================================================== *)

(** The bytes of a varint at the head of a buffer: up to and including
    the first byte without the continuation bit, or all of the buffer. *)
Fixpoint varint_prefix (data : list byte) : list byte :=
  match data with
  | [] => []
  | b :: data => if b2z b <? 0x80 then [b] else b :: varint_prefix data
  end.


(** What the scan keeps about offsets and weights: every offset it holds
    lies in the block, a trunk is 0 or the start of a tag with at least
    its two tag bytes in the block, and no weight is negative. *)
Definition a_trunk (data : list byte) (t : Z) : Prop :=
  t = 0 \/ (4 <= t /\ t + 2 <= len data).

Definition in_block (data : list byte) (s : scan) : Prop :=
  4 <= s_j_ s /\ (len data < 4 \/ s_j_ s <= len data)
  /\ 0 <= s_off s <= Z.max 0 (len data)
  /\ a_trunk data (s_trunk_ s) /\ a_trunk data (s_trunk__ s)
  /\ 0 <= s_weight s /\ 0 <= s_weight_ s
  /\ 0 <= s_lower_ s /\ 0 <= s_upper_ s
  /\ match s_trunkoff s with
     | Some o => 0 <= o <= len data
     | None => True
     end.

(** With a requested trunk [t] no trunk beyond [t] is taken. *)
Definition below (t : Z) (s : scan) : Prop :=
  s_trunk_ s <= t /\ s_trunk__ s <= t.

(** The second block of [mirror_torn] and the node fetched from it. *)
Definition block_torn : list byte :=
  bytes [2; 0; 0; 0; 129; 1; 1; 1; 97; 193; 1; 1; 5; 3; 0; 0; 1; 120;
         160; 0; 0; 4; 0; 0; 0; 0;
         0; 0; 0; 0; 0; 0].

Definition node_torn : Rbyd.t := Rbyd.mk 1 block_torn 2 0 0 0 [].

Definition node_b7 : Rbyd.t := Rbyd.mk 1 block_b7 7 17 4 1 [].

(* ===================================================================== *)
(** * Walking the whole tree                                              *)
(* ===================================================================== *)

(** The loop at the end of [main] that walks the tree, "traverse and
    print entries", with the printing left out: what it yields are the
    results of [btree_lookup] it goes through before the one that is
    done, for at most [rounds] rounds, and how the loop stood. *)
Fixpoint traverse (f : list byte) (block_size : Z) (btree : Rbyd.t)
  (fuel rounds : nat) (bid : Z) (depth : option Z)
  : list resolved * result unit :=
  match rounds with
  | O => ([], Timeout)
  | S rounds =>
      match btree_lookup f block_size btree fuel (bid + 1) depth with
      | Ok (done, bid', w, rbyd, rid, tags, path) =>
          if done then ([], Ok tt)
          else
            let '(l, r) :=
              traverse f block_size btree fuel rounds bid' depth in
            ((done, bid', w, rbyd, rid, tags, path) :: l, r)
      | Exn e => ([], Exn e)
      | Timeout => ([], Timeout)
      end
  end.

(** The flag [corrupted] after the loop: some result held a falsy
    node. *)
Definition corrupted (l : list resolved) : bool :=
  existsb (fun r => let '(_, _, _, rbyd, _, _, _) := r in
                    negb (Rbyd.bool rbyd)) l.

(** The range of bids a result stands for: [(bid - w, bid]] as
    [(bid, w)]. *)
Definition span (r : resolved) : Z * Z :=
  let '(_, bid, w, _, _, _, _) := r in (bid, w).

(** The ranges follow one another from [lo] to [hi], none empty. *)
Fixpoint tiled (lo : Z) (l : list (Z * Z)) (hi : Z) : Prop :=
  match l with
  | [] => lo = hi
  | (bid, w) :: l => 0 < w /\ bid - w = lo /\ tiled bid l hi
  end.

(* ===================================================================== *)
(** * Well-formed B-trees                                                 *)
(* ===================================================================== *)

Definition etag (e : Rbyd.entry) : Z := snd (key e).

(** An entry as [btree_lookup] keeps it: [(tag, j, d, data)]. *)
Definition tagent_of (e : Rbyd.entry) : tagent :=
  let '(_, tag, _, j, d, data) := e in (tag, j, d, data).

Definition ttag (t : tagent) : Z := let '(tag, _, _, _) := t in tag.

(** The entries at the head of [es] with id [rid_]. *)
Fixpoint run (rid_ : Z) (es : list Rbyd.entry) : list Rbyd.entry :=
  match es with
  | [] => []
  | e :: es => if eid e =? rid_ then e :: run rid_ es else []
  end.

(** The first entry of [es] with an id at or above [rid], and the
    entries after it with the same id. *)
Fixpoint seek (rid : Z) (es : list Rbyd.entry)
  : option (Rbyd.entry * list Rbyd.entry) :=
  match es with
  | [] => None
  | e :: es => if rid <=? eid e then Some (e, run (eid e) es)
               else seek rid es
  end.

(** "catch any branches": the last of the tags that is a branch. *)
Definition find_branch (tags : list tagent) (branch : option tagent)
  : option tagent :=
  fold_left (fun b t => if ttag t =? TAG_BTREE then Some t else b)
            tags branch.

(** [btree_ok f block_size h rbyd]: a B-tree of height at most [h] under
    [rbyd]. Every node has a well-formed alt tree whose tags are at least
    1; wherever the entries of an id hold a branch, the child it points
    to can be fetched, and is either falsy (a dangling branch) or has the
    weight of that id and is such a tree itself. *)
Fixpoint btree_ok (f : list byte) (block_size : Z) (h : nat)
  (rbyd : Rbyd.t) : Prop :=
  exists es,
    wf_node rbyd es
    /\ Forall (fun e => 1 <= etag e) es
    /\ forall rid e0 r t,
         0 <= rid ->
         seek rid es = Some (e0, r) ->
         find_branch (map tagent_of (e0 :: r)) None = Some t ->
         match h with
         | O => False
         | S h =>
             let '(_, _, _, data) := t in
             let '(_, trunk, block, _) := frombtree data in
             exists child,
               Rbyd.fetch_int f block_size block (Some trunk) = Ok child
               /\ (Rbyd.bool child = true ->
                   Rbyd.weight child = eweight e0
                   /\ btree_ok f block_size h child)
         end.

(** [looks_up self es n]: with fuel [n] or more, a search of [self] for
    a key with a tag below 0x1000 ends at the entry [pick] gives. *)
Definition looks_up (self : Rbyd.t) (es : list Rbyd.entry) (n : nat)
  : Prop :=
  forall fuel id tag, (n <= fuel)%nat -> 0 <= tag < 0x1000 ->
    exists e path,
      pick (id, tag) es = Some e
      /\ Rbyd.lookup fuel self id tag
         = Ok (answer (Rbyd.pair_ltb (key e) (id, tag)) e path).
(** How a result of [btree_lookup] that is not done ends: at the entries
    of a truthy node, or at a falsy node, the target of a dangling
    branch, with no entries and [rid = -1]. *)
Definition ends_well (r : resolved) : Prop :=
  let '(_, _, _, rbyd, rid, tags, _) := r in
  (Rbyd.bool rbyd = true /\ tags <> [])
  \/ (Rbyd.bool rbyd = false /\ rid = -1 /\ tags = []).

(** [resolves f block_size btree fuel bid r]: the lookup of [bid] gives
    [r], which is not done; the range [(bid' - w, bid']] of [r] lies in
    the tree and holds [bid], and the lookup of any bid of that range
    gives [r] too. *)
Definition resolves (f : list byte) (block_size : Z) (btree : Rbyd.t)
  (fuel : nat) (bid : Z) (r : resolved) : Prop :=
  let '(done, bid', w, _, _, _, _) := r in
  done = false
  /\ -1 <= bid' - w /\ bid' - w < bid <= bid'
  /\ bid' < Rbyd.weight btree
  /\ ends_well r
  /\ forall bid2, bid' - w < bid2 <= bid' ->
       btree_lookup f block_size btree fuel bid2 None = Ok r.
(** A file of three 64-byte blocks that holds a B-tree of weight 4.
    Block 0 is [block_demo]. Block 1 holds the root: the branch of ids
    0-1 at offset 4, which points to the tree at offset 27 of block 0,
    then at offset 15 a black less-or-equal alt to it and at offset 19
    the branch of ids 2-3, which points to offset 4 of block 2. Block 2
    is blank, so the second branch dangles. *)
Definition block_root : list byte :=
  bytes [1; 0; 0; 0;
         131; 3; 2; 7;   2; 27; 0; 0; 0; 0; 0;
         195; 3; 2; 11;  131; 3; 2; 7;   2; 4; 2; 0; 0; 0; 0;
         160; 0; 0; 4; 113; 57; 139; 135;
         255; 255; 255; 255; 255; 255; 255; 255;
         255; 255; 255; 255; 255; 255; 255; 255;
         255; 255; 255; 255; 255; 255; 255; 255;
         255; 255].

Definition block_blank : list byte := repeat (z2b 0) 64.

Definition file_tree : list byte := block_demo ++ block_root ++ block_blank.

Definition node_root : Rbyd.t := Rbyd.mk 1 block_root 1 38 15 4 [].

Definition entries_root : list Rbyd.entry :=
  [(1, 0x303, 2, 4, 4, bytes [2; 27; 0; 0; 0; 0; 0]);
   (3, 0x303, 2, 19, 4, bytes [2; 4; 2; 0; 0; 0; 0])].

(** The node of [block_demo] when the trunk 27 is asked for. *)
Definition node_demo_at27 : Rbyd.t := Rbyd.mk 0 block_demo 3 40 27 2 [].

(** What fetching the blank block gives: a falsy node. *)
Definition node_blank : Rbyd.t := Rbyd.mk 2 block_blank 0 0 0 0 [].

(** What fetching the mirrors 0 and 1 of [file_tree] gives when the
    trunk 20 is asked for: block 0 with the tree at offset 18, and block
    1 as its sibling. *)
Definition node_demo_at20 : Rbyd.t := Rbyd.mk 0 block_demo 3 27 18 2 [1].

(* ===================================================================== *)
(** * Facts about bytes                                                   *)
(* ===================================================================== *)

Lemma b2z_range (b : byte) : 0 <= b2z b < 256.
Proof.
  unfold b2z. pose proof (Byte.to_N_bounded b). lia.
Qed.

Lemma b2z_z2b (z : Z) : 0 <= z < 256 -> b2z (z2b z) = z.
Proof.
  intros Hz. unfold b2z, z2b. rewrite Z.mod_small by lia.
  destruct (Byte.of_N (Z.to_N z)) as [b|] eqn:E.
  - apply Byte.to_of_N in E. rewrite E. lia.
  - apply Byte.of_N_None_iff in E. lia.
Qed.

Lemma z2b_b2z (b : byte) : z2b (b2z b) = b.
Proof.
  unfold z2b, b2z. pose proof (Byte.to_N_bounded b).
  rewrite Z.mod_small by lia. rewrite N2Z.id, Byte.of_to_N. reflexivity.
Qed.

Lemma byte_cont_bit (b : byte) :
  (Z.land (b2z b) 0x80 =? 0) = (b2z b <? 0x80).
Proof. destruct b; reflexivity. Qed.

Lemma byte_low_bits (b : byte) : Z.land (b2z b) 0x7f = b2z b mod 0x80.
Proof. destruct b; reflexivity. Qed.

Lemma len_app (a b : list byte) : len (a ++ b) = len a + len b.
Proof. unfold len. rewrite length_app. lia. Qed.

Lemma len_nonneg (a : list byte) : 0 <= len a.
Proof. unfold len. lia. Qed.

(* ===================================================================== *)
(** * Varints                                                             *)
(* ===================================================================== *)

Lemma lor_disjoint (a b k : Z) :
  0 <= a < 2 ^ k -> 0 <= k -> 0 <= b ->
  Z.lor a (Z.shiftl b k) = a + b * 2 ^ k.
Proof.
  intros Ha Hk Hb.
  rewrite <- Z.shiftl_mul_pow2 by lia.
  assert (Hand : Z.land a (Z.shiftl b k) = 0).
  { apply Z.bits_inj'. intros n Hn.
    rewrite Z.land_spec, Z.bits_0.
    destruct (Z.ltb_spec n k).
    - rewrite Z.shiftl_spec_low by lia. apply andb_false_r.
    - destruct (Z.eq_dec a 0) as [->|Hne].
      + rewrite Z.bits_0. reflexivity.
      + rewrite (Z.bits_above_log2 a n); [reflexivity|lia|].
        assert (Z.log2 a < k) by (apply Z.log2_lt_pow2; lia). lia. }
  rewrite Z.add_nocarry_lxor by exact Hand.
  symmetry. apply Z.lxor_lor. exact Hand.
Qed.

Lemma land_u32 (x : Z) : 0 <= x < 2 ^ 32 -> Z.land x 0xffffffff = x.
Proof.
  intros Hx. change 0xffffffff with (Z.ones 32).
  rewrite Z.land_ones by lia. apply Z.mod_small. lia.
Qed.

Lemma leb_byte_last (v : Z) :
  0 <= v < 0x80 -> b2z (z2b v) = v /\ b2z (z2b v) mod 0x80 = v.
Proof.
  intros Hv. rewrite b2z_z2b by lia. split; [reflexivity|].
  apply Z.mod_small. lia.
Qed.

Lemma leb_byte_more (v : Z) :
  0 <= v ->
  b2z (z2b (Z.lor (Z.land v 0x7f) 0x80)) = v mod 0x80 + 0x80.
Proof.
  intros Hv. change 0x7f with (Z.ones 7). rewrite Z.land_ones by lia.
  pose proof (Z.mod_pos_bound v (2 ^ 7) ltac:(lia)) as Hm.
  change 0x80 with (Z.shiftl 1 7) at 1.
  rewrite lor_disjoint by lia. change (2 ^ 7) with 128 in *.
  rewrite b2z_z2b by lia. lia.
Qed.

Lemma fromleb128_loop_put (fuel : nat) :
  forall (v i word : Z) (rest : list byte),
    0 <= v -> Z.log2 v <= Z.of_nat fuel ->
    0 <= i -> 0 <= word < 2 ^ (7 * i) ->
    word + v * 2 ^ (7 * i) < 2 ^ 32 ->
    fromleb128_loop (toleb128_loop fuel v ++ rest) i word
    = (word + v * 2 ^ (7 * i), i + len (toleb128_loop fuel v)).
Proof.
  assert (Hlast : forall v i word rest,
    0 <= v < 0x80 -> 0 <= i -> 0 <= word < 2 ^ (7 * i) ->
    word + v * 2 ^ (7 * i) < 2 ^ 32 ->
    fromleb128_loop ([z2b v] ++ rest) i word
    = (word + v * 2 ^ (7 * i), i + len [z2b v])).
  { intros v i word rest Hv Hi Hw Hlt. cbn [app fromleb128_loop].
    rewrite byte_cont_bit, byte_low_bits.
    destruct (leb_byte_last v Hv) as [-> ->].
    assert (Hp : 0 < 2 ^ (7 * i)) by (apply Z.pow_pos_nonneg; lia).
    rewrite lor_disjoint by lia. rewrite land_u32 by nia.
    destruct (Z.ltb_spec v 0x80); [reflexivity|lia]. }
  induction fuel as [|fuel IH]; intros v i word rest Hv Hlog Hi Hw Hlt.
  - simpl toleb128_loop. apply Hlast; try lia.
    destruct (Z.eq_dec v 0) as [->|Hne]; [lia|].
    assert (v < 2 ^ 1) by (apply Z.log2_lt_pow2; lia). lia.
  - simpl toleb128_loop. destruct (Z.ltb_spec v 0x80) as [Hs|Hb].
    + apply Hlast; lia.
    + cbn [app fromleb128_loop].
      rewrite byte_cont_bit, byte_low_bits, leb_byte_more by lia.
      pose proof (Z.mod_pos_bound v 0x80 ltac:(lia)) as Hm.
      replace ((v mod 0x80 + 0x80) mod 0x80) with (v mod 0x80)
        by (rewrite Z.add_mod, Z.mod_same, Z.add_0_r, !Z.mod_mod by lia;
            reflexivity).
      assert (Hpow : 2 ^ (7 * (i + 1)) = 0x80 * 2 ^ (7 * i)).
      { replace (7 * (i + 1)) with (7 + 7 * i) by lia.
        rewrite Z.pow_add_r by lia. reflexivity. }
      assert (Hp : 0 < 2 ^ (7 * i)) by (apply Z.pow_pos_nonneg; lia).
      pose proof (Z.div_mod v 0x80 ltac:(lia)) as Hdm.
      assert (Hq : 0 <= v / 0x80) by (apply Z.div_pos; lia).
      rewrite lor_disjoint by lia.
      rewrite land_u32 by nia.
      destruct (Z.ltb_spec (v mod 0x80 + 0x80) 0x80); [lia|].
      rewrite Z.shiftr_div_pow2 by lia. change (2 ^ 7) with 0x80.
      assert (Hlog' : Z.log2 (v / 0x80) = Z.log2 v - 7).
      { change 0x80 with (2 ^ 7). rewrite <- Z.shiftr_div_pow2 by lia.
        rewrite Z.log2_shiftr by lia.
        assert (7 <= Z.log2 v) by (apply Z.log2_le_pow2; lia). lia. }
      rewrite IH by (try lia; nia).
      f_equal; [nia|]. unfold len. cbn [length]. lia.
Qed.

Lemma fromleb128_put (v : Z) (rest : list byte) :
  0 <= v < 2 ^ 32 ->
  fromleb128 (toleb128 v ++ rest) = (v, len (toleb128 v)).
Proof.
  intros Hv. unfold fromleb128, toleb128.
  pose proof (Z.log2_nonneg v) as Hl.
  rewrite fromleb128_loop_put by (simpl; lia).
  f_equal. simpl. lia.
Qed.

(** C9: decoding the LEB128 encoding of any [v] in [[0, 2^32)] gives [v]
    back together with the number of bytes of that encoding. *)
Theorem fromleb128_toleb128 (v : Z) :
  0 <= v < 2 ^ 32 ->
  fromleb128 (toleb128 v) = (v, len (toleb128 v)).
Proof.
  intros Hv. rewrite <- (app_nil_r (toleb128 v)) at 1.
  apply fromleb128_put. exact Hv.
Qed.

Lemma fromleb128_toleb128_witness :
  fromleb128 (toleb128 300) = (300, len (toleb128 300)).
Proof. apply fromleb128_toleb128. lia. Defined.

(* ===================================================================== *)
(** * The node searcher                                                   *)
(* ===================================================================== *)

(** C10: on a falsy node (trunk 0) [lookup] answers at once, whatever is
    asked: done, weight 0, no payload, no decision path; so iterating such
    a node yields nothing. *)
Theorem lookup_falsy (self : Rbyd.t) (fuel n : nat) (id tag : Z) :
  Rbyd.trunk self = 0 ->
  Rbyd.lookup fuel self id tag = Ok (true, 0, -1, 0, 0, 0, [], [])
  /\ Rbyd.iter fuel (S n) self = ([], Ok tt).
Proof.
  intros Ht. unfold Rbyd.iter, Rbyd.iter_loop, Rbyd.lookup, Rbyd.bool.
  rewrite Ht. split; reflexivity.
Qed.

Lemma lookup_falsy_witness :
  let self := Rbyd.mk 3 [] 0 0 0 0 [] in
  Rbyd.lookup 0 self 5 1 = Ok (true, 0, -1, 0, 0, 0, [], [])
  /\ Rbyd.iter 0 1 self = ([], Ok tt).
Proof. exact (lookup_falsy (Rbyd.mk 3 [] 0 0 0 0 []) 0 0 5 1 eq_refl). Defined.

Lemma lookup_loop_reaches (self : Rbyd.t) (id tag lower upper j : Z)
  (path : list Rbyd.edge) :
  reaches self id tag lower upper j path ->
  exists n, forall m,
    Rbyd.lookup_loop (n + m) self id tag (-1) (Rbyd.weight self)
      (Rbyd.trunk self) []
    = Rbyd.lookup_loop m self id tag lower upper j path.
Proof.
  induction 1 as [|lower upper j path v alt weight_ jump d c _ [n IH] Ht Ha Hf Hc
                  |lower upper j path v alt weight_ jump d c _ [n IH] Ht Ha Hf Hc].
  - exists 0%nat. reflexivity.
  - exists (n + 1)%nat. intros m.
    replace (n + 1 + m)%nat with (n + S m)%nat by lia. rewrite IH.
    cbn [Rbyd.lookup_loop]. rewrite Ht. cbn [bind].
    apply Z.eqb_neq in Ha. rewrite Ha. cbn [negb]. rewrite Hf, Hc.
    reflexivity.
  - exists (n + 1)%nat. intros m.
    replace (n + 1 + m)%nat with (n + S m)%nat by lia. rewrite IH.
    cbn [Rbyd.lookup_loop]. rewrite Ht. cbn [bind].
    apply Z.eqb_neq in Ha. rewrite Ha. cbn [negb]. rewrite Hf, Hc.
    reflexivity.
Qed.

(** C7: when the search of [lookup(id, tag)] arrives at a terminal tag
    with candidate range [[lower, upper)], it returns id [upper - 1],
    weight [upper - 1 - lower] and the terminal's tag, and it reports done
    exactly when (id, tag) found is below the one asked for or the tag has
    the removed bit 0x1000. *)
Theorem lookup_terminal (self : Rbyd.t) (id tag lower upper j : Z)
  (path : list Rbyd.edge) (v alt weight_ jump d : Z) :
  Rbyd.bool self = true ->
  reaches self id tag lower upper j path ->
  fromtag (slice_from (Rbyd.data self) j) = Ok (v, alt, weight_, jump, d) ->
  Z.land alt 0x4000 = 0 ->
  exists n, forall fuel, (n <= fuel)%nat ->
    Rbyd.lookup fuel self id tag
    = Ok (Rbyd.pair_ltb (upper - 1, alt) (id, tag)
          || negb (Z.land alt 0x1000 =? 0),
          upper - 1, alt, upper - 1 - lower, j, d,
          slice (Rbyd.data self) (j + d) (j + d + jump), path).
Proof.
  intros Hb Hr Ht Ha.
  destruct (lookup_loop_reaches _ _ _ _ _ _ _ Hr) as [n Hn].
  exists (n + 1)%nat. intros fuel Hfuel.
  unfold Rbyd.lookup. rewrite Hb. cbn [negb].
  replace fuel with (n + S (fuel - n - 1))%nat by lia.
  rewrite Hn. cbn [Rbyd.lookup_loop]. rewrite Ht. cbn [bind].
  rewrite Ha. reflexivity.
Qed.

(* ===================================================================== *)
(** * Bounds on what the codec returns                                    *)
(* ===================================================================== *)

Lemma land_u32_range (x : Z) : 0 <= Z.land x 0xffffffff < 2 ^ 32.
Proof.
  change 0xffffffff with (Z.ones 32). rewrite Z.land_ones by lia.
  apply Z.mod_pos_bound. lia.
Qed.

Lemma fromleb128_loop_bounds (data : list byte) :
  forall i word, 0 <= word < 2 ^ 32 ->
    0 <= fst (fromleb128_loop data i word) < 2 ^ 32
    /\ i <= snd (fromleb128_loop data i word) <= i + len data.
Proof.
  induction data as [|b data IH]; intros i word Hw; cbn [fromleb128_loop].
  - cbn [fst snd]. unfold len. cbn [length]. lia.
  - set (word' := Z.land _ 0xffffffff).
    pose proof (land_u32_range
      (Z.lor word (Z.shiftl (Z.land (b2z b) 0x7f) (7 * i)))) as Hw'.
    fold word' in Hw'.
    assert (Hl : len (b :: data) = 1 + len data)
      by (unfold len; cbn [length]; lia).
    destruct (Z.land (b2z b) 0x80 =? 0).
    + cbn [fst snd]. pose proof (len_nonneg data). lia.
    + specialize (IH (i + 1) word' Hw'). lia.
Qed.

Lemma fromleb128_bounds (data : list byte) (w d : Z) :
  fromleb128 data = (w, d) -> 0 <= w < 2 ^ 32 /\ 0 <= d <= len data.
Proof.
  unfold fromleb128. intros E.
  pose proof (fromleb128_loop_bounds data 0 0 ltac:(lia)) as H.
  rewrite E in H. cbn [fst snd] in H. lia.
Qed.

Lemma index_ok (data : list byte) (i : nat) (z : Z) :
  index data i = Ok z -> 0 <= z < 256 /\ (i < length data)%nat.
Proof.
  unfold index. destruct (nth_error data i) as [b|] eqn:E; [|discriminate].
  intros [= <-]. split; [apply b2z_range|].
  apply nth_error_Some. congruence.
Qed.

Lemma len_slice_from (data : list byte) (a : Z) :
  0 <= a <= len data -> len (slice_from data a) = len data - a.
Proof.
  intros Ha. unfold slice_from, clamp, len in *.
  destruct (Z.ltb_spec a 0); [lia|].
  rewrite length_skipn. lia.
Qed.

Lemma fromtag_bounds (data : list byte) (v tag w size d : Z) :
  fromtag data = Ok (v, tag, w, size, d) ->
  2 <= d <= len data /\ 0 <= w < 2 ^ 32 /\ 0 <= size < 2 ^ 32.
Proof.
  unfold fromtag.
  destruct (index data 0) as [b0| |] eqn:E0; cbn [bind]; try discriminate.
  destruct (index data 1) as [b1| |] eqn:E1; cbn [bind]; try discriminate.
  destruct (fromleb128 (slice_from data 2)) as [w' d1] eqn:Ew.
  destruct (fromleb128 (slice_from data (2 + d1))) as [size' d2] eqn:Es.
  intros E.
  assert (Hw : w = w') by congruence.
  assert (Hs : size = size') by congruence.
  assert (Hd : d = 2 + d1 + d2) by congruence.
  subst w size d. clear E.
  apply index_ok in E1. destruct E1 as [_ Hlen].
  apply fromleb128_bounds in Ew. apply fromleb128_bounds in Es.
  assert (H2 : 2 <= len data) by (unfold len; lia).
  rewrite len_slice_from in Ew by lia.
  rewrite len_slice_from in Es by lia. lia.
Qed.

(* ===================================================================== *)
(** * The node fetcher: termination                                       *)
(* ===================================================================== *)

Lemma bind_total {A B : Type} (m : result A) (k : A -> result B) :
  m <> Timeout -> (forall a, k a <> Timeout) -> bind m k <> Timeout.
Proof. destruct m; cbn [bind]; auto; discriminate. Qed.

Lemma scan_crcs_j_ (data : list byte) (tag size : Z) (s s' : scan) :
  Rbyd.scan_crcs data tag size s = Some s' -> s_j_ s' = s_j_ s.
Proof.
  unfold Rbyd.scan_crcs.
  destruct (Z.land tag 0x4000 =? 0); [|intros [= <-]; reflexivity].
  destruct (negb (Z.land tag 0x7f00 =? TAG_CRC));
    [intros [= <-]; reflexivity|].
  destruct (negb (s_crc_ s =? _)); [discriminate|].
  intros [= <-]. reflexivity.
Qed.

Lemma scan_trunks_j_ (trunk : option Z) (tag w size d : Z) (s : scan) :
  s_j_ (Rbyd.scan_trunks trunk tag w size d s) = s_j_ s.
Proof.
  unfold Rbyd.scan_trunks.
  destruct (_ && _); [|reflexivity].
  destruct (negb (s_wastrunk s));
    destruct (negb (Z.land tag 0x4000 =? 0));
    destruct (negb (Z.land tag 0x2000 =? 0)); reflexivity.
Qed.

Lemma scan_step_advances (data : list byte) (trunk : option Z)
  (s s' : scan) :
  Rbyd.scan_step data trunk s = Ok (Continue s') ->
  s_j_ s + 2 <= s_j_ s'.
Proof.
  unfold Rbyd.scan_step.
  destruct (fromtag (slice_from data (s_j_ s)))
    as [[[[[v tag] w] size] d]| |] eqn:Et; cbn [bind]; try discriminate.
  apply fromtag_bounds in Et.
  destruct (negb (v =? _)); [discriminate|].
  destruct (_ && _); [discriminate|].
  destruct (Rbyd.scan_crcs data tag size _) as [s1|] eqn:Ec; [|discriminate].
  apply scan_crcs_j_ in Ec. cbn [Rbyd.fold_header s_j_] in Ec.
  intros [= <-].
  pose proof (scan_trunks_j_ trunk tag w size d s1) as Hj.
  destruct (Z.land tag 0x4000 =? 0); cbn [Rbyd.advance s_j_]; lia.
Qed.

Lemma fromtag_total (data : list byte) : fromtag data <> Timeout.
Proof.
  unfold fromtag, index.
  destruct (nth_error data 0); cbn [bind]; [|discriminate].
  destruct (nth_error data 1); cbn [bind]; [|discriminate].
  destruct (fromleb128 (slice_from data 2)) as [w d].
  destruct (fromleb128 (slice_from data (2 + d))). discriminate.
Qed.

Lemma scan_step_total (data : list byte) (trunk : option Z) (s : scan) :
  Rbyd.scan_step data trunk s <> Timeout.
Proof.
  unfold Rbyd.scan_step. apply bind_total; [apply fromtag_total|].
  intros [[[[v tag] w] size] d].
  destruct (negb (v =? _)); [discriminate|].
  destruct (_ && _); [discriminate|].
  destruct (Rbyd.scan_crcs data tag size _); discriminate.
Qed.

Lemma scan_loop_total (fuel : nat) :
  forall (data : list byte) (trunk : option Z) (s : scan),
    len data - s_j_ s <= Z.of_nat fuel ->
    Rbyd.scan_loop fuel data trunk s <> Timeout.
Proof.
  induction fuel as [|fuel IH]; intros data trunk s Hf.
  - cbn [Rbyd.scan_loop]. unfold Rbyd.scan_cond.
    destruct (Z.ltb_spec (s_j_ s) (len data)); [lia|]. discriminate.
  - cbn [Rbyd.scan_loop]. destruct (Rbyd.scan_cond data trunk s);
      [|discriminate].
    destruct (Rbyd.scan_step data trunk s) as [[s'|s']| |] eqn:Es;
      cbn [bind]; try discriminate.
    + apply scan_step_advances in Es. apply IH. lia.
    + exfalso. exact (scan_step_total _ _ _ Es).
Qed.

Lemma fetch_int_total (f : list byte) (block_size block : Z)
  (trunk : option Z) :
  Rbyd.fetch_int f block_size block trunk <> Timeout.
Proof.
  unfold Rbyd.fetch_int. apply bind_total.
  - unfold Rbyd.read. repeat (destruct (_ : Datatypes.bool); try discriminate).
  - intros data. apply bind_total; [|discriminate].
    apply scan_loop_total. cbn [Rbyd.scan_init s_j_]. unfold len. lia.
Qed.

Lemma select_total (rbyds : list Rbyd.t) : Rbyd.select rbyds <> Timeout.
Proof.
  unfold Rbyd.select. destruct (nth_error rbyds _); discriminate.
Qed.

Lemma fetch_all_total {A : Type} (fetch1 : A -> result Rbyd.t)
  (blocks : list A) :
  (forall a, fetch1 a <> Timeout) ->
  Rbyd.fetch_all fetch1 blocks <> Timeout.
Proof.
  intros H1. induction blocks as [|b blocks IH]; cbn [Rbyd.fetch_all].
  - discriminate.
  - apply bind_total; [apply H1|]. intros r.
    apply bind_total; [exact IH|]. discriminate.
Qed.

Lemma fetch_elem_total (f : list byte) (block_size : Z) (trunk : option Z)
  (block : addr) :
  Rbyd.fetch_elem f block_size trunk block <> Timeout.
Proof.
  destruct block as [b|b b']; cbn [Rbyd.fetch_elem].
  - apply fetch_int_total.
  - unfold Rbyd.fetch_pair. apply bind_total.
    + apply fetch_all_total. intros a. apply fetch_int_total.
    + apply select_total.
Qed.

(** [fetch] always comes to an end: its scan moves forward by at least
    the two bytes of a tag at every round. *)
Lemma fetch_total (f : list byte) (block_size : Z) (blocks : list addr)
  (trunk : option Z) :
  Rbyd.fetch f block_size blocks trunk <> Timeout.
Proof.
  assert (Hall : forall l,
    (rbyds <- Rbyd.fetch_all (Rbyd.fetch_elem f block_size trunk) l ;;
     Rbyd.select rbyds) <> Timeout).
  { intros l. apply bind_total.
    - apply fetch_all_total. apply fetch_elem_total.
    - apply select_total. }
  unfold Rbyd.fetch.
  destruct blocks as [|[b|b t] [|b2 blocks]];
    try discriminate; try apply fetch_int_total; apply Hall.
Qed.

(* ===================================================================== *)
(** * The node fetcher: a header cut by the end of the block              *)
(* ===================================================================== *)

(** C2: [fetch] is not free of exceptions. On the 16-byte block [torn16]
    the scan accepts the alt at offset 4 (its valid bit 0 is the parity of
    the CRC of the revision), moves to offset 15, and [fromtag] then reads
    [data[1]] of a one-byte slice: IndexError. *)
Theorem fetch_torn16_raises :
  len torn16 = 16
  /\ Rbyd.fetch torn16 16 [Int 0] None = Exn IndexError.
Proof. split; vm_compute; reflexivity. Qed.

(** C8: a block without any commit on which [fetch] gives no node: in
    [torn512] the first round of the scan leaves offset, trunk and weight
    at 0 and the second round raises IndexError, and so does [fetch]. *)
Theorem fetch_torn512_raises :
  len torn512 = 512
  /\ (exists s,
        Rbyd.scan_step torn512 None (Rbyd.scan_init torn512)
        = Ok (Continue s)
        /\ s_j_ s = 511 /\ s_off s = 0 /\ s_trunk_ s = 0 /\ s_weight s = 0
        /\ Rbyd.scan_step torn512 None s = Exn IndexError)
  /\ Rbyd.fetch_int torn512 512 0 None = Exn IndexError.
Proof.
  split; [vm_compute; reflexivity|]. split.
  - eexists. split; [vm_compute; reflexivity|].
    repeat split; vm_compute; reflexivity.
  - vm_compute. reflexivity.
Qed.

(* ===================================================================== *)
(** * The node fetcher: nothing committed                                 *)
(* ===================================================================== *)

Lemma scan_trunks_committed (trunk : option Z) (tag w size d : Z)
  (s : scan) :
  let s' := Rbyd.scan_trunks trunk tag w size d s in
  s_off s' = s_off s /\ s_trunk_ s' = s_trunk_ s /\ s_weight s' = s_weight s.
Proof.
  unfold Rbyd.scan_trunks.
  destruct (_ && _); [|auto].
  destruct (negb (s_wastrunk s));
    destruct (negb (Z.land tag 0x4000 =? 0));
    destruct (negb (Z.land tag 0x2000 =? 0)); cbn; auto.
Qed.

Lemma scan_step_uncommitted (data : list byte) (trunk : option Z)
  (s : scan) (c : ctl) :
  uncommitted s ->
  Rbyd.scan_step data trunk s = Ok c ->
  uncommitted (ctl_scan c).
Proof.
  intros [Hj Hoff]. unfold Rbyd.scan_step.
  destruct (fromtag (slice_from data (s_j_ s)))
    as [[[[[v tag] w] size] d]| |] eqn:Et; cbn [bind]; try discriminate.
  apply fromtag_bounds in Et. destruct Et as (Hd & Hw & Hsize).
  destruct (negb (v =? _)).
  { intros [= <-]. split; assumption. }
  destruct (_ && _).
  { intros [= <-]. split; cbn; [lia|assumption]. }
  destruct (Rbyd.scan_crcs data tag size _) as [s1|] eqn:Ec.
  2:{ intros [= <-]. split; cbn; [lia|assumption]. }
  intros [= <-]. cbn [ctl_scan].
  pose proof (scan_crcs_j_ _ _ _ _ _ Ec) as Hj1.
  cbn [Rbyd.fold_header s_j_] in Hj1.
  pose proof (scan_trunks_j_ trunk tag w size d s1) as Hj2.
  destruct (scan_trunks_committed trunk tag w size d s1) as (Ho & Ht & Hw').
  assert (H1 : s_off s1 = 0 -> s_trunk_ s1 = 0 /\ s_weight s1 = 0).
  { revert Ec. unfold Rbyd.scan_crcs. cbn [Rbyd.fold_header s_j_ s_crc_
      s_crc s_off s_trunk_ s_trunk__ s_weight s_lower_ s_upper_ s_weight_
      s_wastrunk s_trunkoff].
    destruct (Z.land tag 0x4000 =? 0); [|intros [= <-]; exact Hoff].
    destruct (negb (Z.land tag 0x7f00 =? TAG_CRC));
      [intros [= <-]; exact Hoff|].
    destruct (negb (_ =? _)); [discriminate|].
    intros [= <-]. cbn [s_off]. intros H0. exfalso.
    destruct (s_trunkoff s) as [o|]; cbn [truthy value] in H0.
    - destruct (Z.eqb_spec o 0); cbn [negb] in H0; lia.
    - lia. }
  destruct (Z.land tag 0x4000 =? 0); split; cbn [Rbyd.advance s_j_ s_off
    s_trunk_ s_weight]; try lia; rewrite ?Ho, ?Ht, ?Hw'; intros H0;
    rewrite ?Ho in H0; auto.
Qed.

Lemma scan_loop_uncommitted (fuel : nat) :
  forall (data : list byte) (trunk : option Z) (s s' : scan),
    uncommitted s ->
    Rbyd.scan_loop fuel data trunk s = Ok s' ->
    uncommitted s'.
Proof.
  induction fuel as [|fuel IH]; intros data trunk s s' Hs;
    cbn [Rbyd.scan_loop]; destruct (Rbyd.scan_cond data trunk s);
    try discriminate; try (intros [= <-]; exact Hs).
  destruct (Rbyd.scan_step data trunk s) as [c| |] eqn:Es; cbn [bind];
    try discriminate.
  pose proof (scan_step_uncommitted _ _ _ _ Hs Es) as Hc.
  destruct c as [s1|s1]; cbn [ctl_scan] in Hc.
  - apply IH. exact Hc.
  - intros [= <-]. exact Hc.
Qed.

(** When [fetch] of a block returns and no commit was found (the committed
    offset is still 0), the node has trunk 0 and weight 0 and is falsy. *)
Lemma fetch_int_uncommitted (f : list byte) (block_size block : Z)
  (trunk : option Z) (r : Rbyd.t) :
  Rbyd.fetch_int f block_size block trunk = Ok r ->
  Rbyd.off r = 0 ->
  Rbyd.trunk r = 0 /\ Rbyd.weight r = 0 /\ Rbyd.bool r = false.
Proof.
  unfold Rbyd.fetch_int.
  destruct (Rbyd.read f block_size block) as [data| |]; cbn [bind];
    try discriminate.
  destruct (Rbyd.scan_loop _ data trunk _) as [s| |] eqn:Es; cbn [bind];
    try discriminate.
  intros [= <-]. cbn [Rbyd.off Rbyd.trunk Rbyd.weight]. intros H0.
  apply scan_loop_uncommitted in Es.
  - destruct Es as [_ H]. destruct (H H0) as [Ht Hw].
    unfold Rbyd.bool. cbn [Rbyd.trunk]. rewrite Ht. auto.
  - split; cbn; [lia|auto].
Qed.

(* ===================================================================== *)
(** * The node fetcher: mirrored blocks                                   *)
(* ===================================================================== *)

Lemma mirror_eq_built :
  mirror_eq = fill 32 (put_block 7 [name_a; alt_a; struct_x])
              ++ fill 32 (put_block 7 [name_a]).
Proof. vm_compute. reflexivity. Qed.

Lemma mirror_wrap_built :
  mirror_wrap = fill 32 (put_block 0xffffffff [name_a])
                ++ fill 32 (put_block 0 [name_a; alt_a; struct_x]).
Proof. vm_compute. reflexivity. Qed.

Lemma mirror_torn_built :
  mirror_torn
  = fill 32 (put_block 1 [name_a])
    ++ (let '(bs, crc) :=
          put_attrs (crc32c (tole32 2) 0) [name_a; alt_a; struct_x] in
        fill 32 (tole32 2 ++ bs ++ put_crc crc 0, 1)).
Proof. vm_compute. reflexivity. Qed.

Lemma fromle32_range (data : list byte) : 0 <= fromle32 data < 2 ^ 32.
Proof.
  unfold fromle32.
  change (2 ^ 32) with 4294967296.
  destruct (slice data 0 4) as [|b0 [|b1 [|b2 [|b3 l]]]];
    try pose proof (b2z_range b0); try pose proof (b2z_range b1);
    try pose proof (b2z_range b2); try pose proof (b2z_range b3); lia.
Qed.

Lemma fetch_int_fields (f : list byte) (block_size block : Z)
  (trunk : option Z) (r : Rbyd.t) :
  Rbyd.fetch_int f block_size block trunk = Ok r ->
  Rbyd.block r = block /\ 0 <= Rbyd.rev r < 2 ^ 32
  /\ Rbyd.other_blocks r = [].
Proof.
  unfold Rbyd.fetch_int.
  destruct (Rbyd.read f block_size block) as [data| |]; cbn [bind];
    try discriminate.
  destruct (Rbyd.scan_loop _ data trunk _) as [s| |]; cbn [bind];
    try discriminate.
  intros [= <-]. cbn. repeat split; try apply fromle32_range.
Qed.

(** The choice between two fetched mirrors [a] (listed first) and [b]. *)
Lemma select_pair (a b : Rbyd.t) :
  Rbyd.select [a; b]
  = Ok (if Rbyd.bool b
           && ((Z.land (Rbyd.rev b - Rbyd.rev a) 0x80000000 =? 0)
               || ((Rbyd.rev b =? Rbyd.rev a)
                   && (Rbyd.trunk b >? Rbyd.trunk a)))
        then with_others b [Rbyd.block a]
        else with_others a [Rbyd.block b]).
Proof.
  unfold Rbyd.select. cbn [Rbyd.most_recent nth].
  destruct (Rbyd.bool a && _); destruct (Rbyd.bool b && _); reflexivity.
Qed.

Lemma fetch_pair_ints (f : list byte) (block_size a b : Z)
  (trunk : option Z) (ra rb : Rbyd.t) :
  Rbyd.fetch_int f block_size a trunk = Ok ra ->
  Rbyd.fetch_int f block_size b trunk = Ok rb ->
  Rbyd.fetch f block_size [Int a; Int b] trunk = Rbyd.select [ra; rb].
Proof.
  intros Ha Hb. cbn [Rbyd.fetch Rbyd.fetch_all Rbyd.fetch_elem].
  rewrite Ha. cbn [bind]. rewrite Hb. reflexivity.
Qed.

(** With equal revisions the sequence comparison already holds, so the
    mirror listed last wins whenever it is non-empty; the trunks are never
    compared. *)
Lemma select_equal_rev (a b : Rbyd.t) :
  Rbyd.rev a = Rbyd.rev b -> Rbyd.bool b = true ->
  Rbyd.select [a; b] = Ok (with_others b [Rbyd.block a]).
Proof.
  intros Hr Hb. rewrite select_pair, Hb, Hr, Z.sub_diag. reflexivity.
Qed.

(** C5: with equal revisions [fetch] does not pick the larger trunk. The
    two blocks of [mirror_eq] have revision 7 and trunks 9 and 4; listed
    as [0, 1] the fetch returns block 1 with trunk 4, listed as [1, 0] it
    returns block 0 with trunk 9. *)
Theorem fetch_mirror_eq_takes_last :
  summary (Rbyd.fetch mirror_eq 32 [Int 0] None) = Some (0, 7, 26, 9, 1, [])
  /\ summary (Rbyd.fetch mirror_eq 32 [Int 1] None)
     = Some (1, 7, 17, 4, 1, [])
  /\ summary (Rbyd.fetch mirror_eq 32 [Int 0; Int 1] None)
     = Some (1, 7, 17, 4, 1, [0])
  /\ summary (Rbyd.fetch mirror_eq 32 [Int 1; Int 0] None)
     = Some (0, 7, 26, 9, 1, [1]).
Proof. repeat split; vm_compute; reflexivity. Qed.

(** C6 as stated fails when the copy with the later revision holds no
    commit: in [mirror_torn] block 0 has revision 1, block 1 has revision
    2 and is empty, and the fetch of [0, 1] returns block 0. *)
Lemma fetch_mirror_torn_keeps_older :
  summary (Rbyd.fetch mirror_torn 32 [Int 0] None)
  = Some (0, 1, 17, 4, 1, [])
  /\ summary (Rbyd.fetch mirror_torn 32 [Int 1] None)
     = Some (1, 2, 0, 0, 0, [])
  /\ summary (Rbyd.fetch mirror_torn 32 [Int 0; Int 1] None)
     = Some (0, 1, 17, 4, 1, [1]).
Proof. repeat split; vm_compute; reflexivity. Qed.

Lemma seq_next (r : Z) :
  0 <= r < 2 ^ 32 ->
  Z.land ((r + 1) mod 2 ^ 32 - r) 0x80000000 = 0
  /\ Z.land (r - (r + 1) mod 2 ^ 32) 0x80000000 <> 0
  /\ r <> (r + 1) mod 2 ^ 32.
Proof.
  intros Hr. destruct (Z.eq_dec r (2 ^ 32 - 1)) as [->|Hne].
  - vm_compute. repeat split; discriminate.
  - rewrite Z.mod_small by lia.
    replace (r + 1 - r) with 1 by lia. replace (r - (r + 1)) with (-1) by lia.
    split; [reflexivity|]. split; [vm_compute; discriminate|lia].
Qed.

(** C6, amended: let the two mirrored blocks [a] and [b] both fetch
    without an exception, as nodes with revisions [r] and
    [(r + 1) mod 2^32], for any 32-bit [r]. Listed first, the copy with
    revision [(r + 1) mod 2^32] is returned in every case: the other copy,
    empty or not, is never selected over it. Listed second, it is
    returned when it is a non-empty node, and otherwise the first listed
    block is returned: an empty copy is never selected over the first
    listed block. The block not returned is recorded as the sibling. *)
Theorem fetch_mirror_next_rev (f : list byte) (block_size a b : Z)
  (trunk : option Z) (ra rb : Rbyd.t) :
  Rbyd.fetch_int f block_size a trunk = Ok ra ->
  Rbyd.fetch_int f block_size b trunk = Ok rb ->
  Rbyd.rev rb = (Rbyd.rev ra + 1) mod 2 ^ 32 ->
  Rbyd.fetch f block_size [Int b; Int a] trunk = Ok (with_others rb [a])
  /\ (Rbyd.bool rb = true ->
      Rbyd.fetch f block_size [Int a; Int b] trunk
      = Ok (with_others rb [a]))
  /\ (Rbyd.bool rb = false ->
      Rbyd.fetch f block_size [Int a; Int b] trunk
      = Ok (with_others ra [b])).
Proof.
  intros Ha Hb Hrev.
  destruct (fetch_int_fields _ _ _ _ _ Ha) as (Hba & Hra & _).
  destruct (fetch_int_fields _ _ _ _ _ Hb) as (Hbb & _ & _).
  destruct (seq_next _ Hra) as (Hfwd & Hback & Hne).
  rewrite (fetch_pair_ints _ _ _ _ _ _ _ Ha Hb).
  rewrite (fetch_pair_ints _ _ _ _ _ _ _ Hb Ha).
  rewrite !select_pair, Hrev, Hfwd, Hba, Hbb.
  apply Z.eqb_neq in Hback. rewrite Hback.
  apply Z.eqb_neq in Hne. rewrite Hne.
  cbn [orb andb]. rewrite andb_false_r.
  split; [reflexivity|]. split; intros ->; reflexivity.
Qed.

Lemma fetch_mirror_next_rev_witness :
  Rbyd.fetch_int mirror_wrap 32 0 None = Ok node_bmax
  /\ Rbyd.fetch_int mirror_wrap 32 1 None = Ok node_a0
  /\ Rbyd.fetch mirror_wrap 32 [Int 1; Int 0] None
     = Ok (with_others node_a0 [0])
  /\ (Rbyd.bool node_a0 = true ->
      Rbyd.fetch mirror_wrap 32 [Int 0; Int 1] None
      = Ok (with_others node_a0 [0]))
  /\ (Rbyd.bool node_a0 = false ->
      Rbyd.fetch mirror_wrap 32 [Int 0; Int 1] None
      = Ok (with_others node_bmax [1])).
Proof.
  split; [vm_compute; reflexivity|].
  split; [vm_compute; reflexivity|].
  apply (fetch_mirror_next_rev mirror_wrap 32 0 1 None node_bmax node_a0);
    vm_compute; reflexivity.
Defined.

(* ===================================================================== *)
(** * The nodes of the examples                                           *)
(* ===================================================================== *)

Lemma fetch_block_a7 :
  Rbyd.fetch mirror_eq 32 [Int 0] None = Ok node_a7.
Proof. vm_compute. reflexivity. Qed.

Lemma lookup_terminal_witness :
  exists n, forall fuel, (n <= fuel)%nat ->
    Rbyd.lookup fuel node_a7 0 0x300
    = Ok (false, 0, 0x300, 0, 13, 4, bytes [120], [(9, 13, false, B)]).
Proof.
  apply (lookup_terminal node_a7 0 0x300 0 1 13 [(9, 13, false, B)]
           0 0x300 0 1 4).
  - reflexivity.
  - apply (reaches_stay node_a7 0 0x300 (-1) 1 9 [] 1 0x4101 1 5 4 B).
    + apply reaches_trunk.
    + vm_compute. reflexivity.
    + discriminate.
    + reflexivity.
    + reflexivity.
  - vm_compute. reflexivity.
  - reflexivity.
Defined.

(* ===================================================================== *)
(** * Slices of a buffer made of parts                                    *)
(* ===================================================================== *)

Lemma clamp_in (n i : Z) : 0 <= i <= n -> clamp n i = i.
Proof.
  intros Hi. unfold clamp. destruct (Z.ltb_spec i 0); lia.
Qed.

Lemma slice_from_app (pre rest : list byte) :
  slice_from (pre ++ rest) (len pre) = rest.
Proof.
  unfold slice_from. rewrite clamp_in.
  - unfold len. rewrite Nat2Z.id. rewrite skipn_app, skipn_all.
    rewrite Nat.sub_diag. reflexivity.
  - rewrite len_app. pose proof (len_nonneg pre). pose proof (len_nonneg rest).
    lia.
Qed.

Lemma slice_app (pre mid post : list byte) :
  slice (pre ++ mid ++ post) (len pre) (len pre + len mid) = mid.
Proof.
  pose proof (len_nonneg pre). pose proof (len_nonneg mid).
  pose proof (len_nonneg post).
  unfold slice. rewrite !clamp_in by (rewrite !len_app; lia).
  replace (len pre + len mid - len pre) with (len mid) by lia.
  unfold len. rewrite !Nat2Z.id. rewrite skipn_app, skipn_all.
  rewrite Nat.sub_diag. cbn [skipn app].
  rewrite firstn_app, firstn_all, Nat.sub_diag. cbn [firstn].
  apply app_nil_r.
Qed.

Lemma slice_from_cons2 (a b : byte) (x y : list byte) :
  slice_from (a :: b :: x ++ y) (2 + len x) = y.
Proof.
  change (a :: b :: x ++ y) with (([a; b] ++ x) ++ y).
  replace (2 + len x) with (len ([a; b] ++ x))
    by (rewrite len_app; reflexivity).
  apply slice_from_app.
Qed.

Lemma slice_from_2 (a b : byte) (y : list byte) :
  slice_from (a :: b :: y) 2 = y.
Proof. exact (slice_from_cons2 a b [] y). Qed.

Lemma slice_from_0 (data : list byte) : slice_from data 0 = data.
Proof.
  unfold slice_from. rewrite clamp_in by (pose proof (len_nonneg data); lia).
  reflexivity.
Qed.

(* ===================================================================== *)
(** * Tag headers                                                         *)
(* ===================================================================== *)

Lemma tag_word (v tag : Z) :
  0 <= v <= 1 -> 0 <= tag < 2 ^ 15 ->
  Z.lor (Z.shiftl v 15) tag = tag + v * 2 ^ 15.
Proof.
  intros Hv Ht. rewrite Z.lor_comm. apply lor_disjoint; lia.
Qed.

Lemma fromtag_totag (v tag w size : Z) (rest : list byte) :
  0 <= v <= 1 -> 0 <= tag < 2 ^ 15 ->
  0 <= w < 2 ^ 32 -> 0 <= size < 2 ^ 32 ->
  fromtag (totag v tag w size ++ rest)
  = Ok (v, tag, w, size, len (totag v tag w size)).
Proof.
  intros Hv Ht Hw Hs. unfold totag, fromtag.
  rewrite tag_word by assumption.
  set (word := tag + v * 2 ^ 15).
  assert (Hword : 0 <= word < 2 ^ 16) by (unfold word; lia).
  cbn [app index nth_error bind].
  assert (Hhi : b2z (z2b (Z.shiftr word 8)) = word / 2 ^ 8).
  { rewrite Z.shiftr_div_pow2 by lia. apply b2z_z2b.
    split; [apply Z.div_pos; lia|].
    apply Z.div_lt_upper_bound; lia. }
  assert (Hlo : b2z (z2b word) = word mod 2 ^ 8).
  { unfold b2z, z2b. change 256 with (2 ^ 8).
    pose proof (Z.mod_pos_bound word (2 ^ 8) ltac:(lia)) as Hm.
    destruct (Byte.of_N (Z.to_N (word mod 2 ^ 8))) as [b|] eqn:E.
    - apply Byte.to_of_N in E. rewrite E. lia.
    - apply Byte.of_N_None_iff in E. lia. }
  rewrite Hhi, Hlo.
  assert (Hback : Z.lor (Z.shiftl (word / 2 ^ 8) 8) (word mod 2 ^ 8) = word).
  { rewrite Z.lor_comm.
    pose proof (Z.mod_pos_bound word (2 ^ 8) ltac:(lia)) as Hm.
    rewrite lor_disjoint; try lia.
    - pose proof (Z.div_mod word (2 ^ 8) ltac:(lia)). lia.
    - apply Z.div_pos; lia. }
  rewrite Hback.
  rewrite <- app_assoc.
  rewrite slice_from_2.
  rewrite fromleb128_put by assumption.
  rewrite slice_from_cons2. rewrite fromleb128_put by assumption.
  assert (Hv' : Z.shiftr word 15 = v).
  { rewrite Z.shiftr_div_pow2 by lia. unfold word.
    rewrite Z.div_add by lia. rewrite Z.div_small by lia. lia. }
  assert (Ht' : Z.land word 0x7fff = tag).
  { change 0x7fff with (Z.ones 15). rewrite Z.land_ones by lia.
    unfold word. rewrite Z.mod_add by lia. apply Z.mod_small. lia. }
  rewrite Hv', Ht'. repeat f_equal.
  unfold len. cbn [length]. rewrite length_app. lia.
Qed.

(* ===================================================================== *)
(** * Checksums and fixed-width words                                     *)
(* ===================================================================== *)

Lemma lxor_range (a b n : Z) :
  0 <= n -> 0 <= a < 2 ^ n -> 0 <= b < 2 ^ n -> 0 <= Z.lxor a b < 2 ^ n.
Proof.
  intros Hn Ha Hb.
  assert (H0 : 0 <= Z.lxor a b) by (apply Z.lxor_nonneg; lia).
  split; [exact H0|].
  destruct (Z.eq_dec (Z.lxor a b) 0) as [->|Hne].
  - apply Z.pow_pos_nonneg; lia.
  - assert (Hn0 : 0 < n).
    { destruct (Z.eq_dec n 0) as [->|]; [|lia]. exfalso. apply Hne.
      change (2 ^ 0) with 1 in *.
      replace a with 0 by lia. replace b with 0 by lia. reflexivity. }
    apply Z.log2_lt_pow2; [lia|].
    pose proof (Z.log2_lxor a b ltac:(lia) ltac:(lia)) as Hl.
    assert (Z.log2 a < n).
    { destruct (Z.eq_dec a 0) as [->|]; [simpl|apply Z.log2_lt_pow2]; lia. }
    assert (Z.log2 b < n).
    { destruct (Z.eq_dec b 0) as [->|]; [simpl|apply Z.log2_lt_pow2]; lia. }
    lia.
Qed.

Lemma crc32c_bit_range (crc : Z) :
  0 <= crc < 2 ^ 32 -> 0 <= crc32c_bit crc < 2 ^ 32.
Proof.
  intros Hc. unfold crc32c_bit. apply lxor_range; [lia| |].
  - rewrite Z.shiftr_div_pow2 by lia. split.
    + apply Z.div_pos; lia.
    + apply Z.div_lt_upper_bound; lia.
  - change 1 with (Z.ones 1). rewrite Z.land_ones by lia.
    pose proof (Z.mod_pos_bound crc (2 ^ 1) ltac:(lia)).
    change (2 ^ 1) with 2 in *. change (2 ^ 32) with 4294967296. lia.
Qed.

Lemma crc32c_byte_range (crc : Z) (b : byte) :
  0 <= crc < 2 ^ 32 -> 0 <= crc32c_byte crc b < 2 ^ 32.
Proof.
  intros Hc. unfold crc32c_byte.
  repeat apply crc32c_bit_range.
  apply lxor_range; [lia|exact Hc|].
  pose proof (b2z_range b). change (2 ^ 32) with 4294967296. lia.
Qed.

Lemma crc32c_range (data : list byte) (crc : Z) :
  0 <= crc < 2 ^ 32 -> 0 <= crc32c data crc < 2 ^ 32.
Proof.
  intros Hc. unfold crc32c.
  assert (Hfold : forall l c, 0 <= c < 2 ^ 32 ->
    0 <= fold_left crc32c_byte l c < 2 ^ 32).
  { induction l as [|b l IH]; intros c Hc'; cbn [fold_left]; [exact Hc'|].
    apply IH. apply crc32c_byte_range. exact Hc'. }
  apply lxor_range; [lia|change (2 ^ 32) with 4294967296; lia|].
  apply Hfold. apply lxor_range; [lia|exact Hc|].
  change (2 ^ 32) with 4294967296; lia.
Qed.

(** Feeding a buffer in two parts gives the checksum of the whole. *)
Lemma crc32c_app (a b : list byte) (crc : Z) :
  crc32c (a ++ b) crc = crc32c b (crc32c a crc).
Proof.
  unfold crc32c. rewrite fold_left_app. f_equal. f_equal.
  rewrite (Z.lxor_comm (Z.lxor _ _) 0xffffffff).
  rewrite <- Z.lxor_assoc. rewrite Z.lxor_nilpotent, Z.lxor_0_l.
  reflexivity.
Qed.


Lemma b2z_z2b_mod (z : Z) : b2z (z2b z) = z mod 256.
Proof.
  unfold b2z, z2b.
  pose proof (Z.mod_pos_bound z 256 ltac:(lia)) as Hm.
  destruct (Byte.of_N (Z.to_N (z mod 256))) as [b|] eqn:E.
  - apply Byte.to_of_N in E. rewrite E. lia.
  - apply Byte.of_N_None_iff in E. lia.
Qed.

Lemma fromle32_tole32 (v : Z) :
  0 <= v < 2 ^ 32 -> fromle32 (tole32 v) = v.
Proof.
  intros Hv. unfold fromle32.
  replace (slice (tole32 v) 0 4) with (tole32 v).
  2:{ symmetry. rewrite <- (app_nil_r (tole32 v)) at 1.
      exact (slice_app [] (tole32 v) []). }
  unfold tole32. rewrite !b2z_z2b_mod.
  rewrite !Z.shiftr_div_pow2 by lia.
  change (2 ^ 8) with 256. change (2 ^ 16) with (256 * 256).
  change (2 ^ 24) with (256 * 256 * 256).
  change (2 ^ 32) with 4294967296 in Hv.
  rewrite <- !Z.div_div by lia.
  pose proof (Z.div_mod v 256 ltac:(lia)).
  pose proof (Z.div_mod (v / 256) 256 ltac:(lia)).
  pose proof (Z.div_mod (v / 256 / 256) 256 ltac:(lia)).
  pose proof (Z.mod_pos_bound v 256 ltac:(lia)).
  pose proof (Z.mod_pos_bound (v / 256) 256 ltac:(lia)).
  pose proof (Z.mod_pos_bound (v / 256 / 256) 256 ltac:(lia)).
  assert (0 <= v / 256 / 256 / 256 < 256).
  { split; [repeat apply Z.div_pos; lia|].
    repeat (apply Z.div_lt_upper_bound; [lia|]). lia. }
  rewrite (Z.mod_small (v / 256 / 256 / 256)) by lia. lia.
Qed.

(* ===================================================================== *)
(** * The scan does not depend on spare fuel                              *)
(* ===================================================================== *)





(* ===================================================================== *)
(** * One round of the scan over a written tag                            *)
(* ===================================================================== *)





(* ===================================================================== *)
(** * The scan over the tags of a commit                                  *)
(* ===================================================================== *)







Lemma put_attrs_cons (crc : Z) (a : attr) (l : list attr) :
  put_attrs crc (a :: l)
  = (fst (put_attr crc a) ++ fst (put_attrs (snd (put_attr crc a)) l),
     snd (put_attrs (snd (put_attr crc a)) l)).
Proof.
  cbn [put_attrs]. destruct (put_attr crc a) as [bs crc1]. cbn [fst snd].
  destruct (put_attrs crc1 l) as [bs' crc2]. reflexivity.
Qed.

Lemma put_attrs_app (crc : Z) (l l' : list attr) :
  put_attrs crc (l ++ l')
  = (fst (put_attrs crc l) ++ fst (put_attrs (snd (put_attrs crc l)) l'),
     snd (put_attrs (snd (put_attrs crc l)) l')).
Proof.
  revert crc. induction l as [|a l IH]; intros crc.
  - cbn [app put_attrs fst snd].
    destruct (put_attrs crc l'); reflexivity.
  - cbn [app]. rewrite !put_attrs_cons. cbn [fst snd]. rewrite IH.
    cbn [fst snd]. rewrite app_assoc. reflexivity.
Qed.

Lemma attrs_len_app (l l' : list attr) :
  attrs_len (l ++ l') = attrs_len l + attrs_len l'.
Proof.
  unfold attrs_len. induction l as [|a l IH]; cbn [app fold_right]; lia.
Qed.









(* ===================================================================== *)
(** * One round of the scan over a CRC tag                                *)
(* ===================================================================== *)

Lemma len_crc_tag (v : Z) : len (totag v TAG_CRC 0 4) = 4.
Proof. reflexivity. Qed.




(* ===================================================================== *)
(** * The scan at the end of the written part                             *)
(* ===================================================================== *)

Lemma valid_bit (b0 b1 : byte) :
  Z.shiftr (Z.lor (Z.shiftl (b2z b0) 8) (b2z b1)) 15 = Z.shiftr (b2z b0) 7.
Proof.
  rewrite Z.shiftr_lor, Z.shiftr_shiftl_r by lia.
  pose proof (b2z_range b1) as H1.
  rewrite (Z.shiftr_div_pow2 (b2z b1)) by lia.
  rewrite (Z.div_small (b2z b1)) by (change (2 ^ 15) with 32768; lia).
  apply Z.lor_0_r.
Qed.


(* ===================================================================== *)
(** * Fetching a block with two commits                                   *)
(* ===================================================================== *)


Lemma slice_rev (rev : Z) (rest : list byte) :
  slice (tole32 rev ++ rest) 0 4 = tole32 rev.
Proof.
  rewrite <- (app_nil_l (tole32 rev ++ rest)).
  exact (slice_app [] (tole32 rev) rest).
Qed.









(* ===================================================================== *)
(** * Order of keys                                                       *)
(* ===================================================================== *)

Lemma pair_ltb_spec (a b : Z * Z) : Rbyd.pair_ltb a b = true <-> klt a b.
Proof.
  unfold Rbyd.pair_ltb, klt. rewrite orb_true_iff, andb_true_iff.
  rewrite !Z.ltb_lt, Z.eqb_eq. reflexivity.
Qed.

Lemma pair_leb_spec (a b : Z * Z) : Rbyd.pair_leb a b = true <-> kle a b.
Proof.
  unfold Rbyd.pair_leb, kle. rewrite orb_true_iff, andb_true_iff.
  rewrite Z.ltb_lt, Z.leb_le, Z.eqb_eq. reflexivity.
Qed.

Lemma pair_ltb_false (a b : Z * Z) : Rbyd.pair_ltb a b = false <-> kle b a.
Proof.
  rewrite <- not_true_iff_false, pair_ltb_spec. unfold klt, kle. lia.
Qed.

Lemma pair_leb_false (a b : Z * Z) : Rbyd.pair_leb a b = false <-> klt b a.
Proof.
  rewrite <- not_true_iff_false, pair_leb_spec. unfold klt, kle. lia.
Qed.

Lemma klt_trans (a b c : Z * Z) : klt a b -> klt b c -> klt a c.
Proof. unfold klt. lia. Qed.

Lemma klt_kle_trans (a b c : Z * Z) : klt a b -> kle b c -> klt a c.
Proof. unfold klt, kle. lia. Qed.

Lemma kle_klt_trans (a b c : Z * Z) : kle a b -> klt b c -> klt a c.
Proof. unfold klt, kle. lia. Qed.

Lemma klt_succ (id tag : Z) (b : Z * Z) :
  kle (id, tag + 1) b <-> klt (id, tag) b.
Proof. unfold klt, kle. cbn [fst snd]. lia. Qed.

(* ===================================================================== *)
(** * Iteration is in increasing order on every node                      *)
(* ===================================================================== *)

Lemma lookup_loop_not_done (fuel : nat) (self : Rbyd.t) (id tag : Z) :
  forall lower upper j path id' tag' w j' d data path',
    Rbyd.lookup_loop fuel self id tag lower upper j path
    = Ok (false, id', tag', w, j', d, data, path') ->
    kle (id, tag) (id', tag').
Proof.
  induction fuel as [|fuel IH];
    intros lower upper j path id' tag' w j' d data path';
    cbn [Rbyd.lookup_loop]; [discriminate|].
  destruct (fromtag (slice_from (Rbyd.data self) j))
    as [[[[[v alt] weight_] jump] d0]| |]; cbn [bind]; try discriminate.
  destruct (negb (Z.land alt 0x4000 =? 0)).
  - destruct (Rbyd.follows id tag lower upper alt weight_);
      destruct (Rbyd.alt_color self alt _); cbn [bind]; try discriminate;
      apply IH.
  - intros E.
    assert (Hd : Rbyd.pair_ltb (upper - 1, alt) (id, tag)
                 || negb (Z.land alt 0x1000 =? 0) = false) by congruence.
    assert (Hi : id' = upper - 1) by congruence.
    assert (Ht : tag' = alt) by congruence.
    subst id' tag'.
    apply orb_false_elim in Hd. destruct Hd as [Hd _].
    apply pair_ltb_false in Hd. exact Hd.
Qed.

Lemma lookup_not_done (fuel : nat) (self : Rbyd.t) (id tag : Z)
  (id' tag' w j' d : Z) (data : list byte) (path' : list Rbyd.edge) :
  Rbyd.lookup fuel self id tag = Ok (false, id', tag', w, j', d, data, path') ->
  kle (id, tag) (id', tag').
Proof.
  unfold Rbyd.lookup. destruct (negb (Rbyd.bool self)).
  - discriminate.
  - apply lookup_loop_not_done.
Qed.

Lemma iter_loop_increasing (fuel n : nat) :
  forall (self : Rbyd.t) (id tag : Z),
    increasing (fst (Rbyd.iter_loop fuel n self id tag))
    /\ Forall (fun e => klt (id, tag) (key e))
         (fst (Rbyd.iter_loop fuel n self id tag)).
Proof.
  induction n as [|n IH]; intros self id tag; cbn [Rbyd.iter_loop].
  - cbn [fst]. split; constructor.
  - destruct (Rbyd.lookup fuel self id (tag + 1))
      as [[[[[[[[done id'] tag'] w] j] d] data] path]| |] eqn:El;
      try (cbn [fst]; split; constructor).
    destruct done eqn:Ed; [cbn [fst]; split; constructor|].
    destruct (Rbyd.iter_loop fuel n self id' tag') as [l r] eqn:Ei.
    destruct (IH self id' tag') as [Hinc Hall]. rewrite Ei in Hinc, Hall.
    cbn [fst] in *.
    assert (Hlt : klt (id, tag) (id', tag')).
    { apply klt_succ. eapply lookup_not_done. exact El. }
    split.
    + constructor; [exact Hinc|exact Hall].
    + constructor; [exact Hlt|].
      eapply Forall_impl; [|exact Hall]. intros e He.
      eapply klt_trans; eassumption.
Qed.

(** Whatever the node, the entries that [__iter__] yields are in strictly
    increasing (id, tag) order. *)
Lemma iter_increasing (fuel n : nat) (self : Rbyd.t) :
  increasing (fst (Rbyd.iter fuel n self)).
Proof. apply iter_loop_increasing. Qed.

(* ===================================================================== *)
(** * The search in a well-formed tree                                    *)
(* ===================================================================== *)

Lemma fromtag_tag_range (data : list byte) (v tag w size d : Z) :
  fromtag data = Ok (v, tag, w, size, d) -> 0 <= tag < 2 ^ 15.
Proof.
  unfold fromtag.
  destruct (index data 0) as [b0| |]; cbn [bind]; try discriminate.
  destruct (index data 1) as [b1| |]; cbn [bind]; try discriminate.
  destruct (fromleb128 (slice_from data 2)) as [w' d1].
  destruct (fromleb128 (slice_from data (2 + d1))) as [size' d2].
  intros E. assert (Ht : tag = Z.land (Z.lor (Z.shiftl b0 8) b1) 0x7fff)
    by congruence.
  rewrite Ht. change 0x7fff with (Z.ones 15). rewrite Z.land_ones by lia.
  apply Z.mod_pos_bound. lia.
Qed.

Lemma tag12_mask (t : Z) : 0 <= t < 0x1000 -> Z.land t 0xfff = t.
Proof.
  intros Ht. change 0xfff with (Z.ones 12). rewrite Z.land_ones by lia.
  apply Z.mod_small. change (2 ^ 12) with 0x1000. lia.
Qed.

Lemma tag12_bits (t : Z) :
  0 <= t < 0x1000 -> Z.land t 0x4000 = 0 /\ Z.land t 0x1000 = 0.
Proof.
  intros Ht. rewrite <- (tag12_mask t Ht). rewrite <- !Z.land_assoc.
  change (Z.land 0xfff 0x4000) with 0. change (Z.land 0xfff 0x1000) with 0.
  rewrite Z.land_0_r. split; reflexivity.
Qed.

Lemma shape_nonempty (self : Rbyd.t) (j lower upper : Z)
  (es : list Rbyd.entry) :
  shape self j lower upper es -> es <> [].
Proof.
  induction 1 as [| ? ? ? ? ? ? ? ? ? es1 es2 _ _ _ _ _ IH1 _ _ _ _ _
                  | ? ? ? ? ? ? ? ? ? es1 es2 _ _ _ _ _ IH1 _ _ _ _ _].
  - discriminate.
  - destruct es1; [contradiction|discriminate].
  - destruct es1; [contradiction|discriminate].
Qed.

Lemma first_ge_app_l (k : Z * Z) (es1 es2 : list Rbyd.entry) :
  Exists (fun e => kle k (key e)) es1 ->
  first_ge k (es1 ++ es2) = first_ge k es1
  /\ first_ge k es1 <> None.
Proof.
  induction 1 as [e es1 He|e es1 _ IH]; cbn [app first_ge].
  - apply pair_leb_spec in He. rewrite He. split; [reflexivity|discriminate].
  - destruct (Rbyd.pair_leb k (key e)); [split; [reflexivity|discriminate]|].
    exact IH.
Qed.

Lemma pick_app_l (k : Z * Z) (es1 es2 : list Rbyd.entry) :
  Exists (fun e => kle k (key e)) es1 ->
  pick k (es1 ++ es2) = pick k es1.
Proof.
  intros H. unfold pick. destruct (first_ge_app_l k es1 es2 H) as [-> Hn].
  destruct (first_ge k es1); [reflexivity|contradiction].
Qed.

Lemma last_entry_app (es1 es2 : list Rbyd.entry) :
  es2 <> [] -> last_entry (es1 ++ es2) = last_entry es2.
Proof.
  intros Hne. induction es1 as [|e es1 IH]; [reflexivity|].
  cbn [app last_entry]. destruct (es1 ++ es2) eqn:E.
  - destruct es1; [cbn in E; contradiction|discriminate].
  - exact IH.
Qed.

Lemma pick_app_r (k : Z * Z) (es1 es2 : list Rbyd.entry) :
  Forall (fun e => klt (key e) k) es1 -> es2 <> [] ->
  pick k (es1 ++ es2) = pick k es2.
Proof.
  intros Hall Hne. unfold pick.
  assert (Hf : first_ge k (es1 ++ es2) = first_ge k es2).
  { induction Hall as [|e es1 He _ IH]; [reflexivity|].
    cbn [app first_ge]. apply pair_leb_false in He. rewrite He. exact IH. }
  rewrite Hf, last_entry_app by exact Hne. reflexivity.
Qed.

Lemma lookup_loop_shape (self : Rbyd.t) (j lower upper : Z)
  (es : list Rbyd.entry) :
  shape self j lower upper es ->
  exists n, forall fuel id tag path,
    (n <= fuel)%nat -> 0 <= tag < 0x1000 ->
    exists e path',
      pick (id, tag) es = Some e
      /\ Rbyd.lookup_loop fuel self id tag lower upper j path
         = Ok (answer (Rbyd.pair_ltb (key e) (id, tag)) e path').
Proof.
  induction 1 as
    [j lower upper v tag0 w size d Ht Htag
    |j lower upper v alt w jump d c es1 es2 Ht Halt Hle Hc H1 IH1 H2 IH2
       Hall1 Hex1 Hall2
    |j lower upper v alt w jump d c es1 es2 Ht Halt Hgt Hc H1 IH1 H2 IH2
       Hall1 Hex1 Hall2].
  - (* a terminal tag *)
    exists 1%nat. intros fuel id tag path Hfuel Hq.
    destruct fuel as [|fuel]; [lia|].
    pose proof (fromtag_tag_range _ _ _ _ _ _ Ht) as Hr.
    destruct (tag12_bits tag0 ltac:(lia)) as [H4 H1].
    eexists. exists path. split.
    + unfold pick. cbn [first_ge last_entry].
      destruct (Rbyd.pair_leb _ _); reflexivity.
    + cbn [Rbyd.lookup_loop]. rewrite Ht. cbn [bind].
      rewrite H4, H1. cbn [Z.eqb negb answer key]. rewrite orb_false_r.
      reflexivity.
  - (* a less-or-equal alt *)
    destruct IH1 as [n1 IH1]. destruct IH2 as [n2 IH2].
    exists (S (Nat.max n1 n2)). intros fuel id tag path Hfuel Hq.
    destruct fuel as [|fuel]; [lia|].
    cbn [Rbyd.lookup_loop]. rewrite Ht. cbn [bind].
    apply Z.eqb_neq in Halt. rewrite Halt. rewrite Hle.
    cbn [Z.eqb negb]. unfold Rbyd.follows. rewrite Hle. cbn [Z.eqb negb].
    rewrite (tag12_mask tag Hq).
    destruct (Rbyd.pair_leb (id, tag) (lower + w, Z.land alt 0xfff)) eqn:Ef.
    + apply pair_leb_spec in Ef.
      replace (j - jump + jump + d) with (j + d) by lia.
      rewrite Hc. cbn [bind].
      replace (lower + 0) with lower by lia.
      replace (upper - (upper - lower - 1 - w)) with (lower + w + 1) by lia.
      destruct (IH1 fuel id tag (path ++ [(j - jump + jump, j - jump, true, c)])
                  ltac:(lia) Hq) as (e & path' & Hp & Hl).
      exists e, path'. split; [|exact Hl].
      rewrite pick_app_l; [exact Hp|].
      eapply Exists_impl; [|exact Hex1]. intros e' He'. cbn beta in He'.
      rewrite He'. exact Ef.
    + apply pair_leb_false in Ef.
      rewrite Hc. cbn [bind].
      replace (upper - 0) with upper by lia.
      destruct (IH2 fuel id tag (path ++ [(j + d - d, j + d, false, c)])
                  ltac:(lia) Hq) as (e & path' & Hp & Hl).
      exists e, path'. split; [|exact Hl].
      rewrite pick_app_r; [exact Hp| |eapply shape_nonempty; exact H2].
      eapply Forall_impl; [|exact Hall1]. intros e' He'. cbn beta in He'.
      eapply kle_klt_trans; eassumption.
  - (* a greater-than alt *)
    destruct IH1 as [n1 IH1]. destruct IH2 as [n2 IH2].
    exists (S (Nat.max n1 n2)). intros fuel id tag path Hfuel Hq.
    destruct fuel as [|fuel]; [lia|].
    cbn [Rbyd.lookup_loop]. rewrite Ht. cbn [bind].
    apply Z.eqb_neq in Halt. rewrite Halt.
    apply Z.eqb_neq in Hgt. rewrite Hgt.
    cbn [negb]. unfold Rbyd.follows. rewrite Hgt. cbn [negb].
    rewrite (tag12_mask tag Hq).
    destruct (Rbyd.pair_ltb (upper - w - 1, Z.land alt 0xfff) (id, tag))
      eqn:Ef.
    + apply pair_ltb_spec in Ef.
      replace (j - jump + jump + d) with (j + d) by lia.
      rewrite Hc. cbn [bind].
      replace (lower + (upper - lower - 1 - w)) with (upper - 1 - w) by lia.
      replace (upper - 0) with upper by lia.
      destruct (IH2 fuel id tag (path ++ [(j - jump + jump, j - jump, true, c)])
                  ltac:(lia) Hq) as (e & path' & Hp & Hl).
      exists e, path'. split; [|exact Hl].
      rewrite pick_app_r; [exact Hp| |eapply shape_nonempty; exact H2].
      eapply Forall_impl; [|exact Hall1]. intros e' He'. cbn beta in He'.
      eapply kle_klt_trans; eassumption.
    + apply pair_ltb_false in Ef.
      rewrite Hc. cbn [bind].
      replace (lower + 0) with lower by lia.
      destruct (IH1 fuel id tag (path ++ [(j + d - d, j + d, false, c)])
                  ltac:(lia) Hq) as (e & path' & Hp & Hl).
      exists e, path'. split; [|exact Hl].
      rewrite pick_app_l; [exact Hp|].
      eapply Exists_impl; [|exact Hex1]. intros e' He'. cbn beta in He'.
      rewrite He'. exact Ef.
Qed.

(* ===================================================================== *)
(** * The entries of a well-formed tree                                   *)
(* ===================================================================== *)

Lemma increasing_app (es1 es2 : list Rbyd.entry) (k : Z * Z) :
  increasing es1 -> increasing es2 ->
  Forall (fun e => kle (key e) k) es1 ->
  Forall (fun e => klt k (key e)) es2 ->
  increasing (es1 ++ es2).
Proof.
  unfold increasing. intros H1 H2 Hl Hr.
  induction H1 as [|e es1 _ IH Hall]; [exact H2|].
  inversion Hl as [|e' l' He Hl']; subst.
  cbn [app]. constructor; [exact (IH Hl')|].
  apply Forall_app. split; [exact Hall|].
  eapply Forall_impl; [|exact Hr]. intros b Hb. cbn beta in Hb.
  eapply kle_klt_trans; eassumption.
Qed.

Lemma shape_increasing (self : Rbyd.t) (j lower upper : Z)
  (es : list Rbyd.entry) :
  shape self j lower upper es -> increasing es.
Proof.
  induction 1.
  - constructor; constructor.
  - eapply increasing_app; eassumption.
  - eapply increasing_app; eassumption.
Qed.

Lemma chained_app (es1 es2 : list Rbyd.entry) :
  forall lo mid hi,
    chained lo es1 mid -> chained mid es2 hi -> chained lo (es1 ++ es2) hi.
Proof.
  induction es1 as [|e es1 IH]; intros lo mid hi H1 H2; cbn [app chained] in *.
  - subst. exact H2.
  - destruct H1 as [He H1]. split; [exact He|]. eapply IH; eassumption.
Qed.

Lemma shape_chained (self : Rbyd.t) (j lower upper : Z)
  (es : list Rbyd.entry) :
  shape self j lower upper es -> chained lower es (upper - 1).
Proof.
  induction 1 as
    [j lower upper v tag0 w size d Ht Htag
    |j lower upper v alt w jump d c es1 es2 Ht Halt Hle Hc H1 IH1 H2 IH2
       Hall1 Hex1 Hall2
    |j lower upper v alt w jump d c es1 es2 Ht Halt Hgt Hc H1 IH1 H2 IH2
       Hall1 Hex1 Hall2].
  - cbn. split; [lia|reflexivity].
  - eapply chained_app; [|exact IH2].
    replace (lower + w + 1 - 1) with (lower + w) in IH1 by lia. exact IH1.
  - eapply chained_app; [exact IH1|].
    replace (upper - w - 1) with (upper - 1 - w) by lia. exact IH2.
Qed.

Lemma shape_tags (self : Rbyd.t) (j lower upper : Z)
  (es : list Rbyd.entry) :
  shape self j lower upper es ->
  Forall (fun e => 0 <= snd (key e) < 0xfff) es.
Proof.
  induction 1 as [j lower upper v tag0 w size d Ht Htag| |].
  - constructor; [|constructor]. cbn.
    pose proof (fromtag_tag_range _ _ _ _ _ _ Ht). lia.
  - apply Forall_app. split; assumption.
  - apply Forall_app. split; assumption.
Qed.

(** In a chain of entries with increasing keys every weight but the
    first is the distance to the id before, hence not negative. *)
Lemma chained_weights (es : list Rbyd.entry) :
  forall lo hi,
    chained lo es hi -> increasing es ->
    Forall (fun e => lo <= eid e) es ->
    Forall (fun e => 0 <= eweight e) es /\ lo <= hi.
Proof.
  induction es as [|e es IH]; intros lo hi Hch Hinc Hlo; cbn [chained] in Hch.
  - split; [constructor|lia].
  - destruct Hch as [He Hch].
    inversion Hinc as [|e' l' Hinc' Hall]; subst.
    inversion Hlo as [|e' l' Hlo1 Hlo']; subst.
    destruct (IH (eid e) hi Hch Hinc') as [Hw Hhi].
    + eapply Forall_impl; [|exact Hall]. intros b Hb. cbn beta in Hb.
      unfold eid, klt in *. lia.
    + split; [constructor; [lia|exact Hw]|lia].
Qed.

(* ===================================================================== *)
(** * Iterating a well-formed node                                        *)
(* ===================================================================== *)

Lemma first_ge_none (k : Z * Z) (es : list Rbyd.entry) :
  Forall (fun e => klt (key e) k) es -> first_ge k es = None.
Proof.
  induction 1 as [|e es He _ IH]; [reflexivity|].
  cbn [first_ge]. apply pair_leb_false in He. rewrite He. exact IH.
Qed.

Lemma last_entry_in (es : list Rbyd.entry) (e : Rbyd.entry) :
  last_entry es = Some e -> In e es.
Proof.
  induction es as [|a es IH]; [discriminate|].
  cbn [last_entry]. destruct es as [|b es].
  - intros [= <-]. left. reflexivity.
  - intros H. right. exact (IH H).
Qed.



Lemma block_demo_built :
  block_demo
  = fill 64 (put_block 3
      [mkattr 0x101 1 1 (bytes [97]);
       mkattr 0x4101 1 5 []; mkattr 0x300 0 1 (bytes [120]);
       mkattr 0x4300 1 9 []; mkattr 0x101 1 1 (bytes [98]);
       mkattr 0x4101 1 23 []; mkattr 0x7300 1 9 [];
       mkattr 0x300 0 1 (bytes [121])]).
Proof. vm_compute. reflexivity. Qed.

Lemma fetch_block_demo :
  Rbyd.fetch block_demo 64 [Int 0] None = Ok node_demo.
Proof. vm_compute. reflexivity. Qed.

Lemma node_demo_wf : wf_node node_demo entries_demo.
Proof.
  split; [reflexivity|]. split.
  - apply (shape_le node_demo 27 (-1) 2 1 0x4101 1 23 4 B
             [(0, 0x101, 1, 4, 4, bytes [97])]
             [(0, 0x300, 0, 35, 4, bytes [121]);
              (1, 0x101, 1, 22, 4, bytes [98])]).
    + vm_compute. reflexivity.
    + discriminate.
    + reflexivity.
    + reflexivity.
    + apply (shape_leaf node_demo 4 (-1) 1 0 0x101 1 1 4).
      * vm_compute. reflexivity.
      * reflexivity.
    + apply (shape_gt node_demo 31 0 2 0 0x7300 1 9 4 R
               [(0, 0x300, 0, 35, 4, bytes [121])]
               [(1, 0x101, 1, 22, 4, bytes [98])]).
      * vm_compute. reflexivity.
      * discriminate.
      * discriminate.
      * vm_compute. reflexivity.
      * apply (shape_leaf node_demo 35 0 1 0 0x300 0 1 4).
        -- vm_compute. reflexivity.
        -- reflexivity.
      * apply (shape_leaf node_demo 22 0 2 0 0x101 1 1 4).
        -- vm_compute. reflexivity.
        -- reflexivity.
      * constructor; [|constructor]. unfold kle. cbn. lia.
      * constructor. reflexivity.
      * constructor; [|constructor]. unfold klt. cbn. lia.
    + constructor; [|constructor]. unfold kle. cbn. lia.
    + constructor. reflexivity.
    + repeat constructor; unfold klt; cbn; lia.
  - repeat constructor; unfold kle; cbn; lia.
Defined.


(* ===================================================================== *)
(** * More on the codec                                                   *)
(* ===================================================================== *)

(** The checksum can be fed in pieces: the value returned for the first
    piece is the running state for the next one, and feeding nothing
    leaves the state as it is. *)
Theorem crc32c_feed (a b : list byte) (crc : Z) :
  crc32c (a ++ b) crc = crc32c b (crc32c a crc)
  /\ crc32c [] crc = crc.
Proof.
  split; [apply crc32c_app|].
  unfold crc32c. cbn [fold_left].
  rewrite Z.lxor_comm, Z.lxor_assoc, Z.lxor_nilpotent. apply Z.lxor_0_r.
Qed.

(** From a 32-bit running state the checksum is again a 32-bit word. *)
Theorem crc32c_word (data : list byte) (crc : Z) :
  0 <= crc < 2 ^ 32 -> 0 <= crc32c data crc < 2 ^ 32.
Proof. apply crc32c_range. Qed.

Lemma crc32c_word_witness :
  0 <= crc32c (bytes [49; 50; 51; 52; 53; 54; 55; 56; 57]) 0 < 2 ^ 32.
Proof. apply crc32c_word. lia. Defined.

Lemma fromle32_put (v : Z) (rest : list byte) :
  0 <= v < 2 ^ 32 -> fromle32 (tole32 v ++ rest) = v.
Proof.
  intros Hv. rewrite <- (fromle32_tole32 v Hv) at 2.
  unfold fromle32. rewrite slice_rev.
  replace (slice (tole32 v) 0 4) with (tole32 v); [reflexivity|].
  symmetry. rewrite <- (app_nil_r (tole32 v)) at 1. apply slice_rev.
Qed.

(** A 32-bit value written as four little-endian bytes is read back,
    whatever follows the four bytes. *)
Theorem fromle32_roundtrip (v : Z) (rest : list byte) :
  0 <= v < 2 ^ 32 -> fromle32 (tole32 v ++ rest) = v.
Proof. apply fromle32_put. Qed.

Lemma fromle32_roundtrip_witness :
  fromle32 (tole32 0xdeadbeef ++ bytes [1; 2]) = 0xdeadbeef.
Proof. apply fromle32_roundtrip. lia. Defined.

Lemma slice_0_4 (data : list byte) : slice data 0 4 = firstn 4 data.
Proof.
  unfold slice, clamp. cbn [Z.ltb Z.compare].
  pose proof (len_nonneg data) as Hl.
  rewrite (Z.min_l 0 (len data)) by lia.
  rewrite Z.sub_0_r. cbn [Z.to_nat skipn].
  destruct (Z.le_ge_cases 4 (len data)) as [H|H].
  - rewrite Z.min_l by lia. reflexivity.
  - rewrite Z.min_r by lia. unfold len in *. rewrite Nat2Z.id.
    rewrite firstn_all. symmetry. apply firstn_all2. lia.
Qed.

(** [fromle32] reads the first four bytes only, takes missing bytes as
    zero, and always gives a 32-bit word. *)
Theorem fromle32_padded (data : list byte) :
  fromle32 data = fromle32 (firstn 4 (data ++ repeat x00 4))
  /\ 0 <= fromle32 data < 2 ^ 32.
Proof.
  split; [|apply fromle32_range].
  unfold fromle32. rewrite !slice_0_4. rewrite firstn_firstn.
  cbn [Nat.min].
  destruct data as [|b0 [|b1 [|b2 [|b3 l]]]]; cbn; lia.
Qed.

(* ===================================================================== *)
(** * More on varints                                                     *)
(* ===================================================================== *)

Lemma fromleb128_loop_wrap (fuel : nat) :
  forall (v i acc : Z) (rest : list byte),
    0 <= v -> Z.log2 v <= Z.of_nat fuel ->
    0 <= i -> 0 <= acc < 2 ^ (7 * i) ->
    fromleb128_loop (toleb128_loop fuel v ++ rest) i (acc mod 2 ^ 32)
    = ((acc + v * 2 ^ (7 * i)) mod 2 ^ 32,
       i + len (toleb128_loop fuel v)).
Proof.
  assert (Hchunk : forall c i acc,
    0 <= c -> 0 <= i -> 0 <= acc < 2 ^ (7 * i) ->
    Z.land (Z.lor (acc mod 2 ^ 32) (Z.shiftl c (7 * i))) 0xffffffff
    = (acc + c * 2 ^ (7 * i)) mod 2 ^ 32).
  { intros c i acc Hc Hi Ha.
    pose proof (Z.mod_pos_bound acc (2 ^ 32) ltac:(lia)) as Hm.
    pose proof (Z.mod_le acc (2 ^ 32) ltac:(lia) ltac:(lia)) as Hle.
    rewrite lor_disjoint by lia.
    change 0xffffffff with (Z.ones 32). rewrite Z.land_ones by lia.
    apply Z.add_mod_idemp_l. lia. }
  assert (Hlast : forall v i acc rest,
    0 <= v < 0x80 -> 0 <= i -> 0 <= acc < 2 ^ (7 * i) ->
    fromleb128_loop ([z2b v] ++ rest) i (acc mod 2 ^ 32)
    = ((acc + v * 2 ^ (7 * i)) mod 2 ^ 32, i + len [z2b v])).
  { intros v i acc rest Hv Hi Ha. cbn [app fromleb128_loop].
    rewrite byte_cont_bit, byte_low_bits.
    destruct (leb_byte_last v Hv) as [-> ->].
    rewrite Hchunk by lia.
    destruct (Z.ltb_spec v 0x80); [reflexivity|lia]. }
  induction fuel as [|fuel IH]; intros v i acc rest Hv Hlog Hi Ha.
  - simpl toleb128_loop. apply Hlast; try lia.
    destruct (Z.eq_dec v 0) as [->|Hne]; [lia|].
    assert (v < 2 ^ 1) by (apply Z.log2_lt_pow2; lia). lia.
  - simpl toleb128_loop. destruct (Z.ltb_spec v 0x80) as [Hs|Hb].
    + apply Hlast; lia.
    + cbn [app fromleb128_loop].
      rewrite byte_cont_bit, byte_low_bits, leb_byte_more by lia.
      pose proof (Z.mod_pos_bound v 0x80 ltac:(lia)) as Hm.
      replace ((v mod 0x80 + 0x80) mod 0x80) with (v mod 0x80)
        by (rewrite Z.add_mod, Z.mod_same, Z.add_0_r, !Z.mod_mod by lia;
            reflexivity).
      assert (Hpow : 2 ^ (7 * (i + 1)) = 0x80 * 2 ^ (7 * i)).
      { replace (7 * (i + 1)) with (7 + 7 * i) by lia.
        rewrite Z.pow_add_r by lia. reflexivity. }
      assert (Hp : 0 < 2 ^ (7 * i)) by (apply Z.pow_pos_nonneg; lia).
      pose proof (Z.div_mod v 0x80 ltac:(lia)) as Hdm.
      assert (Hq : 0 <= v / 0x80) by (apply Z.div_pos; lia).
      rewrite Hchunk by lia.
      destruct (Z.ltb_spec (v mod 0x80 + 0x80) 0x80); [lia|].
      rewrite Z.shiftr_div_pow2 by lia. change (2 ^ 7) with 0x80.
      assert (Hlog' : Z.log2 (v / 0x80) = Z.log2 v - 7).
      { change 0x80 with (2 ^ 7). rewrite <- Z.shiftr_div_pow2 by lia.
        rewrite Z.log2_shiftr by lia.
        assert (7 <= Z.log2 v) by (apply Z.log2_le_pow2; lia). lia. }
      rewrite IH by (try lia; nia).
      f_equal; [f_equal; nia|]. unfold len. cbn [length]. lia.
Qed.

(** Decoding the varint of any [v >= 0] gives [v] modulo 2^32 and the
    length of the encoding, whatever follows it: bits above the 32nd are
    dropped, bytes after the terminating one are not looked at. *)
Theorem fromleb128_wraps (v : Z) (rest : list byte) :
  0 <= v ->
  fromleb128 (toleb128 v ++ rest) = (v mod 2 ^ 32, len (toleb128 v)).
Proof.
  intros Hv. unfold fromleb128, toleb128.
  pose proof (Z.log2_nonneg v) as Hl.
  change 0 with (0 mod 2 ^ 32) at 2.
  rewrite fromleb128_loop_wrap by (simpl; lia).
  f_equal. f_equal. simpl. lia.
Qed.

Lemma fromleb128_wraps_witness :
  fromleb128 (toleb128 (2 ^ 32 + 5) ++ bytes [0xff])
  = ((2 ^ 32 + 5) mod 2 ^ 32, len (toleb128 (2 ^ 32 + 5))).
Proof. apply fromleb128_wraps. lia. Defined.

Lemma fromleb128_loop_prefix (data : list byte) :
  forall i word,
    fromleb128_loop data i word = fromleb128_loop (varint_prefix data) i word
    /\ snd (fromleb128_loop data i word) = i + len (varint_prefix data).
Proof.
  induction data as [|b data IH]; intros i word.
  - cbn. split; [reflexivity|lia].
  - cbn [varint_prefix fromleb128_loop]. rewrite byte_cont_bit.
    destruct (b2z b <? 0x80) eqn:E.
    + cbn [fromleb128_loop]. rewrite byte_cont_bit, E.
      split; [reflexivity|]. cbn. lia.
    + cbn [fromleb128_loop]. rewrite byte_cont_bit, E.
      destruct (IH (i + 1) (Z.land
        (Z.lor word (Z.shiftl (Z.land (b2z b) 0x7f) (7 * i))) 0xffffffff))
        as [H1 H2].
      split; [exact H1|]. rewrite H2. unfold len. cbn [length]. lia.
Qed.

(** [fromleb128] stops at the first byte without the continuation bit, or
    at the end of the buffer: it returns what it returns on that prefix,
    and the count it returns is the length of that prefix. The value is a
    32-bit word and the count is 0 only for an empty buffer. *)
Theorem fromleb128_prefix (data : list byte) :
  fromleb128 data = fromleb128 (varint_prefix data)
  /\ snd (fromleb128 data) = len (varint_prefix data)
  /\ 0 <= fst (fromleb128 data) < 2 ^ 32
  /\ (snd (fromleb128 data) = 0 <-> data = []).
Proof.
  unfold fromleb128.
  destruct (fromleb128_loop_prefix data 0 0) as [H1 H2].
  split; [exact H1|]. split; [rewrite H2; lia|].
  split; [apply fromleb128_loop_bounds; lia|].
  rewrite H2. destruct data as [|b data].
  - cbn. split; reflexivity.
  - cbn [varint_prefix]. split; [|discriminate].
    destruct (b2z b <? 0x80); unfold len; cbn [length]; lia.
Qed.

(* ===================================================================== *)
(** * More on tag headers and branch payloads                             *)
(* ===================================================================== *)

(** A header written with valid bit [v], 15-bit [tag] and 32-bit weight
    and size decodes to these four and to its own length, whatever
    follows it. *)
Theorem fromtag_roundtrip (v tag w size : Z) (rest : list byte) :
  0 <= v <= 1 -> 0 <= tag < 2 ^ 15 ->
  0 <= w < 2 ^ 32 -> 0 <= size < 2 ^ 32 ->
  fromtag (totag v tag w size ++ rest)
  = Ok (v, tag, w, size, len (totag v tag w size)).
Proof. apply fromtag_totag. Qed.

Lemma fromtag_roundtrip_witness :
  fromtag (totag 1 0x4101 300 5 ++ bytes [0xff])
  = Ok (1, 0x4101, 300, 5, len (totag 1 0x4101 300 5)).
Proof. apply fromtag_roundtrip; lia. Defined.

(** [fromtag] raises exactly when fewer than two bytes are left, and then
    IndexError; otherwise the valid bit is 0 or 1, the tag has 15 bits,
    weight and size are 32-bit words, and the header length lies between
    2 and the length of the buffer. *)
Theorem fromtag_cases (data : list byte) :
  match fromtag data with
  | Ok (v, tag, w, size, d) =>
      (2 <= length data)%nat /\ 0 <= v <= 1 /\ 0 <= tag < 2 ^ 15
      /\ 0 <= w < 2 ^ 32 /\ 0 <= size < 2 ^ 32 /\ 2 <= d <= len data
  | Exn e => e = IndexError /\ (length data < 2)%nat
  | Timeout => False
  end.
Proof.
  destruct (fromtag data) as [[[[[v tag] w] size] d]|e|] eqn:E.
  - pose proof (fromtag_bounds _ _ _ _ _ _ E) as (Hd & Hw & Hs).
    pose proof (fromtag_tag_range _ _ _ _ _ _ E) as Ht.
    revert E. unfold fromtag, index.
    destruct data as [|b0 [|b1 rest]]; cbn [nth_error bind];
      try discriminate.
    destruct (fromleb128 (slice_from (b0 :: b1 :: rest) 2)) as [w' d1].
    destruct (fromleb128 (slice_from (b0 :: b1 :: rest) (2 + d1)))
      as [size' d2].
    intros E.
    assert (Hv : v = Z.shiftr (Z.lor (Z.shiftl (b2z b0) 8) (b2z b1)) 15)
      by congruence.
    rewrite valid_bit in Hv. pose proof (b2z_range b0) as H0.
    rewrite Z.shiftr_div_pow2 in Hv by lia.
    assert (0 <= v <= 1).
    { subst v. split; [apply Z.div_pos; lia|].
      apply Z.lt_succ_r. apply Z.div_lt_upper_bound; lia. }
    cbn [length]. repeat split; try lia.
  - revert E. unfold fromtag, index.
    destruct data as [|b0 [|b1 rest]]; cbn [nth_error bind length].
    + intros [= <-]. split; [reflexivity|lia].
    + intros [= <-]. split; [reflexivity|lia].
    + destruct (fromleb128 (slice_from (b0 :: b1 :: rest) 2)) as [w' d1].
      destruct (fromleb128 (slice_from (b0 :: b1 :: rest) (2 + d1))).
      discriminate.
  - exact (fromtag_total data E).
Qed.



(* ===================================================================== *)
(** * More on the node fetcher                                            *)
(* ===================================================================== *)

(** [fetch] always comes to an end, with a node or with an exception: the
    scan moves at least two bytes forward in every round. *)
Theorem fetch_terminates (f : list byte) (block_size : Z)
  (blocks : list addr) (trunk : option Z) :
  Rbyd.fetch f block_size blocks trunk <> Timeout.
Proof. apply fetch_total. Qed.

(** A block in which the scan commits nothing gives, when [fetch]
    returns, the falsy node: trunk 0 and weight 0. *)
Theorem fetch_nothing_committed (f : list byte) (block_size block : Z)
  (trunk : option Z) (r : Rbyd.t) :
  Rbyd.fetch f block_size [Int block] trunk = Ok r ->
  Rbyd.off r = 0 ->
  Rbyd.trunk r = 0 /\ Rbyd.weight r = 0 /\ Rbyd.bool r = false.
Proof. cbn [Rbyd.fetch]. apply fetch_int_uncommitted. Qed.

Lemma fetch_nothing_committed_witness :
  Rbyd.trunk node_torn = 0 /\ Rbyd.weight node_torn = 0
  /\ Rbyd.bool node_torn = false.
Proof.
  apply (fetch_nothing_committed mirror_torn 32 1 None node_torn).
  - vm_compute. reflexivity.
  - reflexivity.
Defined.

Lemma len_read (f : list byte) (block_size block : Z) (data : list byte) :
  Rbyd.read f block_size block = Ok data -> 0 <= len data.
Proof. intros _. apply len_nonneg. Qed.

Ltac in_block_intro H :=
  destruct H as (?Hj & ?Hjl & [?Ho1 ?Ho2] & ?Ht & ?Ht' & ?Hw & ?Hw' & ?Hlo
                 & ?Hup & ?Hto).

Ltac in_block_solve :=
  unfold in_block;
  cbn [Rbyd.fold_header Rbyd.advance s_j_ s_off s_trunk_ s_trunk__ s_weight
         s_weight_ s_lower_ s_upper_ s_trunkoff];
  repeat split; try assumption; try lia.

Lemma scan_step_in_block (data : list byte) (trunk : option Z)
  (s : scan) (c : ctl) :
  in_block data s -> Rbyd.scan_cond data trunk s = true ->
  Rbyd.scan_step data trunk s = Ok c ->
  in_block data (ctl_scan c).
Proof.
  intros Hinv Hc.
  unfold Rbyd.scan_cond in Hc. apply andb_prop in Hc. destruct Hc as [Hc _].
  apply Z.ltb_lt in Hc.
  pose proof (len_nonneg data) as Hlen.
  unfold Rbyd.scan_step.
  destruct (fromtag (slice_from data (s_j_ s)))
    as [[[[[v tag] w] size] d]| |] eqn:Et; cbn [bind]; try discriminate.
  apply fromtag_bounds in Et. destruct Et as (Hd & Hwr & Hsize).
  assert (Hjs : 4 <= s_j_ s) by (destruct Hinv as [H _]; exact H).
  rewrite len_slice_from in Hd by lia.
  destruct (negb (v =? _)).
  { intros [= <-]. exact Hinv. }
  set (s0 := Rbyd.fold_header
               (crc32c (slice data (s_j_ s) (s_j_ s + d)) (s_crc_ s))
               (s_j_ s + d) s).
  assert (H0 : in_block data s0).
  { in_block_intro Hinv. unfold s0. in_block_solve. }
  assert (Hj0 : s_j_ s0 = s_j_ s + d) by reflexivity.
  clearbody s0. clear Hinv.
  destruct ((Z.land tag 0x4000 =? 0) && (s_j_ s0 + size >? len data))
    eqn:Efit.
  { intros [= <-]. exact H0. }
  assert (Hfit : (Z.land tag 0x4000 =? 0) = true ->
                 s_j_ s0 + size <= len data).
  { intros H4. rewrite H4 in Efit. cbn [andb] in Efit.
    rewrite Z.gtb_ltb in Efit. apply Z.ltb_ge in Efit. exact Efit. }
  clear Efit.
  destruct (Rbyd.scan_crcs data tag size s0) as [s1|] eqn:Ec.
  2:{ intros [= <-]. exact H0. }
  assert (H1 : in_block data s1 /\ s_j_ s1 = s_j_ s0).
  { revert Ec. unfold Rbyd.scan_crcs.
    destruct (Z.land tag 0x4000 =? 0) eqn:E4.
    2:{ intros [= <-]. split; [exact H0|reflexivity]. }
    specialize (Hfit eq_refl).
    destruct (negb (Z.land tag 0x7f00 =? TAG_CRC)).
    { intros [= <-]. split; [|reflexivity].
      in_block_intro H0. in_block_solve. }
    destruct (negb (s_crc_ s0 =? _)); [discriminate|].
    intros [= <-]. split; [|reflexivity].
    in_block_intro H0. in_block_solve.
    - destruct (s_trunkoff s0) as [o|]; cbn [truthy value].
      + destruct (negb (o =? 0)); lia.
      + lia.
    - destruct (s_trunkoff s0) as [o|]; cbn [truthy value].
      + destruct (negb (o =? 0)); lia.
      + lia. }
  destruct H1 as [H1 Hj1].
  assert (H2 : in_block data (Rbyd.scan_trunks trunk tag w size d s1)).
  { assert (Hnew : a_trunk data (s_j_ s1 - d)) by (right; lia).
    unfold Rbyd.scan_trunks.
    destruct (_ && _); [|exact H1].
    in_block_intro H1.
    destruct (negb (s_wastrunk s1));
      destruct (Z.land tag 0x4000 =? 0) eqn:E4; cbn [negb];
      try destruct (negb (Z.land tag 0x2000 =? 0));
      in_block_solve;
      try (destruct (truthy trunk && _); [specialize (Hfit eq_refl); lia
                                         |assumption]). }
  pose proof (scan_trunks_j_ trunk tag w size d s1) as Hj2.
  intros [= <-]. cbn [ctl_scan].
  destruct (Z.land tag 0x4000 =? 0) eqn:E4; [|exact H2].
  specialize (Hfit eq_refl).
  in_block_intro H2. in_block_solve.
Qed.

Lemma scan_loop_in_block (fuel : nat) :
  forall (data : list byte) (trunk : option Z) (s s' : scan),
    in_block data s ->
    Rbyd.scan_loop fuel data trunk s = Ok s' ->
    in_block data s'.
Proof.
  induction fuel as [|fuel IH]; intros data trunk s s' Hs;
    cbn [Rbyd.scan_loop];
    destruct (Rbyd.scan_cond data trunk s) eqn:Hc;
    try discriminate; try (intros [= <-]; exact Hs).
  destruct (Rbyd.scan_step data trunk s) as [c| |] eqn:Es; cbn [bind];
    try discriminate.
  pose proof (scan_step_in_block _ _ _ _ Hs Hc Es) as Hin.
  destruct c as [s1|s1]; cbn [ctl_scan] in Hin.
  - apply IH. exact Hin.
  - intros [= <-]. exact Hin.
Qed.

Lemma fromtag_ok (data : list byte) :
  (2 <= length data)%nat -> exists h, fromtag data = Ok h.
Proof.
  intros Hl. destruct data as [|b0 [|b1 rest]]; cbn [length] in Hl; try lia.
  unfold fromtag, index. cbn [nth_error bind].
  destruct (fromleb128 (slice_from (b0 :: b1 :: rest) 2)) as [w d1].
  destruct (fromleb128 (slice_from (b0 :: b1 :: rest) (2 + d1)))
    as [size d2].
  eexists. reflexivity.
Qed.

Lemma fetch_int_in_block (f : list byte) (block_size block : Z)
  (trunk : option Z) (r : Rbyd.t) :
  Rbyd.fetch_int f block_size block trunk = Ok r ->
  0 <= Rbyd.weight r
  /\ 0 <= Rbyd.off r <= len (Rbyd.data r)
  /\ a_trunk (Rbyd.data r) (Rbyd.trunk r).
Proof.
  unfold Rbyd.fetch_int.
  destruct (Rbyd.read f block_size block) as [data| |]; cbn [bind];
    try discriminate.
  destruct (Rbyd.scan_loop _ data trunk _) as [s| |] eqn:Es; cbn [bind];
    try discriminate.
  intros [= <-]. cbn [Rbyd.off Rbyd.trunk Rbyd.weight Rbyd.data].
  pose proof (len_nonneg data) as Hl.
  apply scan_loop_in_block in Es.
  - in_block_intro Es. repeat split; try assumption; lia.
  - unfold in_block, Rbyd.scan_init, a_trunk.
    cbn [s_j_ s_off s_trunk_ s_trunk__ s_weight s_weight_ s_lower_ s_upper_
      s_trunkoff].
    repeat split; try lia; auto.
Qed.

(** What [select] returns is one of the nodes it is given, up to the
    siblings it records. *)
Lemma select_in (rbyds : list Rbyd.t) (r : Rbyd.t) :
  Rbyd.select rbyds = Ok r ->
  exists r0, In r0 rbyds /\ r = with_others r0 (Rbyd.other_blocks r).
Proof.
  unfold Rbyd.select.
  destruct (nth_error rbyds _) as [r0|] eqn:E; [|discriminate].
  intros [= <-]. exists r0. split; [|reflexivity].
  eapply nth_error_In. exact E.
Qed.

Lemma fetch_all_in {A : Type} (fetch1 : A -> result Rbyd.t)
  (blocks : list A) (rbyds : list Rbyd.t) (r : Rbyd.t) :
  Rbyd.fetch_all fetch1 blocks = Ok rbyds -> In r rbyds ->
  exists b, In b blocks /\ fetch1 b = Ok r.
Proof.
  revert rbyds. induction blocks as [|b blocks IH]; intros rbyds;
    cbn [Rbyd.fetch_all].
  - intros [= <-] [].
  - destruct (fetch1 b) as [r1| |] eqn:E1; cbn [bind]; try discriminate.
    destruct (Rbyd.fetch_all fetch1 blocks) as [rs| |]; cbn [bind];
      try discriminate.
    intros [= <-] [<-|Hin].
    + exists b. split; [left; reflexivity|exact E1].
    + destruct (IH rs eq_refl Hin) as (b' & Hb' & E').
      exists b'. split; [right; exact Hb'|exact E'].
Qed.

(** Every node [fetch] returns is the node of one block, read on its own,
    with its siblings recorded. *)
Lemma fetch_from_int (f : list byte) (block_size : Z) (blocks : list addr)
  (trunk : option Z) (r : Rbyd.t) :
  Rbyd.fetch f block_size blocks trunk = Ok r ->
  exists b t r0,
    Rbyd.fetch_int f block_size b t = Ok r0
    /\ r = with_others r0 (Rbyd.other_blocks r).
Proof.
  assert (Hint : forall b t r0,
    Rbyd.fetch_int f block_size b t = Ok r0 ->
    exists b' t' r1, Rbyd.fetch_int f block_size b' t' = Ok r1
                     /\ r0 = with_others r1 (Rbyd.other_blocks r0)).
  { intros b t r0 H. exists b, t, r0. split; [exact H|].
    destruct r0; reflexivity. }
  assert (Hpair : forall b b' t r0,
    Rbyd.fetch_pair f block_size b b' t = Ok r0 ->
    exists b1 t1 r1, Rbyd.fetch_int f block_size b1 t1 = Ok r1
                     /\ r0 = with_others r1 (Rbyd.other_blocks r0)).
  { intros b b' t r0. unfold Rbyd.fetch_pair.
    destruct (Rbyd.fetch_all _ [b; b']) as [rs| |] eqn:Ea; cbn [bind];
      try discriminate.
    intros Hs. destruct (select_in _ _ Hs) as (r1 & Hin & Hr).
    destruct (fetch_all_in _ _ _ _ Ea Hin) as (b1 & _ & E1).
    exists b1, t, r1. split; assumption. }
  assert (Hall : forall l,
    (rbyds <- Rbyd.fetch_all (Rbyd.fetch_elem f block_size trunk) l ;;
     Rbyd.select rbyds) = Ok r ->
    exists b t r0, Rbyd.fetch_int f block_size b t = Ok r0
                   /\ r = with_others r0 (Rbyd.other_blocks r)).
  { intros l.
    destruct (Rbyd.fetch_all _ l) as [rs| |] eqn:Ea; cbn [bind];
      try discriminate.
    intros Hs. destruct (select_in _ _ Hs) as (r1 & Hin & Hr).
    destruct (fetch_all_in _ _ _ _ Ea Hin) as (a & _ & E1).
    destruct a as [b|b b']; cbn [Rbyd.fetch_elem] in E1.
    - exists b, trunk, r1. split; assumption.
    - destruct (Hpair _ _ _ _ E1) as (b1 & t1 & r2 & E2 & Hr2).
      exists b1, t1, r2. split; [exact E2|].
      rewrite Hr, Hr2. reflexivity. }
  unfold Rbyd.fetch.
  destruct blocks as [|[b|b t] [|b2 blocks]]; try discriminate;
    try apply Hall; apply Hint.
Qed.

(** The node [fetch] returns stays inside its block: the weight is not
    negative, the committed offset is at most the length of the data, and
    the trunk is 0 or the offset, from 4 on, of a tag whose header
    decodes, so that the search of a non-empty node can start. *)
Theorem fetch_in_block (f : list byte) (block_size : Z)
  (blocks : list addr) (trunk : option Z) (r : Rbyd.t) :
  Rbyd.fetch f block_size blocks trunk = Ok r ->
  0 <= Rbyd.weight r
  /\ 0 <= Rbyd.off r <= len (Rbyd.data r)
  /\ (Rbyd.trunk r = 0
      \/ (4 <= Rbyd.trunk r /\ Rbyd.trunk r + 2 <= len (Rbyd.data r)))
  /\ (Rbyd.bool r = true ->
      exists h, fromtag (slice_from (Rbyd.data r) (Rbyd.trunk r)) = Ok h).
Proof.
  intros Hf. destruct (fetch_from_int _ _ _ _ _ Hf) as (b & t & r0 & E & Hr).
  destruct (fetch_int_in_block _ _ _ _ _ E) as (Hw & Ho & Ht).
  rewrite Hr. cbn [with_others Rbyd.weight Rbyd.off Rbyd.trunk Rbyd.data].
  split; [exact Hw|]. split; [exact Ho|]. split; [exact Ht|].
  unfold Rbyd.bool. cbn [with_others Rbyd.trunk]. intros Hb.
  destruct Ht as [Ht|[Ht1 Ht2]].
  - rewrite Ht in Hb. discriminate.
  - apply fromtag_ok.
    assert (Hl : len (slice_from (Rbyd.data r0) (Rbyd.trunk r0))
                 = len (Rbyd.data r0) - Rbyd.trunk r0)
      by (apply len_slice_from; lia).
    unfold len in *. lia.
Qed.

Lemma fetch_in_block_witness :
  0 <= Rbyd.weight node_demo
  /\ 0 <= Rbyd.off node_demo <= len (Rbyd.data node_demo)
  /\ (Rbyd.trunk node_demo = 0
      \/ (4 <= Rbyd.trunk node_demo
          /\ Rbyd.trunk node_demo + 2 <= len (Rbyd.data node_demo)))
  /\ (Rbyd.bool node_demo = true ->
      exists h,
        fromtag (slice_from (Rbyd.data node_demo) (Rbyd.trunk node_demo))
        = Ok h).
Proof.
  apply (fetch_in_block block_demo 64 [Int 0] None node_demo).
  vm_compute. reflexivity.
Defined.

Lemma scan_step_below (data : list byte) (t : Z) (s : scan) (c : ctl) :
  0 < t -> below t s ->
  Rbyd.scan_step data (Some t) s = Ok c ->
  below t (ctl_scan c).
Proof.
  intros Ht [H1 H2]. unfold Rbyd.scan_step.
  destruct (fromtag (slice_from data (s_j_ s)))
    as [[[[[v tag] w] size] d]| |]; cbn [bind]; try discriminate.
  destruct (negb (v =? _)); [intros [= <-]; split; assumption|].
  destruct (_ && _); [intros [= <-]; split; assumption|].
  destruct (Rbyd.scan_crcs data tag size _) as [s1|] eqn:Ec;
    [|intros [= <-]; split; assumption].
  assert (Hs1 : below t s1).
  { revert Ec. unfold Rbyd.scan_crcs.
    cbn [Rbyd.fold_header s_j_ s_crc_ s_crc s_off s_trunk_ s_trunk__
      s_weight s_lower_ s_upper_ s_weight_ s_wastrunk s_trunkoff].
    destruct (Z.land tag 0x4000 =? 0); [|intros [= <-]; split; assumption].
    destruct (negb (Z.land tag 0x7f00 =? TAG_CRC));
      [intros [= <-]; split; assumption|].
    destruct (negb (_ =? _)); [discriminate|].
    intros [= <-]. split; assumption. }
  assert (Hs2 : below t (Rbyd.scan_trunks (Some t) tag w size d s1)).
  { destruct Hs1 as [H1' H2']. unfold Rbyd.scan_trunks.
    cbn [truthy value].
    assert (Hne : negb (t =? 0) = true).
    { apply negb_true_iff, Z.eqb_neq. lia. }
    rewrite Hne. cbn [negb orb].
    destruct (negb (Z.land tag 0x6000 =? 0x2000)); cbn [andb];
      [|split; assumption].
    destruct (s_wastrunk s1) eqn:Ew; cbn [negb].
    - rewrite orb_true_r.
      destruct (Z.land tag 0x4000 =? 0); cbn [negb];
        try destruct (negb (Z.land tag 0x2000 =? 0));
        split; assumption.
    - rewrite orb_false_r.
      destruct (t >=? s_j_ s1 - d) eqn:Eg; [|split; assumption].
      rewrite Z.geb_leb in Eg. apply Z.leb_le in Eg.
      destruct (Z.land tag 0x4000 =? 0); cbn [negb];
        try destruct (negb (Z.land tag 0x2000 =? 0));
        split; cbn [s_trunk_ s_trunk__]; assumption. }
  intros [= <-]. cbn [ctl_scan].
  destruct (Z.land tag 0x4000 =? 0); [|exact Hs2].
  destruct Hs2 as [H1' H2']. split; assumption.
Qed.

Lemma scan_loop_below (fuel : nat) :
  forall (data : list byte) (t : Z) (s s' : scan),
    0 < t -> below t s ->
    Rbyd.scan_loop fuel data (Some t) s = Ok s' ->
    below t s'.
Proof.
  induction fuel as [|fuel IH]; intros data t s s' Ht Hs;
    cbn [Rbyd.scan_loop];
    destruct (Rbyd.scan_cond data (Some t) s);
    try discriminate; try (intros [= <-]; exact Hs).
  destruct (Rbyd.scan_step data (Some t) s) as [c| |] eqn:Es; cbn [bind];
    try discriminate.
  pose proof (scan_step_below _ _ _ _ Ht Hs Es) as Hin.
  destruct c as [s1|s1]; cbn [ctl_scan] in Hin.
  - apply IH; assumption.
  - intros [= <-]. exact Hin.
Qed.

Lemma fetch_int_below (f : list byte) (block_size b t : Z) (r : Rbyd.t) :
  0 < t -> Rbyd.fetch_int f block_size b (Some t) = Ok r ->
  Rbyd.trunk r <= t.
Proof.
  intros Ht. unfold Rbyd.fetch_int.
  destruct (Rbyd.read f block_size b) as [data| |]; cbn [bind];
    try discriminate.
  destruct (Rbyd.scan_loop _ data (Some t) _) as [s| |] eqn:Es; cbn [bind];
    try discriminate.
  intros [= <-]. cbn [Rbyd.trunk].
  apply scan_loop_below in Es; [destruct Es as [H _]; exact H|exact Ht|].
  split; cbn; lia.
Qed.

(** With a trunk argument, every block of every address is read with that
    argument. *)
Lemma fetch_from_int_trunk (f : list byte) (block_size : Z)
  (blocks : list addr) (t : Z) (r : Rbyd.t) :
  Rbyd.fetch f block_size blocks (Some t) = Ok r ->
  exists b r0,
    Rbyd.fetch_int f block_size b (Some t) = Ok r0
    /\ r = with_others r0 (Rbyd.other_blocks r).
Proof.
  assert (Hint : forall b r0,
    Rbyd.fetch_int f block_size b (Some t) = Ok r0 ->
    exists b' r1, Rbyd.fetch_int f block_size b' (Some t) = Ok r1
                  /\ r0 = with_others r1 (Rbyd.other_blocks r0)).
  { intros b r0 H. exists b, r0. split; [exact H|].
    destruct r0; reflexivity. }
  assert (Hpair : forall b b' r0,
    Rbyd.fetch_pair f block_size b b' (Some t) = Ok r0 ->
    exists b1 r1, Rbyd.fetch_int f block_size b1 (Some t) = Ok r1
                  /\ r0 = with_others r1 (Rbyd.other_blocks r0)).
  { intros b b' r0. unfold Rbyd.fetch_pair.
    destruct (Rbyd.fetch_all _ [b; b']) as [rs| |] eqn:Ea; cbn [bind];
      try discriminate.
    intros Hs. destruct (select_in _ _ Hs) as (r1 & Hin & Hr).
    destruct (fetch_all_in _ _ _ _ Ea Hin) as (b1 & _ & E1).
    exists b1, r1. split; assumption. }
  assert (Hall : forall l,
    (rbyds <- Rbyd.fetch_all (Rbyd.fetch_elem f block_size (Some t)) l ;;
     Rbyd.select rbyds) = Ok r ->
    exists b r0, Rbyd.fetch_int f block_size b (Some t) = Ok r0
                 /\ r = with_others r0 (Rbyd.other_blocks r)).
  { intros l.
    destruct (Rbyd.fetch_all _ l) as [rs| |] eqn:Ea; cbn [bind];
      try discriminate.
    intros Hs. destruct (select_in _ _ Hs) as (r1 & Hin & Hr).
    destruct (fetch_all_in _ _ _ _ Ea Hin) as (a & _ & E1).
    destruct a as [b|b b']; cbn [Rbyd.fetch_elem] in E1.
    - exists b, r1. split; assumption.
    - destruct (Hpair _ _ _ E1) as (b1 & r2 & E2 & Hr2).
      exists b1, r2. split; [exact E2|].
      rewrite Hr, Hr2. reflexivity. }
  unfold Rbyd.fetch.
  destruct blocks as [|[b|b t'] [|b2 blocks]]; try discriminate;
    try apply Hall; apply Hint.
Qed.

(** When a trunk offset [t > 0] is passed as the trunk argument, the node
    returned has its trunk at or before [t], whatever the list of
    addresses: one block, several mirrors, tuples. The same holds when no
    trunk argument is passed and the list is the one address
    [(b, t)]. *)
Theorem fetch_requested_trunk (f : list byte) (block_size t : Z)
  (blocks : list addr) (r : Rbyd.t) :
  0 < t ->
  Rbyd.fetch f block_size blocks (Some t) = Ok r
  \/ (exists b, blocks = [Tuple b t]
                /\ Rbyd.fetch f block_size blocks None = Ok r) ->
  Rbyd.trunk r <= t.
Proof.
  intros Ht [H|(b & -> & H)].
  - destruct (fetch_from_int_trunk _ _ _ _ _ H) as (b & r0 & E & ->).
    cbn [with_others Rbyd.trunk].
    exact (fetch_int_below _ _ _ _ _ Ht E).
  - exact (fetch_int_below _ _ _ _ _ Ht H).
Qed.

Lemma fetch_requested_trunk_witness :
  Rbyd.fetch file_tree 64 [Int 0; Int 1] (Some 20) = Ok node_demo_at20
  /\ Rbyd.trunk node_demo_at20 <= 20.
Proof.
  assert (H : Rbyd.fetch file_tree 64 [Int 0; Int 1] (Some 20)
              = Ok node_demo_at20) by (vm_compute; reflexivity).
  split; [exact H|].
  apply (fetch_requested_trunk file_tree 64 20 [Int 0; Int 1]
           node_demo_at20).
  - lia.
  - left. exact H.
Defined.




(* ===================================================================== *)
(** * More on mirrored blocks                                             *)
(* ===================================================================== *)

(** Two mirrors with the same revision: the sequence comparison holds for
    a difference of 0, so the one listed second is returned whenever it
    is non-empty, and the trunks are not compared. *)
Theorem fetch_mirror_equal_rev (f : list byte) (block_size a b : Z)
  (trunk : option Z) (ra rb : Rbyd.t) :
  Rbyd.fetch_int f block_size a trunk = Ok ra ->
  Rbyd.fetch_int f block_size b trunk = Ok rb ->
  Rbyd.rev ra = Rbyd.rev rb -> Rbyd.bool rb = true ->
  Rbyd.fetch f block_size [Int a; Int b] trunk = Ok (with_others rb [a]).
Proof.
  intros Ha Hb Hrev Htrue.
  destruct (fetch_int_fields _ _ _ _ _ Ha) as (Hba & _).
  rewrite (fetch_pair_ints _ _ _ _ _ _ _ Ha Hb).
  rewrite select_equal_rev by assumption. rewrite Hba. reflexivity.
Qed.

Lemma fetch_mirror_equal_rev_witness :
  Rbyd.fetch mirror_eq 32 [Int 0; Int 1] None = Ok (with_others node_b7 [0]).
Proof.
  apply (fetch_mirror_equal_rev mirror_eq 32 0 1 None node_a7 node_b7);
    vm_compute; reflexivity.
Defined.

Lemma most_recent_spec (rbyds : list Rbyd.t) :
  forall rest i_ i,
    rest = skipn i_ rbyds -> (i < length rbyds)%nat ->
    let k := Rbyd.most_recent rbyds rest i_ i in
    (k < length rbyds)%nat
    /\ (k = i \/ exists r, nth_error rbyds k = Some r
                           /\ Rbyd.bool r = true).
Proof.
  induction rest as [|rbyd rest IH]; intros i_ i Hrest Hi;
    cbn [Rbyd.most_recent].
  - split; [exact Hi|left; reflexivity].
  - assert (Hnth : nth_error rbyds i_ = Some rbyd).
    { rewrite <- (Nat.add_0_r i_). rewrite <- nth_error_skipn.
      rewrite <- Hrest. reflexivity. }
    assert (Hlt : (i_ < length rbyds)%nat).
    { apply nth_error_Some. congruence. }
    assert (Hrest' : rest = skipn (S i_) rbyds).
    { replace (S i_) with (1 + i_)%nat by lia. rewrite <- skipn_skipn.
      rewrite <- Hrest. reflexivity. }
    destruct (Rbyd.bool rbyd && _) eqn:Ec.
    + destruct (IH (S i_) i_ Hrest' Hlt) as [Hk [Hk'|Hk']].
      * split; [exact Hk|]. right. rewrite Hk'. exists rbyd.
        split; [exact Hnth|]. apply andb_prop in Ec. tauto.
      * split; [exact Hk|]. right. exact Hk'.
    + exact (IH (S i_) i Hrest' Hi).
Qed.

Lemma map_nth_error_seq {A : Type} (g : A -> Z) (l : list A) :
  map (fun j => match nth_error l j with Some r => g r | None => 0 end)
      (seq 0 (length l))
  = map g l.
Proof.
  induction l as [|a l IH]; [reflexivity|].
  cbn [length seq map nth_error]. f_equal.
  rewrite <- seq_shift, map_map. exact IH.
Qed.

Lemma nth_error_rotate {A : Type} (l : list A) (i k : nat) :
  (i < length l)%nat -> (k < length l)%nat ->
  nth_error (skipn i l ++ firstn i l) k
  = nth_error l ((i + k) mod length l).
Proof.
  intros Hi Hk. destruct (Nat.lt_ge_cases k (length l - i)) as [H|H].
  - rewrite nth_error_app1 by (rewrite length_skipn; exact H).
    rewrite nth_error_skipn. rewrite Nat.mod_small by lia. reflexivity.
  - rewrite nth_error_app2 by (rewrite length_skipn; exact H).
    rewrite length_skipn. rewrite nth_error_firstn.
    destruct (Nat.ltb_spec (k - (length l - i)) i); [|lia].
    f_equal. apply (Nat.mod_unique _ _ 1); lia.
Qed.

Lemma others_rotate (rbyds : list Rbyd.t) (i : nat) :
  (i < length rbyds)%nat ->
  Rbyd.others rbyds i
  = tl (map Rbyd.block (skipn i rbyds ++ firstn i rbyds)).
Proof.
  intros Hi. unfold Rbyd.others.
  set (rot := skipn i rbyds ++ firstn i rbyds).
  assert (Hlen : length rot = length rbyds).
  { unfold rot. rewrite length_app, length_skipn, length_firstn. lia. }
  destruct rot as [|r0 rot'] eqn:Er; [cbn in Hlen; lia|].
  cbn [map tl]. rewrite <- (map_nth_error_seq Rbyd.block rot').
  cbn [length] in Hlen.
  replace (length rbyds - 1)%nat with (length rot') by lia.
  apply map_ext_in. intros j Hj. apply in_seq in Hj.
  replace (i + 1 + j)%nat with (i + S j)%nat by lia.
  rewrite <- nth_error_rotate by lia. fold rot. rewrite Er. reflexivity.
Qed.

Lemma fetch_all_ints (f : list byte) (block_size : Z) (trunk : option Z)
  (bl : list Z) :
  Rbyd.fetch_all (Rbyd.fetch_elem f block_size trunk) (map Int bl)
  = Rbyd.fetch_all (fun b => Rbyd.fetch_int f block_size b trunk) bl.
Proof.
  induction bl as [|b bl IH]; [reflexivity|].
  cbn [map Rbyd.fetch_all Rbyd.fetch_elem]. rewrite IH. reflexivity.
Qed.

Lemma fetch_all_blocks (f : list byte) (block_size : Z) (trunk : option Z) :
  forall (bl : list Z) (rbyds : list Rbyd.t),
    Rbyd.fetch_all (fun b => Rbyd.fetch_int f block_size b trunk) bl
    = Ok rbyds ->
    map Rbyd.block rbyds = bl.
Proof.
  induction bl as [|b bl IH]; intros rbyds; cbn [Rbyd.fetch_all].
  - intros [= <-]. reflexivity.
  - destruct (Rbyd.fetch_int f block_size b trunk) as [r| |] eqn:E;
      cbn [bind]; try discriminate.
    destruct (Rbyd.fetch_all _ bl) as [rs| |]; cbn [bind];
      try discriminate.
    intros [= <-]. cbn [map]. rewrite (IH rs eq_refl).
    destruct (fetch_int_fields _ _ _ _ _ E) as (-> & _). reflexivity.
Qed.

(** Several mirrors, given as ints, each of which can be fetched: the
    fetch returns one of their nodes, say the one at index [i] of the
    list; its block followed by the siblings recorded on it is the list
    of addresses started at [i] and wrapped around; and a mirror other
    than the first listed is only returned when it is non-empty. *)
Theorem fetch_mirrors (f : list byte) (block_size : Z) (bl : list Z)
  (trunk : option Z) (rbyds : list Rbyd.t) :
  (2 <= length bl)%nat ->
  Rbyd.fetch_all (fun b => Rbyd.fetch_int f block_size b trunk) bl
  = Ok rbyds ->
  exists i r0 r,
    nth_error rbyds i = Some r0
    /\ Rbyd.fetch f block_size (map Int bl) trunk = Ok r
    /\ r = with_others r0 (Rbyd.other_blocks r)
    /\ Rbyd.block r :: Rbyd.other_blocks r = skipn i bl ++ firstn i bl
    /\ (i <> 0%nat -> Rbyd.bool r = true).
Proof.
  intros Hlen Hall.
  pose proof (fetch_all_blocks _ _ _ _ _ Hall) as Hblocks.
  assert (Hn : length rbyds = length bl)
    by (rewrite <- Hblocks, length_map; reflexivity).
  assert (Hfetch : Rbyd.fetch f block_size (map Int bl) trunk
                   = Rbyd.select rbyds).
  { destruct bl as [|b1 [|b2 bl']]; cbn [length] in Hlen; try lia.
    change (Rbyd.fetch f block_size (map Int (b1 :: b2 :: bl')) trunk)
      with (rbyds <- Rbyd.fetch_all (Rbyd.fetch_elem f block_size trunk)
                       (map Int (b1 :: b2 :: bl')) ;;
            Rbyd.select rbyds).
    rewrite fetch_all_ints, Hall. reflexivity. }
  destruct (most_recent_spec rbyds rbyds 0 0 eq_refl ltac:(lia))
    as [Hk Hsel].
  set (i := Rbyd.most_recent rbyds rbyds 0 0) in *.
  destruct (nth_error rbyds i) as [r0|] eqn:Enth.
  2:{ apply nth_error_None in Enth. lia. }
  exists i, r0, (with_others r0 (Rbyd.others rbyds i)).
  split; [exact Enth|]. split.
  { rewrite Hfetch. unfold Rbyd.select. fold i. rewrite Enth. reflexivity. }
  split; [reflexivity|]. split.
  - cbn [with_others Rbyd.block Rbyd.other_blocks].
    rewrite others_rotate by exact Hk.
    rewrite <- Hblocks. rewrite skipn_map, firstn_map, <- map_app.
    destruct (skipn i rbyds ++ firstn i rbyds) as [|r1 rot] eqn:Er.
    + exfalso. apply (f_equal (@length _)) in Er.
      rewrite length_app, length_skipn, length_firstn in Er.
      cbn in Er. lia.
    + cbn [map tl]. f_equal.
      assert (H0 : nth_error (skipn i rbyds ++ firstn i rbyds) 0 = Some r0).
      { rewrite nth_error_rotate by lia. rewrite Nat.add_0_r.
        rewrite Nat.mod_small by lia. exact Enth. }
      rewrite Er in H0. cbn in H0. congruence.
  - intros Hne. destruct Hsel as [H0|(r' & Hr' & Hb')]; [lia|].
    unfold Rbyd.bool. cbn [with_others Rbyd.trunk].
    injection Hr' as <-. exact Hb'.
Qed.

Lemma fetch_mirrors_witness :
  exists i r0 r,
    nth_error [node_a7; node_b7] i = Some r0
    /\ Rbyd.fetch mirror_eq 32 (map Int [0; 1]) None = Ok r
    /\ r = with_others r0 (Rbyd.other_blocks r)
    /\ Rbyd.block r :: Rbyd.other_blocks r = skipn i [0; 1] ++ firstn i [0; 1]
    /\ (i <> 0%nat -> Rbyd.bool r = true).
Proof.
  apply (fetch_mirrors mirror_eq 32 [0; 1] None [node_a7; node_b7]).
  - cbn. lia.
  - vm_compute. reflexivity.
Defined.

(* ===================================================================== *)
(** * More on the node searcher                                           *)
(* ===================================================================== *)

(** On every node, when [lookup] does not report done, what it found is
    at or above the (id, tag) asked for and is not a removed tag. *)
Theorem lookup_found_above (fuel : nat) (self : Rbyd.t) (id tag : Z)
  (id' tag' w j d : Z) (data : list byte) (path : list Rbyd.edge) :
  Rbyd.lookup fuel self id tag = Ok (false, id', tag', w, j, d, data, path) ->
  kle (id, tag) (id', tag') /\ Z.land tag' 0x1000 = 0.
Proof.
  intros H. split; [eapply lookup_not_done; exact H|].
  revert H. unfold Rbyd.lookup. destruct (negb (Rbyd.bool self));
    [discriminate|].
  generalize (-1) (Rbyd.weight self) (Rbyd.trunk self) (@nil Rbyd.edge).
  induction fuel as [|fuel IH]; intros lower upper j0 path0;
    cbn [Rbyd.lookup_loop]; [discriminate|].
  destruct (fromtag (slice_from (Rbyd.data self) j0))
    as [[[[[v alt] weight_] jump] d0]| |]; cbn [bind]; try discriminate.
  destruct (negb (Z.land alt 0x4000 =? 0)).
  - destruct (Rbyd.follows id tag lower upper alt weight_);
      destruct (Rbyd.alt_color self alt _); cbn [bind]; try discriminate;
      apply IH.
  - intros E.
    assert (Hd : Rbyd.pair_ltb (upper - 1, alt) (id, tag)
                 || negb (Z.land alt 0x1000 =? 0) = false) by congruence.
    assert (Ht : tag' = alt) by congruence. subst tag'.
    apply orb_false_elim in Hd. destruct Hd as [_ Hd].
    apply negb_false_iff in Hd. apply Z.eqb_eq in Hd. exact Hd.
Qed.

Lemma lookup_found_above_witness :
  kle (1, 1) (1, 0x101) /\ Z.land 0x101 0x1000 = 0.
Proof.
  apply (lookup_found_above 10 node_demo 1 1 1 0x101 1 22 4 (bytes [98])
           [(27, 31, false, B); (31, 22, true, R)]).
  vm_compute. reflexivity.
Defined.

(** On every node and after any number of rounds, the entries that
    [__iter__] has yielded are in strictly increasing (id, tag) order. *)
Theorem iter_sorted (fuel n : nat) (self : Rbyd.t) :
  increasing (fst (Rbyd.iter fuel n self)).
Proof. apply iter_increasing. Qed.



Lemma increasing_after (pre post : list Rbyd.entry) (e : Rbyd.entry) :
  increasing (pre ++ e :: post) ->
  Forall (fun b => klt (key e) (key b)) post.
Proof.
  unfold increasing. induction pre as [|a pre IH]; cbn [app]; intros H.
  - inversion H; assumption.
  - inversion H; auto.
Qed.



(* ===================================================================== *)
(** * The tree descender on well-formed trees                             *)
(* ===================================================================== *)

Lemma wf_looks_up (self : Rbyd.t) (es : list Rbyd.entry) :
  wf_node self es -> exists n, looks_up self es n.
Proof.
  intros (Hb & Hs & _).
  destruct (lookup_loop_shape _ _ _ _ _ Hs) as [n Hn].
  exists n. intros fuel id tag Hfuel Hq.
  unfold Rbyd.lookup. rewrite Hb. cbn [negb].
  exact (Hn fuel id tag [] Hfuel Hq).
Qed.

Lemma seek_some (rid : Z) (es : list Rbyd.entry) (e0 : Rbyd.entry)
  (r : list Rbyd.entry) :
  seek rid es = Some (e0, r) ->
  exists pre rest,
    es = pre ++ e0 :: rest
    /\ Forall (fun a => eid a < rid) pre
    /\ rid <= eid e0 /\ r = run (eid e0) rest.
Proof.
  induction es as [|a es IH]; cbn [seek]; [discriminate|].
  destruct (rid <=? eid a) eqn:E.
  - intros [= <- <-]. exists [], es. apply Z.leb_le in E.
    repeat split; [constructor|exact E].
  - intros H. destruct (IH H) as (pre & rest & -> & Hpre & He & Hr).
    exists (a :: pre), rest. apply Z.leb_gt in E.
    repeat split; [constructor; assumption|exact He|exact Hr].
Qed.

Lemma seek_none (rid : Z) (es : list Rbyd.entry) :
  seek rid es = None -> Forall (fun a => eid a < rid) es.
Proof.
  induction es as [|a es IH]; cbn [seek]; [constructor|].
  destruct (rid <=? eid a) eqn:E; [discriminate|].
  intros H. apply Z.leb_gt in E. constructor; [exact E|exact (IH H)].
Qed.

Lemma increasing_before (pre post : list Rbyd.entry) (e : Rbyd.entry) :
  increasing (pre ++ e :: post) ->
  Forall (fun b => klt (key b) (key e)) pre.
Proof.
  unfold increasing. induction pre as [|a pre IH]; cbn [app]; intros H.
  - constructor.
  - inversion H as [|a' l' Hl Hall]; subst. constructor; [|exact (IH Hl)].
    rewrite Forall_forall in Hall. apply Hall. apply in_elt.
Qed.

(** After the first round, [collect] gathers the entries that follow
    with the same id. *)
Lemma collect_run (self : Rbyd.t) (es : list Rbyd.entry) (n : nat) :
  looks_up self es n -> increasing es ->
  Forall (fun e => 0 <= etag e < 0xfff) es ->
  forall rest pre e fuel i w tags branch,
    es = pre ++ e :: rest -> (n + length rest < fuel)%nat -> i <> 0%nat ->
    collect fuel self i (eid e) (etag e) w tags branch
    = Ok (eid e, w, tags ++ map tagent_of (run (eid e) rest),
          find_branch (map tagent_of (run (eid e) rest)) branch).
Proof.
  intros Hlook Hinc Htags.
  induction rest as [|e' rest IH];
    intros pre e fuel i w tags branch Hes Hfuel Hi;
    (destruct fuel as [|fuel]; [lia|]); cbn [collect].
  - assert (Hin : In e es) by (rewrite Hes; apply in_elt).
    rewrite Forall_forall in Htags. pose proof (Htags e Hin) as Htag.
    destruct (Hlook (S fuel) (eid e) (etag e + 1) ltac:(lia) ltac:(lia))
      as (e1 & path & Hp & Hl).
    rewrite Hl.
    assert (He1 : e1 = e).
    { unfold pick in Hp. rewrite first_ge_none in Hp.
      - rewrite Hes, last_entry_app in Hp by discriminate.
        cbn in Hp. congruence.
      - rewrite Hes. apply Forall_app. split.
        + pose proof Hinc as Hb. rewrite Hes in Hb.
          apply increasing_before in Hb.
          eapply Forall_impl; [|exact Hb]. intros a Ha. cbn beta in Ha.
          unfold klt, eid, etag in *. cbn [fst snd] in *. lia.
        + constructor; [|constructor].
          unfold klt, eid, etag. cbn [fst snd]. lia. }
    subst e1.
    assert (Hd : Rbyd.pair_ltb (key e) (eid e, etag e + 1) = true).
    { apply pair_ltb_spec. unfold klt, eid, etag. cbn [fst snd]. lia. }
    rewrite Hd. destruct e as [[[[[id0 tag0] w0] j0] d0] data0].
    cbn. rewrite app_nil_r. reflexivity.
  - assert (Hin : In e es) by (rewrite Hes; apply in_elt).
    pose proof Htags as Htags'.
    rewrite Forall_forall in Htags'. pose proof (Htags' e Hin) as Htag.
    destruct (Hlook (S fuel) (eid e) (etag e + 1) ltac:(cbn in Hfuel; lia) ltac:(lia))
      as (e1 & path & Hp & Hl).
    rewrite Hl.
    pose proof Hinc as Ha. rewrite Hes in Ha. apply increasing_after in Ha.
    inversion Ha as [|a l He' _]; subst a l.
    assert (He1 : e1 = e').
    { rewrite Hes in Hp.
      change (pre ++ e :: e' :: rest) with (pre ++ [e] ++ e' :: rest) in Hp.
      rewrite app_assoc in Hp.
      rewrite pick_app_r in Hp.
      - unfold pick in Hp. cbn [first_ge] in Hp.
        assert (Hk : kle (eid e, etag e + 1) (key e')).
        { apply klt_succ. unfold eid, etag.
          destruct (key e); exact He'. }
        apply pair_leb_spec in Hk. rewrite Hk in Hp. congruence.
      - apply Forall_app. split.
        + pose proof Hinc as Hb. rewrite Hes in Hb.
          apply increasing_before in Hb.
          eapply Forall_impl; [|exact Hb]. intros a Ha'. cbn beta in Ha'.
          unfold klt, eid, etag in *. cbn [fst snd] in *. lia.
        + constructor; [|constructor].
          unfold klt, eid, etag. cbn [fst snd]. lia.
      - discriminate. }
    subst e1.
    assert (Hd : Rbyd.pair_ltb (key e') (eid e, etag e + 1) = false).
    { apply pair_ltb_false. apply klt_succ. unfold eid, etag.
      destruct (key e); exact He'. }
    rewrite Hd.
    destruct i as [|i]; [contradiction|].
    destruct e' as [[[[[id1 tag1] w1] j1] d1] data1].
    cbn [answer bind Nat.eqb negb orb andb run].
    change (eid (id1, tag1, w1, j1, d1, data1)) with id1.
    destruct (id1 =? eid e) eqn:E.
    + apply Z.eqb_eq in E. subst id1. cbn [negb].
      assert (IH' := IH (pre ++ [e]) (eid e, tag1, w1, j1, d1, data1) fuel
                     (S (S i)) w
                     (tags ++ [(tag1, j1, d1, data1)])
                     (if tag1 =? TAG_BTREE then Some (tag1, j1, d1, data1)
                      else branch)
                     ltac:(rewrite <- app_assoc; exact Hes)
                     ltac:(cbn [length] in Hfuel; lia)
                     ltac:(discriminate)).
      etransitivity; [exact IH'|].
      change (eid (eid e, tag1, w1, j1, d1, data1)) with (eid e).
      cbn [map tagent_of find_branch fold_left ttag].
      rewrite <- app_assoc. reflexivity.
    + cbn [negb map]. rewrite app_nil_r. reflexivity.
Qed.

Lemma seek_app (rid : Z) (pre rest : list Rbyd.entry) (e0 : Rbyd.entry) :
  Forall (fun a => eid a < rid) pre -> rid <= eid e0 ->
  seek rid (pre ++ e0 :: rest) = Some (e0, run (eid e0) rest).
Proof.
  intros Hpre He. induction Hpre as [|a pre Ha _ IH]; cbn [app seek].
  - apply Z.leb_le in He. rewrite He. reflexivity.
  - apply Z.leb_gt in Ha. rewrite Ha. exact IH.
Qed.

(** The first round of [collect] finds the first entry at or above
    [rid]; the rounds after it gather the entries of the same id. *)
Lemma collect_seek (self : Rbyd.t) (es : list Rbyd.entry) (n : nat) :
  looks_up self es n -> increasing es ->
  Forall (fun e => 0 <= etag e < 0xfff) es ->
  Forall (fun e => 1 <= etag e) es -> es <> [] ->
  forall rid fuel, (n + length es < fuel)%nat ->
    collect fuel self 0 rid 0 0 [] None
    = Ok (match seek rid es with
          | Some (e0, r) =>
              (eid e0, eweight e0, map tagent_of (e0 :: r),
               find_branch (map tagent_of (e0 :: r)) None)
          | None => (rid, 0, [], None)
          end).
Proof.
  intros Hlook Hinc Htags Hpos Hne rid fuel Hfuel.
  destruct fuel as [|fuel]; [lia|]. cbn [collect].
  destruct (Hlook (S fuel) rid (0 + 1) ltac:(lia) ltac:(lia))
    as (e1 & path & Hp & Hl).
  rewrite Hl.
  destruct (seek rid es) as [[e0 r]|] eqn:Es.
  - destruct (seek_some _ _ _ _ Es) as (pre & rest & Hes & Hpre & He & Hr).
    assert (Hin : In e0 es) by (rewrite Hes; apply in_elt).
    rewrite Forall_forall in Hpos. pose proof (Hpos e0 Hin) as Hpos0.
    assert (Hk : kle (rid, 0 + 1) (key e0)).
    { unfold kle, eid, etag in *. cbn [fst snd]. lia. }
    assert (He1 : e1 = e0).
    { rewrite Hes in Hp. rewrite pick_app_r in Hp.
      - unfold pick in Hp. cbn [first_ge] in Hp.
        apply pair_leb_spec in Hk. rewrite Hk in Hp. congruence.
      - eapply Forall_impl; [|exact Hpre]. intros a Ha. cbn beta in Ha.
        unfold klt, eid in *. cbn [fst snd]. lia.
      - discriminate. }
    subst e1.
    assert (Hd : Rbyd.pair_ltb (key e0) (rid, 0 + 1) = false).
    { apply pair_ltb_false. exact Hk. }
    rewrite Hd.
    pose proof (collect_run self es n Hlook Hinc Htags rest pre e0 fuel 1%nat
                  (eweight e0) [tagent_of e0]
                  (if etag e0 =? TAG_BTREE then Some (tagent_of e0) else None)
                  Hes) as Hrun.
    destruct e0 as [[[[[id0 tag0] w0] j0] d0] data0].
    cbn [answer bind Nat.eqb negb orb andb app].
    etransitivity; [apply Hrun|].
    + rewrite Hes, length_app in Hfuel. cbn [length] in Hfuel. lia.
    + discriminate.
    + subst r. reflexivity.
  - pose proof (seek_none _ _ Es) as Hall.
    assert (Hlt : klt (key e1) (rid, 0 + 1)).
    { unfold pick in Hp. rewrite first_ge_none in Hp.
      - apply last_entry_in in Hp.
        rewrite Forall_forall in Hall. specialize (Hall e1 Hp).
        unfold klt, eid in *. cbn [fst snd]. lia.
      - eapply Forall_impl; [|exact Hall]. intros a Ha. cbn beta in Ha.
        unfold klt, eid in *. cbn [fst snd]. lia. }
    apply pair_ltb_spec in Hlt. rewrite Hlt.
    destruct e1 as [[[[[id1 tag1] w1] j1] d1] data1]. reflexivity.
Qed.

Lemma chained_mid (pre rest : list Rbyd.entry) (e : Rbyd.entry) :
  forall lo hi,
    chained lo (pre ++ e :: rest) hi ->
    exists mid,
      chained lo pre mid /\ eid e - eweight e = mid
      /\ chained (eid e) rest hi.
Proof.
  induction pre as [|a pre IH]; intros lo hi H; cbn [app chained] in H.
  - destruct H as [He H]. exists lo. cbn [chained]. auto.
  - destruct H as [Ha H]. destruct (IH _ _ H) as (mid & H1 & H2 & H3).
    exists mid. cbn [chained]. auto.
Qed.

Lemma chained_below (es : list Rbyd.entry) (rid : Z) :
  forall lo hi,
    chained lo es hi -> Forall (fun a => eid a < rid) es -> lo < rid ->
    hi < rid.
Proof.
  induction es as [|a es IH]; intros lo hi H Hall Hlo; cbn [chained] in H.
  - lia.
  - destruct H as [_ H]. inversion Hall; subst. eapply IH; eassumption.
Qed.

Lemma increasing_ids (es : list Rbyd.entry) :
  forall lo hi,
    chained lo es hi -> increasing es ->
    Forall (fun e => lo <= eid e) es ->
    Forall (fun e => eid e <= hi) es.
Proof.
  induction es as [|e es IH]; intros lo hi Hch Hinc Hlo; [constructor|].
  cbn [chained] in Hch. destruct Hch as [He Hch].
  inversion Hinc as [|e' l' Hinc' Hall]; subst.
  assert (Hge : Forall (fun b => eid e <= eid b) es).
  { eapply Forall_impl; [|exact Hall]. intros b Hb. cbn beta in Hb.
    unfold eid, klt in *. lia. }
  pose proof (IH _ _ Hch Hinc' Hge) as Hes.
  destruct (chained_weights es (eid e) hi Hch Hinc' Hge) as [_ Hhi].
  constructor; [exact Hhi|exact Hes].
Qed.

Lemma increasing_app_l (es1 es2 : list Rbyd.entry) :
  increasing (es1 ++ es2) -> increasing es1.
Proof.
  unfold increasing. induction es1 as [|a es1 IH]; cbn [app]; intros H.
  - constructor.
  - inversion H as [|a' l' Hl Hall]; subst.
    constructor; [exact (IH Hl)|].
    apply Forall_app in Hall. tauto.
Qed.

(** One level of the descent: the ids from [rid2] in the range of an
    entry group all collect that same group. *)
Lemma level_ok (self : Rbyd.t) (es : list Rbyd.entry) (rid : Z) :
  wf_node self es -> Forall (fun e => 1 <= etag e) es ->
  0 <= rid < Rbyd.weight self ->
  exists n e0 r,
    seek rid es = Some (e0, r)
    /\ -1 <= eid e0 - eweight e0
    /\ eid e0 - eweight e0 < rid <= eid e0
    /\ eid e0 <= Rbyd.weight self - 1
    /\ forall rid2 fuel,
         eid e0 - eweight e0 < rid2 <= eid e0 -> (n <= fuel)%nat ->
         collect fuel self 0 rid2 0 0 [] None
         = Ok (eid e0, eweight e0, map tagent_of (e0 :: r),
               find_branch (map tagent_of (e0 :: r)) None).
Proof.
  intros Hwf Hpos Hrid.
  destruct (wf_looks_up _ _ Hwf) as [n Hlook].
  destruct Hwf as (Hb & Hs & Hlow).
  pose proof (shape_increasing _ _ _ _ _ Hs) as Hinc.
  pose proof (shape_chained _ _ _ _ _ Hs) as Hch.
  pose proof (shape_tags _ _ _ _ _ Hs) as Htags.
  pose proof (shape_nonempty _ _ _ _ _ Hs) as Hne.
  assert (Hlo : Forall (fun e => -1 <= eid e) es).
  { eapply Forall_impl; [|exact Hlow]. intros e He. cbn beta in He.
    unfold eid, kle in *. cbn [fst snd] in *. lia. }
  destruct (seek rid es) as [[e0 r]|] eqn:Es.
  2:{ pose proof (seek_none _ _ Es) as Hall.
      pose proof (chained_below _ _ _ _ Hch Hall ltac:(lia)). lia. }
  destruct (seek_some _ _ _ _ Es) as (pre & rest & Hes & Hpre & He & Hr).
  rewrite Hes in Hch.
  destruct (chained_mid _ _ _ _ _ Hch) as (mid & Hc1 & Hmid & Hc2).
  assert (Hinc1 : increasing pre).
  { rewrite Hes in Hinc. exact (increasing_app_l _ _ Hinc). }
  assert (Hlo1 : Forall (fun e => -1 <= eid e) pre).
  { rewrite Hes in Hlo. apply Forall_app in Hlo. tauto. }
  pose proof (increasing_ids _ _ _ Hc1 Hinc1 Hlo1) as Hle1.
  destruct (chained_weights _ _ _ Hc1 Hinc1 Hlo1) as [_ Hmid1].
  pose proof (chained_below _ _ _ _ Hc1 Hpre ltac:(lia)) as Hmid2.
  assert (Hhi : eid e0 <= Rbyd.weight self - 1).
  { assert (Hin : In e0 es) by (rewrite Hes; apply in_elt).
    rewrite <- Hes in Hch.
    pose proof (increasing_ids _ _ _ Hch Hinc Hlo) as Hall.
    rewrite Forall_forall in Hall. exact (Hall e0 Hin). }
  exists (S (n + length es)), e0, r.
  split; [reflexivity|]. split; [lia|]. split; [lia|]. split; [exact Hhi|].
  intros rid2 fuel Hr2 Hfuel.
  rewrite (collect_seek self es n Hlook Hinc Htags Hpos Hne rid2 fuel)
    by lia.
  rewrite Hes, seek_app.
  - subst r. reflexivity.
  - eapply Forall_impl; [|exact Hle1]. intros a Ha. cbn beta in Ha. lia.
  - lia.
Qed.

(** Past the last id of a node [collect] finds nothing. *)
Lemma level_end (self : Rbyd.t) (es : list Rbyd.entry) (rid : Z) :
  wf_node self es -> Forall (fun e => 1 <= etag e) es ->
  Rbyd.weight self <= rid ->
  exists n, forall fuel, (n <= fuel)%nat ->
    collect fuel self 0 rid 0 0 [] None = Ok (rid, 0, [], None).
Proof.
  intros Hwf Hpos Hrid.
  destruct (wf_looks_up _ _ Hwf) as [n Hlook].
  destruct Hwf as (Hb & Hs & Hlow).
  pose proof (shape_increasing _ _ _ _ _ Hs) as Hinc.
  pose proof (shape_chained _ _ _ _ _ Hs) as Hch.
  pose proof (shape_tags _ _ _ _ _ Hs) as Htags.
  pose proof (shape_nonempty _ _ _ _ _ Hs) as Hne.
  assert (Hlo : Forall (fun e => -1 <= eid e) es).
  { eapply Forall_impl; [|exact Hlow]. intros e He. cbn beta in He.
    unfold eid, kle in *. cbn [fst snd] in *. lia. }
  pose proof (increasing_ids _ _ _ Hch Hinc Hlo) as Hall.
  exists (S (n + length es)). intros fuel Hfuel.
  rewrite (collect_seek self es n Hlook Hinc Htags Hpos Hne rid fuel)
    by lia.
  destruct (seek rid es) as [[e0 r]|] eqn:Es; [|reflexivity].
  destruct (seek_some _ _ _ _ Es) as (pre & rest & Hes & _ & He & _).
  assert (Hin : In e0 es) by (rewrite Hes; apply in_elt).
  rewrite Forall_forall in Hall. specialize (Hall e0 Hin). lia.
Qed.

(** Down a well-formed B-tree the descent from [rid] ends at a leaf
    entry group or at a dangling branch, the range it reports contains
    the bid asked for and lies in the node, and every bid of that range
    gives the same result. *)
Lemma descend_ok (f : list byte) (block_size : Z) (h : nat) :
  forall rbyd rid,
    btree_ok f block_size h rbyd -> 0 <= rid < Rbyd.weight rbyd ->
    exists n, forall fuel levels, (n <= fuel)%nat -> (n <= levels)%nat ->
      forall bid depth_ path,
      exists bid' w leaf rid_ tags path',
        (bid - rid - 1 <= bid' - w /\ bid' - w < bid <= bid'
         /\ bid' <= bid - rid + Rbyd.weight rbyd - 1)
        /\ ((Rbyd.bool leaf = true /\ tags <> [])
            \/ (Rbyd.bool leaf = false /\ rid_ = -1 /\ tags = []))
        /\ forall bid2, bid' - w < bid2 <= bid' ->
             descend f block_size fuel levels bid2 None rbyd
               (rid + (bid2 - bid)) depth_ path
             = Ok (false, bid', w, leaf, rid_, tags, path').
Proof.
  induction h as [|h IH]; intros rbyd rid Hok Hrid;
    cbn [btree_ok] in Hok; destruct Hok as (es & Hwf & Hpos & Hch);
    destruct (level_ok rbyd es rid Hwf Hpos Hrid)
      as (n & e0 & r & Es & H1 & H2 & H3 & Hcol);
    specialize (Hch rid e0 r);
    destruct (find_branch (map tagent_of (e0 :: r)) None)
      as [[[[tag j] d] data]|] eqn:Eb.
  - exfalso. exact (Hch _ (proj1 Hrid) Es eq_refl).
  - (* a leaf *)
    exists (S n). intros fuel levels Hf Hl bid depth_ path.
    destruct levels as [|levels]; [lia|].
    exists (bid + (eid e0 - rid)), (eweight e0), rbyd, (eid e0),
      (map tagent_of (e0 :: r)),
      (path ++ [(bid + (eid e0 - rid), eweight e0, rbyd, eid e0,
                 map tagent_of (e0 :: r))]).
    split; [lia|]. split.
    { left. split; [apply Hwf|discriminate]. }
    intros bid2 Hb2. cbn [descend].
    rewrite Hcol by lia. cbn [bind].
    replace (bid2 + (eid e0 - (rid + (bid2 - bid))))
      with (bid + (eid e0 - rid)) by lia.
    reflexivity.
  - (* a branch *)
    specialize (Hch _ (proj1 Hrid) Es eq_refl). cbn beta iota in Hch.
    destruct (frombtree data) as [[[w_ trunk] block] crc] eqn:Ef.
    destruct Hch as (child & Hfetch & Hchild).
    destruct (Rbyd.bool child) eqn:Ebool.
    + (* down the child *)
      destruct (Hchild eq_refl) as [Hw Hok'].
      destruct (IH child (rid - (eid e0 - (eweight e0 - 1))) Hok'
                  ltac:(lia)) as [nc Hc].
      exists (S (Nat.max n nc)). intros fuel levels Hf Hl bid depth_ path.
      destruct levels as [|levels]; [lia|].
      destruct (Hc fuel levels ltac:(lia) ltac:(lia) bid (depth_ + 1)
                  (path ++ [(bid + (eid e0 - rid), eweight e0, rbyd, eid e0,
                             map tagent_of (e0 :: r))]))
        as (bid' & w & leaf & rid_ & tags & path' & Hrange & Hleaf & Hsame).
      exists bid', w, leaf, rid_, tags, path'.
      split; [lia|]. split; [exact Hleaf|].
      intros bid2 Hb2. cbn [descend].
      rewrite Hcol by lia. cbn [bind].
      cbn [truthy negb orb]. rewrite Ef, Hfetch. cbn [bind].
      rewrite Ebool. cbn [negb].
      replace (bid2 + (eid e0 - (rid + (bid2 - bid))))
        with (bid + (eid e0 - rid)) by lia.
      replace (rid + (bid2 - bid) - (eid e0 - (eweight e0 - 1)))
        with (rid - (eid e0 - (eweight e0 - 1)) + (bid2 - bid)) by lia.
      apply Hsame. exact Hb2.
    + (* a dangling branch *)
      exists (S n). intros fuel levels Hf Hl bid depth_ path.
      destruct levels as [|levels]; [lia|].
      exists (bid + (eid e0 - rid)), (eweight e0), child, (-1), [],
        (path ++ [(bid + (eid e0 - rid), eweight e0, rbyd, eid e0,
                   map tagent_of (e0 :: r))]).
      split; [lia|]. split; [right; auto|].
      intros bid2 Hb2. cbn [descend].
      rewrite Hcol by lia. cbn [bind].
      cbn [truthy negb orb]. rewrite Ef, Hfetch. cbn [bind].
      rewrite Ebool. cbn [negb].
      replace (bid2 + (eid e0 - (rid + (bid2 - bid))))
        with (bid + (eid e0 - rid)) by lia.
      reflexivity.
  - (* a leaf *)
    exists (S n). intros fuel levels Hf Hl bid depth_ path.
    destruct levels as [|levels]; [lia|].
    exists (bid + (eid e0 - rid)), (eweight e0), rbyd, (eid e0),
      (map tagent_of (e0 :: r)),
      (path ++ [(bid + (eid e0 - rid), eweight e0, rbyd, eid e0,
                 map tagent_of (e0 :: r))]).
    split; [lia|]. split.
    { left. split; [apply Hwf|discriminate]. }
    intros bid2 Hb2. cbn [descend].
    rewrite Hcol by lia. cbn [bind].
    replace (bid2 + (eid e0 - (rid + (bid2 - bid))))
      with (bid + (eid e0 - rid)) by lia.
    reflexivity.
Qed.

Lemma btree_ok_root (f : list byte) (block_size : Z) (h : nat)
  (btree : Rbyd.t) :
  btree_ok f block_size h btree ->
  Rbyd.bool btree = true /\ 0 <= Rbyd.weight btree.
Proof.
  intros Hok.
  assert (H : exists es, wf_node btree es).
  { destruct h; cbn [btree_ok] in Hok;
      destruct Hok as (es & Hwf & _); exists es; exact Hwf. }
  destruct H as (es & Hb & Hs & Hlow). split; [exact Hb|].
  pose proof (shape_increasing _ _ _ _ _ Hs) as Hinc.
  pose proof (shape_chained _ _ _ _ _ Hs) as Hch.
  destruct (chained_weights _ _ _ Hch Hinc) as [_ Hw]; [|lia].
  eapply Forall_impl; [|exact Hlow]. intros e He. cbn beta in He.
  unfold eid, kle in *. cbn [fst snd] in *. lia.
Qed.

Lemma resolve_ok (f : list byte) (block_size : Z) (h : nat)
  (btree : Rbyd.t) (bid : Z) :
  btree_ok f block_size h btree -> 0 <= bid < Rbyd.weight btree ->
  exists n, forall fuel, (n <= fuel)%nat ->
    exists r, resolves f block_size btree fuel bid r.
Proof.
  intros Hok Hbid.
  destruct (btree_ok_root _ _ _ _ Hok) as [Hb _].
  destruct (descend_ok f block_size h btree bid Hok Hbid) as [n Hn].
  exists n. intros fuel Hfuel.
  destruct (Hn fuel fuel Hfuel Hfuel bid 1 [])
    as (bid' & w & leaf & rid_ & tags & path' & Hrange & Hleaf & Hsame).
  exists (false, bid', w, leaf, rid_, tags, path').
  unfold resolves, ends_well.
  split; [reflexivity|]. split; [lia|]. split; [lia|]. split; [lia|].
  split; [exact Hleaf|].
  intros bid2 Hb2. unfold btree_lookup. rewrite Hb. cbn [negb].
  specialize (Hsame bid2 Hb2).
  replace (bid + (bid2 - bid)) with bid2 in Hsame by lia.
  exact Hsame.
Qed.

Lemma resolve_end (f : list byte) (block_size : Z) (h : nat)
  (btree : Rbyd.t) (bid : Z) :
  btree_ok f block_size h btree -> Rbyd.weight btree <= bid ->
  exists n, forall fuel depth, (n <= fuel)%nat ->
    btree_lookup f block_size btree fuel bid depth
    = Ok (true, bid, 0, btree, bid, [], [(bid, 0, btree, bid, [])]).
Proof.
  intros Hok Hbid.
  destruct (btree_ok_root _ _ _ _ Hok) as [Hb _].
  assert (H : exists es, wf_node btree es
                         /\ Forall (fun e => 1 <= etag e) es).
  { destruct h; cbn [btree_ok] in Hok;
      destruct Hok as (es & Hwf & Hpos & _); exists es; auto. }
  destruct H as (es & Hwf & Hpos).
  destruct (level_end btree es bid Hwf Hpos Hbid) as [n Hn].
  exists (S n). intros fuel depth Hfuel.
  unfold btree_lookup. rewrite Hb. cbn [negb].
  destruct fuel as [|fuel]; [lia|]. cbn [descend].
  rewrite Hn by lia. cbn [bind app].
  replace (bid + (bid - bid)) with bid by lia. reflexivity.
Qed.

(** Finitely many bounds have a common one. *)
Lemma range_choice (Q : Z -> nat -> Prop) (lo : Z) :
  (forall z n m, Q z n -> (n <= m)%nat -> Q z m) ->
  forall k : nat,
    (forall z, lo <= z < lo + Z.of_nat k -> exists n, Q z n) ->
    exists N, forall z, lo <= z < lo + Z.of_nat k -> Q z N.
Proof.
  intros Hup. induction k as [|k IH]; intros H.
  - exists 0%nat. intros z Hz. lia.
  - destruct IH as [N HN]; [intros z Hz; apply H; lia|].
    destruct (H (lo + Z.of_nat k) ltac:(lia)) as [n Hn].
    exists (Nat.max N n). intros z Hz.
    destruct (Z.eq_dec z (lo + Z.of_nat k)) as [->|Hne].
    + eapply Hup; [exact Hn|lia].
    + eapply Hup; [apply HN; lia|lia].
Qed.

(** With every bid of the tree resolving, the walk from the end [bid] of
    a range goes through the ranges that follow, one after the other. *)
Lemma traverse_from (f : list byte) (block_size : Z) (btree : Rbyd.t)
  (fuel : nat) :
  (forall bid, 0 <= bid < Rbyd.weight btree ->
     exists r, resolves f block_size btree fuel bid r) ->
  (exists r,
     btree_lookup f block_size btree fuel (Rbyd.weight btree) None = Ok r
     /\ let '(done, _, _, _, _, _, _) := r in done = true) ->
  forall (k : nat) bid rounds,
    -1 <= bid < Rbyd.weight btree ->
    (Z.to_nat (Rbyd.weight btree - 1 - bid) <= k)%nat ->
    (bid = -1
     \/ exists r, btree_lookup f block_size btree fuel bid None = Ok r
                  /\ fst (span r) = bid) ->
    (k < rounds)%nat ->
    exists l,
      traverse f block_size btree fuel rounds bid None = (l, Ok tt)
      /\ tiled bid (map span l) (Rbyd.weight btree - 1)
      /\ Forall ends_well l.
Proof.
  intros Hres (rend & Hend & Hdone).
  induction k as [|k IH]; intros bid rounds Hbid Hk Hal Hrounds;
    (destruct rounds as [|rounds]; [lia|]); cbn [traverse].
  - assert (bid = Rbyd.weight btree - 1) by lia. subst bid.
    replace (Rbyd.weight btree - 1 + 1) with (Rbyd.weight btree) by lia.
    rewrite Hend. destruct rend as [[[[[[done ?] ?] ?] ?] ?] ?].
    subst done. exists []. cbn. auto.
  - destruct (Z.eq_dec bid (Rbyd.weight btree - 1)) as [->|Hne].
    { replace (Rbyd.weight btree - 1 + 1) with (Rbyd.weight btree) by lia.
      rewrite Hend. destruct rend as [[[[[[done ?] ?] ?] ?] ?] ?].
      subst done. exists []. cbn. auto. }
    destruct (Hres (bid + 1) ltac:(lia)) as [r Hr].
    destruct r as [[[[[[done bid'] w] leaf] rid] tags] path].
    pose proof Hr as Hr'.
    destruct Hr' as (Hd & Hlo & Hin & Hhi & Hleaf & Hsame).
    subst done. rewrite (Hsame (bid + 1) Hin).
    (* the range starts right after [bid] *)
    assert (Hstart : bid' - w = bid).
    { destruct (Z.eq_dec (bid' - w) bid) as [E|E]; [exact E|exfalso].
      destruct Hal as [->|(r0 & Hl0 & Hb0)]; [lia|].
      rewrite (Hsame bid ltac:(lia)) in Hl0. injection Hl0 as <-.
      cbn in Hb0. lia. }
    destruct (IH bid' rounds ltac:(lia) ltac:(lia)) as (l & Hl & Ht & Hw).
    + right. exists (false, bid', w, leaf, rid, tags, path).
      split; [apply Hsame; lia|reflexivity].
    + lia.
    + rewrite Hl.
      exists ((false, bid', w, leaf, rid, tags, path) :: l).
      split; [reflexivity|]. split.
      * cbn [map span tiled]. split; [lia|]. split; [exact Hstart|exact Ht].
      * constructor; [exact Hleaf|exact Hw].
Qed.

Lemma traverse_ok (f : list byte) (block_size : Z) (h : nat)
  (btree : Rbyd.t) :
  btree_ok f block_size h btree ->
  exists n, forall fuel rounds, (n <= fuel)%nat -> (n <= rounds)%nat ->
    exists l,
      traverse f block_size btree fuel rounds (-1) None = (l, Ok tt)
      /\ tiled (-1) (map span l) (Rbyd.weight btree - 1)
      /\ Forall ends_well l.
Proof.
  intros Hok. destruct (btree_ok_root _ _ _ _ Hok) as [Hb Hw].
  destruct (range_choice
              (fun bid n => forall fuel, (n <= fuel)%nat ->
                 exists r, resolves f block_size btree fuel bid r)
              0 ltac:(intros z n m H Hnm fuel Hf; apply H; lia)
              (Z.to_nat (Rbyd.weight btree))) as [N HN].
  { intros z Hz. apply (resolve_ok f block_size h btree z Hok). lia. }
  destruct (resolve_end f block_size h btree (Rbyd.weight btree) Hok
              ltac:(lia)) as [ne Hne].
  exists (Nat.max (Nat.max N ne) (S (Z.to_nat (Rbyd.weight btree)))).
  intros fuel rounds Hfuel Hrounds.
  apply (traverse_from f block_size btree fuel)
    with (k := Z.to_nat (Rbyd.weight btree)).
  - intros bid Hbid. apply (HN bid); lia.
  - eexists. split; [apply Hne; lia|]. reflexivity.
  - lia.
  - lia.
  - left. reflexivity.
  - lia.
Qed.

(** The shape of a tree depends on the node through its bytes only. *)
Lemma shape_same_data (self self' : Rbyd.t) (j lower upper : Z)
  (es : list Rbyd.entry) :
  Rbyd.data self' = Rbyd.data self ->
  shape self j lower upper es -> shape self' j lower upper es.
Proof.
  intros Hd. induction 1.
  - rewrite <- Hd. eapply shape_leaf; [rewrite Hd|]; eassumption.
  - eapply shape_le; try eassumption.
    + rewrite Hd. eassumption.
    + unfold Rbyd.alt_color in *. rewrite Hd. eassumption.
  - eapply shape_gt; try eassumption.
    + rewrite Hd. eassumption.
    + unfold Rbyd.alt_color in *. rewrite Hd. eassumption.
Qed.

Lemma node_demo_at27_wf : wf_node node_demo_at27 entries_demo.
Proof.
  destruct node_demo_wf as (_ & Hs & Hlow).
  split; [reflexivity|]. split; [|exact Hlow].
  exact (shape_same_data node_demo node_demo_at27 _ _ _ _ eq_refl Hs).
Defined.

Lemma node_root_wf : wf_node node_root entries_root.
Proof.
  split; [reflexivity|]. split.
  - apply (shape_le node_root 15 (-1) 4 1 0x4303 2 11 4 B
             [(1, 0x303, 2, 4, 4, bytes [2; 27; 0; 0; 0; 0; 0])]
             [(3, 0x303, 2, 19, 4, bytes [2; 4; 2; 0; 0; 0; 0])]).
    + vm_compute. reflexivity.
    + discriminate.
    + reflexivity.
    + reflexivity.
    + apply (shape_leaf node_root 4 (-1) 2 1 0x303 2 7 4).
      * vm_compute. reflexivity.
      * reflexivity.
    + apply (shape_leaf node_root 19 1 4 1 0x303 2 7 4).
      * vm_compute. reflexivity.
      * reflexivity.
    + constructor; [|constructor]. unfold kle. cbn. lia.
    + constructor. reflexivity.
    + constructor; [|constructor]. unfold klt. cbn. lia.
  - repeat constructor; unfold kle; cbn; lia.
Defined.

Lemma fetch_node_demo_at27 :
  Rbyd.fetch_int file_tree 64 0 (Some 27) = Ok node_demo_at27.
Proof. vm_compute. reflexivity. Defined.

Lemma fetch_node_blank :
  Rbyd.fetch_int file_tree 64 2 (Some 4) = Ok node_blank.
Proof. vm_compute. reflexivity. Defined.

Lemma fetch_node_root :
  Rbyd.fetch file_tree 64 [Int 1] None = Ok node_root.
Proof. vm_compute. reflexivity. Defined.

(** The tree of [file_tree]: a root with two branches, a leaf under the
    first and nothing under the second. *)
Lemma file_tree_ok : btree_ok file_tree 64 1 node_root.
Proof.
  exists entries_root. split; [exact node_root_wf|]. split.
  { repeat constructor; cbn; lia. }
  intros rid e0 r t Hrid. cbn [seek entries_root].
  change (eid (1, 771, 2, 4, 4, bytes [2; 27; 0; 0; 0; 0; 0])) with 1.
  change (eid (3, 771, 2, 19, 4, bytes [2; 4; 2; 0; 0; 0; 0])) with 3.
  destruct (rid <=? 1); [|destruct (rid <=? 3); [|discriminate]].
  - intros [= <- <-]. intros [= <-].
    exists node_demo_at27. split; [exact fetch_node_demo_at27|].
    intros _. split; [reflexivity|].
    exists entries_demo. split; [exact node_demo_at27_wf|]. split.
    { repeat constructor; cbn; lia. }
    intros rid' e0' r' t' Hrid'. cbn [seek entries_demo].
    change (eid (0, 257, 1, 4, 4, bytes [97])) with 0.
    change (eid (0, 768, 0, 35, 4, bytes [121])) with 0.
    change (eid (1, 257, 1, 22, 4, bytes [98])) with 1.
    destruct (rid' <=? 0); [|destruct (rid' <=? 1); [|discriminate]];
      intros [= <- <-]; discriminate.
  - intros [= <- <-]. intros [= <-].
    exists node_blank. split; [exact fetch_node_blank|].
    discriminate.
Defined.

(** In a well-formed B-tree, where branches may dangle, the lookup of a
    bid below the weight of the root is not done and ends at the entries
    of a truthy node or at the falsy target of a dangling branch. The
    range [(bid' - w, bid']] it reports holds the bid asked for and lies
    within [[0, weight)], and the lookup of every bid of that range
    gives the same result: two ranges are the same or disjoint. *)
Theorem btree_lookup_range (f : list byte) (block_size : Z) (h : nat)
  (btree : Rbyd.t) (bid : Z) :
  btree_ok f block_size h btree -> 0 <= bid < Rbyd.weight btree ->
  exists n, forall fuel, (n <= fuel)%nat ->
    exists bid' w rbyd rid tags path,
      btree_lookup f block_size btree fuel bid None
      = Ok (false, bid', w, rbyd, rid, tags, path)
      /\ 0 <= bid' - w + 1 /\ bid' - w < bid <= bid'
      /\ bid' < Rbyd.weight btree
      /\ ((Rbyd.bool rbyd = true /\ tags <> [])
          \/ (Rbyd.bool rbyd = false /\ rid = -1 /\ tags = []))
      /\ forall bid2, bid' - w < bid2 <= bid' ->
           btree_lookup f block_size btree fuel bid2 None
           = Ok (false, bid', w, rbyd, rid, tags, path).
Proof.
  intros Hok Hbid.
  destruct (resolve_ok f block_size h btree bid Hok Hbid) as [n Hn].
  exists n. intros fuel Hfuel.
  destruct (Hn fuel Hfuel) as [[[[[[[done bid'] w] rbyd] rid] tags] path] Hr].
  destruct Hr as (-> & Hlo & Hin & Hhi & Hleaf & Hsame).
  exists bid', w, rbyd, rid, tags, path.
  split; [exact (Hsame bid Hin)|].
  split; [lia|]. split; [exact Hin|]. split; [exact Hhi|].
  split; [exact Hleaf|exact Hsame].
Qed.

Lemma btree_lookup_range_witness :
  exists n, forall fuel, (n <= fuel)%nat ->
    exists bid' w rbyd rid tags path,
      btree_lookup file_tree 64 node_root fuel 2 None
      = Ok (false, bid', w, rbyd, rid, tags, path)
      /\ 0 <= bid' - w + 1 /\ bid' - w < 2 <= bid'
      /\ bid' < Rbyd.weight node_root
      /\ ((Rbyd.bool rbyd = true /\ tags <> [])
          \/ (Rbyd.bool rbyd = false /\ rid = -1 /\ tags = []))
      /\ forall bid2, bid' - w < bid2 <= bid' ->
           btree_lookup file_tree 64 node_root fuel bid2 None
           = Ok (false, bid', w, rbyd, rid, tags, path).
Proof.
  apply (btree_lookup_range file_tree 64 1 node_root 2 file_tree_ok).
  cbn. lia.
Defined.

(** At or past the weight of the root the lookup is done, with no
    entries, whatever the depth limit. *)
Theorem btree_lookup_past_end (f : list byte) (block_size : Z) (h : nat)
  (btree : Rbyd.t) (bid : Z) :
  btree_ok f block_size h btree -> Rbyd.weight btree <= bid ->
  exists n, forall fuel depth, (n <= fuel)%nat ->
    btree_lookup f block_size btree fuel bid depth
    = Ok (true, bid, 0, btree, bid, [], [(bid, 0, btree, bid, [])]).
Proof. exact (resolve_end f block_size h btree bid). Qed.

Lemma btree_lookup_past_end_witness :
  exists n, forall fuel depth, (n <= fuel)%nat ->
    btree_lookup file_tree 64 node_root fuel 4 depth
    = Ok (true, 4, 0, node_root, 4, [], [(4, 0, node_root, 4, [])]).
Proof.
  apply (btree_lookup_past_end file_tree 64 1 node_root 4 file_tree_ok).
  cbn. lia.
Defined.

(** The walk of a well-formed B-tree, where branches may dangle, ends
    without an exception, and the ranges of the results it goes through
    follow one another from 0 to the weight of the root without gap or
    overlap, none of them empty; each result holds the entries of a
    truthy node or the falsy target of a dangling branch. *)
Theorem traverse_tiles (f : list byte) (block_size : Z) (h : nat)
  (btree : Rbyd.t) :
  btree_ok f block_size h btree ->
  exists n, forall fuel rounds, (n <= fuel)%nat -> (n <= rounds)%nat ->
    exists l,
      traverse f block_size btree fuel rounds (-1) None = (l, Ok tt)
      /\ tiled (-1) (map span l) (Rbyd.weight btree - 1)
      /\ Forall ends_well l.
Proof. exact (traverse_ok f block_size h btree). Qed.

Lemma traverse_tiles_witness :
  exists n, forall fuel rounds, (n <= fuel)%nat -> (n <= rounds)%nat ->
    exists l,
      traverse file_tree 64 node_root fuel rounds (-1) None = (l, Ok tt)
      /\ tiled (-1) (map span l) (Rbyd.weight node_root - 1)
      /\ Forall ends_well l.
Proof. exact (traverse_tiles file_tree 64 1 node_root file_tree_ok). Defined.

Lemma descend_depth (f : list byte) (block_size : Z) (d : Z) :
  d <> 0 ->
  forall levels fuel bid rbyd rid depth_ path,
    match descend f block_size fuel levels bid (Some d) rbyd rid depth_ path
    with
    | Ok (_, _, _, _, _, _, path') =>
        Z.of_nat (length path) + 1 <= Z.of_nat (length path')
        <= Z.of_nat (length path) + Z.max 1 (d - depth_ + 1)
    | _ => True
    end.
Proof.
  intros Hd. induction levels as [|levels IH];
    intros fuel bid rbyd rid depth_ path; cbn [descend]; [exact I|].
  destruct (collect fuel rbyd 0 rid 0 0 [] None)
    as [[[[rid_ w] tags] branch]| |]; cbn [bind]; try exact I.
  assert (Hleaf :
    Z.of_nat (length path) + 1
    <= Z.of_nat (length (path ++ [(bid + (rid_ - rid), w, rbyd, rid_, tags)]))
    <= Z.of_nat (length path) + Z.max 1 (d - depth_ + 1)).
  { rewrite length_app. cbn [length]. lia. }
  destruct branch as [[[[tag j] d'] data]|]; [|exact Hleaf].
  cbn [truthy value]. apply Z.eqb_neq in Hd. rewrite Hd. cbn [negb orb].
  destruct (depth_ <? d) eqn:E; [|exact Hleaf].
  destruct (frombtree data) as [[[w_ trunk] block] crc].
  destruct (Rbyd.fetch_int f block_size block (Some trunk))
    as [rbyd'| |]; cbn [bind]; try exact I.
  destruct (Rbyd.bool rbyd'); cbn [negb]; [|exact Hleaf].
  specialize (IH fuel bid rbyd' (rid - (rid_ - (w - 1))) (depth_ + 1)
                (path ++ [(bid + (rid_ - rid), w, rbyd, rid_, tags)])).
  destruct (descend f block_size fuel levels bid (Some d) rbyd'
              (rid - (rid_ - (w - 1))) (depth_ + 1)
              (path ++ [(bid + (rid_ - rid), w, rbyd, rid_, tags)]))
    as [[[[[[[? ?] ?] ?] ?] ?] path']| |]; try exact I.
  apply Z.ltb_lt in E. rewrite length_app in IH. cbn [length] in IH. lia.
Qed.

(** With a depth limit [d] above 0 the search path a lookup returns has
    at most [d] levels, whatever the tree holds; it has a level when the
    root is truthy. *)
Theorem btree_lookup_depth (f : list byte) (block_size : Z)
  (btree : Rbyd.t) (fuel : nat) (bid d : Z) :
  0 < d ->
  match btree_lookup f block_size btree fuel bid (Some d) with
  | Ok (_, _, _, _, _, _, path) =>
      Z.of_nat (length path) <= d
      /\ (Rbyd.bool btree = true -> path <> [])
  | _ => True
  end.
Proof.
  intros Hd. unfold btree_lookup.
  destruct (Rbyd.bool btree) eqn:Hb; cbn [negb].
  - pose proof (descend_depth f block_size d ltac:(lia) fuel fuel bid btree
                  bid 1 []) as H.
    destruct (descend f block_size fuel fuel bid (Some d) btree bid 1 [])
      as [[[[[[[? ?] ?] ?] ?] ?] path]| |]; try exact I.
    cbn [length] in H. split; [lia|].
    intros _ ->. cbn [length] in H. lia.
  - cbn [length]. split; [lia|discriminate].
Qed.

Lemma btree_lookup_depth_witness :
  match btree_lookup file_tree 64 node_root 9 0 (Some 1) with
  | Ok (_, _, _, _, _, _, path) =>
      Z.of_nat (length path) <= 1
      /\ (Rbyd.bool node_root = true -> path <> [])
  | _ => True
  end.
Proof. apply (btree_lookup_depth file_tree 64 node_root 9 0 1). lia. Defined.

(** A falsy root is gone through once: the walk yields the one result
    that holds it and ends, whatever the depth limit, and the flag
    [corrupted] is set. *)
Theorem traverse_falsy_root (f : list byte) (block_size : Z)
  (btree : Rbyd.t) (fuel rounds : nat) (depth : option Z) :
  Rbyd.bool btree = false -> (2 <= rounds)%nat ->
  traverse f block_size btree fuel rounds (-1) depth
  = ([(false, 0, 0, btree, -1, [], [])], Ok tt)
  /\ corrupted (fst (traverse f block_size btree fuel rounds (-1) depth))
     = true.
Proof.
  intros Hb Hr.
  assert (H : traverse f block_size btree fuel rounds (-1) depth
              = ([(false, 0, 0, btree, -1, [], [])], Ok tt)).
  { destruct rounds as [|[|rounds]]; [lia|lia|].
    cbn [traverse]. unfold btree_lookup. rewrite Hb. reflexivity. }
  rewrite H. split; [reflexivity|]. cbn. rewrite Hb. reflexivity.
Qed.

Lemma traverse_falsy_root_witness :
  traverse file_tree 64 node_blank 0 2 (-1) None
  = ([(false, 0, 0, node_blank, -1, [], [])], Ok tt)
  /\ corrupted (fst (traverse file_tree 64 node_blank 0 2 (-1) None))
     = true.
Proof.
  apply (traverse_falsy_root file_tree 64 node_blank 0 2 None).
  - reflexivity.
  - lia.
Defined.
